(** * Table-generation engine of the parser generator: a shallow embedding

    The development follows the layout of the sources:
    - [Grammar]   : [src/grammar/grammar.ts]   (terms, precedences, rules)
    - [Automaton] : [src/grammar/automaton.ts] (items, states, FIRST sets,
                    closure, the LR(1) automaton and its LALR-like collapse)
    - [Build]     : [src/build.ts]             (inlining, forced reductions,
                    the tokenizer entry point, inversion of character sets)

    Conventions of the embedding.
    - JavaScript numbers that the code uses as integers are [Z]; array
      indices and dot positions are [nat].
    - Objects of the source are immutable after construction ([readonly]
      fields) and the generator creates one object per symbol, rule and
      precedence; reference identity ([==], [includes]) is therefore
      modelled by decidable structural equality.
    - A string is the sequence of the bytes of its UTF-8 encoding; the
      JavaScript comparison [a < b] on strings is the lexicographic
      comparison of the bytes, [String_as_OT.compare], which is the order of
      the code points (the order of JavaScript for strings of characters of
      the Basic Multilingual Plane).
    - An object used as a dictionary keyed by names is a [gmap string _].
    - A call that can fail returns a [res]: a JavaScript exception is a
      constructor of [error], and a loop without a static bound takes a fuel
      argument whose exhaustion is reported as [OutOfFuel]. *)

From Stdlib Require Import ZArith String Ascii.
From Stdlib Require Import Structures.OrdersEx.
From stdpp Require Import base option list gmap strings sorting pretty.

Open Scope string_scope.
Open Scope list_scope.
Open Scope Z_scope.

(** ** JavaScript helpers *)

(** [a || b] on numbers: [a] when it is non-zero, [b] otherwise. *)
Definition js_or (a b : Z) : Z := if decide (a = 0) then b else a.

Infix "|||" := js_or (at level 50, left associativity).

(** [a < b] on strings. *)
Definition str_lt (a b : string) : bool :=
  match String_as_OT.compare a b with Lt => true | _ => false end.

(** Results of calls that may throw, or whose loop the model bounds. *)
Inductive error :=
| TypeError                 (* property access on [undefined] *)
| Thrown (msg : string)     (* [throw new Error(msg)] / [raise] *)
| OutOfFuel.                (* the bound of the model was reached *)

Inductive res (A : Type) :=
| Ok (a : A)
| Err (e : error).
Arguments Ok {A} a.
Arguments Err {A} e.

Definition bind {A B} (m : res A) (f : A → res B) : res B :=
  match m with Ok a => f a | Err e => Err e end.

Notation "'let*' x ':=' m 'in' k" := (bind m (fun x => k))
  (at level 10, x pattern, m at level 100, k at level 200).

(** Reading a dictionary entry that must exist: [undefined] is not
    iterable and has no [length]. *)
Definition must {A} (o : option A) : res A :=
  match o with Some a => Ok a | None => Err TypeError end.

(** [add(value, array)] of automaton.ts and [addToSet] of build.ts. *)
Definition add {A} `{EqDecision A} (value : A) (array : list A) : list A :=
  if decide (value ∈ array) then array else array ++ [value].

(** [Array.prototype.sort(cmp)]: a stable insertion sort.  For a comparator
    that is consistent on the elements of the array every conforming
    implementation returns a list sorted for it. *)
Fixpoint sort_insert {A} (cmp : A → A → Z) (x : A) (l : list A) : list A :=
  match l with
  | [] => [x]
  | y :: l' => if decide (cmp x y < 0) then x :: l else y :: sort_insert cmp x l'
  end.

Definition sort {A} (cmp : A → A → Z) (l : list A) : list A :=
  foldr (sort_insert cmp) [] (reverse l).

(** * grammar.ts *)

Module Grammar.

Definition TERMINAL : Z := 1.
Definition EOF : Z := 2.
Definition ERROR : Z := 4.
Definition PROGRAM : Z := 8.

Definition cmpStr (a b : string) : Z :=
  if decide (a = b) then 0 else if str_lt a b then -1 else 1.

Module Term.

Record t := mk { name : string; flags : Z; tag : option string }.

#[global] Instance eq_dec : EqDecision t.
Proof. solve_decision. Defined.

Definition terminal (x : t) : bool := bool_decide (Z.land (flags x) TERMINAL > 0).
Definition eof (x : t) : bool := bool_decide (Z.land (flags x) EOF > 0).
Definition error (x : t) : bool := bool_decide (Z.land (flags x) ERROR > 0).
Definition program (x : t) : bool := bool_decide (Z.land (flags x) PROGRAM > 0).

Definition cmp (this other : t) : Z :=
  if decide (this = other) then 0
  else (if str_lt (name this) (name other) then -1 else 1) ||| (flags this - flags other).

End Term.

Inductive Associativity := left | right.

#[global] Instance Associativity_eq_dec : EqDecision Associativity.
Proof. solve_decision. Defined.

(** [this.associativity || ""] *)
Definition assoc_str (a : option Associativity) : string :=
  match a with Some left => "left" | Some right => "right" | None => "" end.

Module Precedence.

Record t := mk { associativity : option Associativity; group : string; precedence : Z }.

#[global] Instance eq_dec : EqDecision t.
Proof. solve_decision. Defined.

Definition cmp (this other : t) : Z :=
  cmpStr (assoc_str (associativity this)) (assoc_str (associativity other))
  ||| cmpStr (group this) (group other)
  ||| (precedence this - precedence other).

Definition eq (this other : t) : bool :=
  bool_decide (associativity this = associativity other) &&
  bool_decide (group this = group other) &&
  bool_decide (precedence this = precedence other).

End Precedence.

Module Rule.

(** An entry of [precedence] may be missing ([undefined]): [None]. *)
Record t := mk {
  name : Term.t;
  parts : list Term.t;
  precedence : list (option (list Precedence.t)) }.

#[global] Instance eq_dec : EqDecision t.
Proof. solve_decision. Defined.

(** [this.parts.reduce((r, s, i) => r || s.cmp(rule.parts[i]), 0)]; it is
    reached only when both rules have the same number of parts. *)
Definition cmpParts (a b : list Term.t) : Z :=
  fold_left (fun r '(s, o) => r ||| Term.cmp s o) (zip a b) 0.

Definition cmp (this rule : t) : Z :=
  Term.cmp (name this) (name rule)
  ||| (Z.of_nat (length (parts this)) - Z.of_nat (length (parts rule)))
  ||| cmpParts (parts this) (parts rule)
  ||| (Z.of_nat (length (precedence this)) - Z.of_nat (length (precedence rule))).

Definition precAt (this : t) (pos : nat) : list Precedence.t :=
  if decide (length (precedence this) ≤ pos)%nat then []
  else default [] (mjoin (precedence this !! pos)).

Definition rulePrec (this : t) : list Precedence.t :=
  fold_left (fun result value =>
    match value with
    | Some value =>
        fold_left (fun result prec =>
          if existsb (fun p => Precedence.eq prec p) result then result
          else result ++ [prec]) value result
    | None => result
    end) (precedence this) [].

End Rule.

Module TermSet.

Record t := mk {
  nonTerminals : list Term.t;
  terminals : list Term.t;
  eof : Term.t;
  error : Term.t }.

(** [new TermSet] *)
Definition new : t :=
  let eof := Term.mk "␄" (Z.lor TERMINAL EOF) None in
  let error := Term.mk "⚠" (Z.lor TERMINAL ERROR) (Some "⚠") in
  mk [] [eof; error] eof error.

(** The updated set and the new term. *)
Definition makeTerminal (this : t) (name : string) (tag : option string) : t * Term.t :=
  let result := Term.mk name TERMINAL tag in
  (mk (nonTerminals this) (terminals this ++ [result]) (eof this) (error this), result).

Definition makeNonTerminal (this : t) (name : string) (tag : option string) : t * Term.t :=
  let result := Term.mk name (if decide (name = "program") then PROGRAM else 0) tag in
  (mk (nonTerminals this ++ [result]) (terminals this) (eof this) (error this), result).

End TermSet.

End Grammar.

(** * automaton.ts *)

Module Automaton.
Import Grammar.

(** The FIRST table: [{[name: string]: Term[]}], where an entry [null]
    of an array (the ε marker) is [None]. *)
Abbreviation FirstTable := (gmap string (list (option Term.t))).

Fixpoint cmpSet_loop {T} (cmp : T → T → Z) (ab : list (T * T)) : Z :=
  match ab with
  | [] => 0
  | (x, y) :: ab' =>
      let diff := cmp x y in
      if decide (diff = 0) then cmpSet_loop cmp ab' else diff
  end.

Definition cmpSet {T} (a b : list T) (cmp : T → T → Z) : Z :=
  if decide (length a = length b) then cmpSet_loop cmp (zip a b)
  else Z.of_nat (length a) - Z.of_nat (length b).

Module Pos.

Record t := mk {
  rule : Rule.t;
  pos : nat;
  ahead : Term.t;
  prec : list Precedence.t }.

#[global] Instance eq_dec : EqDecision t.
Proof. solve_decision. Defined.

(** [null] is [None]. *)
Definition next (this : t) : option Term.t := Rule.parts (rule this) !! pos this.

Definition advance (this : t) : t :=
  mk (rule this) (pos this + 1) (ahead this) (prec this).

Definition cmpSimple (this other : t) : Z :=
  Rule.cmp (rule this) (rule other) ||| (Z.of_nat (pos this) - Z.of_nat (pos other)).

Definition cmp (this other : t) : Z :=
  cmpSimple this other
  ||| Term.cmp (ahead this) (ahead other)
  ||| cmpSet (prec this) (prec other) Precedence.cmp.

Definition dot : string := "·".

Definition join (sep : string) (l : list string) : string := String.concat sep l.

Definition toString (this : t) : string :=
  let parts := Term.name <$> Rule.parts (rule this) in
  let parts := take (pos this) parts ++ dot :: drop (pos this) parts in
  (Term.name (Rule.name (rule this)) +:+ " -> " +:+ join " " parts +:+ " ["
   +:+ Term.name (ahead this) +:+ "]")%string.

(** One turn of the inner loop of [termsAhead]: [cont] is set by a [null]. *)
Definition termsAhead_inner (src : list (option Term.t)) (found : list Term.t)
  : list Term.t * bool :=
  fold_left (fun '(found, cont) term =>
    match term with
    | None => (found, true)
    | Some term => (add term found, cont)
    end) src (found, false).

Fixpoint termsAhead_loop (first : FirstTable) (rest : list Term.t) (ahead : Term.t)
  (found : list Term.t) : res (list Term.t) :=
  match rest with
  | [] => Ok (add ahead found)
  | next :: rest' =>
      let* src := (if Term.terminal next then Ok [Some next]
             else must (first !! Term.name next)) in
      let '(found, cont) := termsAhead_inner src found in
      if cont then termsAhead_loop first rest' ahead found else Ok found
  end.

Definition termsAhead (this : t) (first : FirstTable) : res (list Term.t) :=
  termsAhead_loop first (drop (pos this + 1) (Rule.parts (rule this))) (ahead this) [].

End Pos.

Definition advance (set : list Pos.t) (expr : Term.t) : list Pos.t :=
  Pos.advance <$> filter (fun pos => Pos.next pos = Some expr) set.

Definition advanceWithPrec (set : list Pos.t) (expr : Term.t)
  : list Pos.t * list Precedence.t :=
  fold_left (fun '(result, prec) pos =>
    if decide (Pos.next pos = Some expr) then
      let prec := fold_left (fun prec p =>
        if existsb (fun x => Precedence.eq x p) prec then prec else prec ++ [p])
        (Rule.precAt (Pos.rule pos) (Pos.pos pos)) prec in
      (result ++ [Pos.advance pos], prec)
    else (result, prec)) set ([], []).

(** An action.  The target of a [Shift] is a [State] object; all targets of
    the actions of one table belong to one array of states, in which a state
    is identified by its [id].  [None] is a target that is [undefined]. *)
Inductive Action :=
| Shift (term : Term.t) (target : option nat)
| Reduce (term : Term.t) (rule : Rule.t).

#[global] Instance Action_eq_dec : EqDecision Action.
Proof. solve_decision. Defined.

Module Action.

Definition term (a : Action) : Term.t :=
  match a with Shift term _ => term | Reduce term _ => term end.

Definition isShift (a : Action) : bool :=
  match a with Shift _ _ => true | Reduce _ _ => false end.

(** [this.eq(other)] *)
Definition eq (this other : Action) : bool :=
  match this, other with
  | Shift _ target, Shift _ target' => bool_decide (target' = target)
  | Reduce _ rule, Reduce _ rule' => bool_decide (rule' = rule)
  | _, _ => false
  end.

(** [this.map(mapping, states)]: [states[mapping[this.target.id]]], where
    [states[k]] has id [k]. *)
Definition map (this : Action) (mapping : list nat) (nstates : nat) : Action :=
  match this with
  | Shift term target =>
      Shift term (id ← target; k ← mapping !! id;
                  if decide (k < nstates)%nat then Some k else None)
  | Reduce _ _ => this
  end.

End Action.

(** The verdict of the loop over [prec] in [addAction] for one existing
    action. *)
Inductive verdict :=
| Intentional     (* [continue check] on a negative level: both are kept *)
| Override        (* the existing action is spliced out, [continue check] *)
| Keep            (* [return true]: the new action is dropped *)
| Unresolved.     (* the loop ended without a decision *)

Fixpoint resolve (action : Action) (prev prec : list Precedence.t) : verdict :=
  match prec with
  | [] => Unresolved
  | p :: prec' =>
      match List.find (fun x => bool_decide (Precedence.group x = Precedence.group p)) prev with
      | None => resolve action prev prec'
      | Some match_ =>
          if decide (Precedence.precedence p < 0) then Intentional
          else
            let override := Precedence.precedence match_ - Precedence.precedence p in
            let override :=
              match Precedence.associativity p with
              | Some a =>
                  if bool_decide (override = 0) && Action.isShift action
                  then (if decide (a = left) then 1 else -1)
                  else override
              | None => override
              end in
            if decide (override > 0) then Override
            else if decide (override < 0) then Keep
            else resolve action prev prec'
      end
  end.

Module State.

(** [terminals] and [terminalPrec] are parallel arrays. *)
Record t := mk {
  id : nat;
  set : list Pos.t;
  terminals : list Action;
  terminalPrec : list (list Precedence.t);
  goto : list Action;
  ambiguous : bool }.

#[global] Instance eq_dec : EqDecision t.
Proof. solve_decision. Defined.

(** [new State(id, set)] *)
Definition new (id : nat) (set : list Pos.t) : t := mk id set [] [] [] false.

Definition conflictMessage (action : Action) (pos : Pos.t) : string :=
  ((if Action.isShift action then "shift" else "reduce") +:+ "/reduce conflict at "
   +:+ Pos.toString pos +:+ " for " +:+ Term.name (Action.term action))%string.

(** The loop labelled [check].  [doneT], [doneP] are the entries before
    index [i], [restT], [restP] the entries from [i] on; a splice at [i]
    followed by [i--] leaves [i] on the next entry.  The state is returned
    with the outcome since it is updated in place, also when the call
    throws. *)
Fixpoint addAction_check (this : t) (doneT : list Action) (doneP : list (list Precedence.t))
  (restT : list Action) (restP : list (list Precedence.t)) (amb : bool)
  (value : Action) (prec : list Precedence.t) (pos : option Pos.t) : t * res bool :=
  let finish (amb : bool) (r : res bool) :=
    (mk (id this) (set this) (doneT ++ restT) (doneP ++ restP) (goto this) amb, r) in
  match restT with
  | [] =>
      (mk (id this) (set this) (doneT ++ [value]) (doneP ++ restP ++ [prec]) (goto this) amb,
       Ok true)
  | action :: restT' =>
      let restP' := tail restP in
      if decide (Action.term action = Action.term value) then
        if Action.eq action value then finish amb (Ok true)
        else
          match prec, head restP with
          | _ :: _, None => finish true (Err TypeError)
          | _, prev =>
              match resolve action (default [] prev) prec with
              | Intentional =>
                  addAction_check this (doneT ++ [action]) (doneP ++ take 1 restP)
                    restT' restP' true value prec pos
              | Override =>
                  addAction_check this doneT doneP restT' restP' true value prec pos
              | Keep => finish true (Ok true)
              | Unresolved =>
                  match pos with
                  | None => finish true (Ok false)
                  | Some pos => finish true (Err (Thrown (conflictMessage action pos)))
                  end
              end
          end
      else
        addAction_check this (doneT ++ [action]) (doneP ++ take 1 restP)
          restT' restP' amb value prec pos
  end.

Definition addAction (this : t) (value : Action) (prec : list Precedence.t)
  (pos : option Pos.t) : t * res bool :=
  addAction_check this [] [] (terminals this) (terminalPrec this) (ambiguous this)
    value prec pos.

Definition getGoto (this : t) (term : Term.t) : option Action :=
  List.find (fun a => bool_decide (Action.term a = term)) (goto this).

End State.

(** [for (let x of l) acc = f(acc, x)] with a body that may throw. *)
Fixpoint foldlM {A B} (f : B → A → res B) (l : list A) (b : B) : res B :=
  match l with
  | [] => Ok b
  | x :: l' => let* b' := f b x in foldlM f l' b'
  end.

(** The two inner loops of [closure] for the item [pos] of the work list. *)
Definition closure_push (result : list Pos.t) (rule : Rule.t) (a : Term.t)
  (nextPrec : list Precedence.t) : list Pos.t :=
  if existsb (fun p => bool_decide (Pos.rule p = rule) && bool_decide (Pos.pos p = 0%nat)
                       && bool_decide (Pos.ahead p = a)) result
  then result
  else result ++ [Pos.mk rule 0 a nextPrec].

Definition closure_expand (rules : list Rule.t) (next : Term.t)
  (nextPrec : list Precedence.t) (ahead : list Term.t) (result : list Pos.t) : list Pos.t :=
  fold_left (fun result rule =>
    if decide (Rule.name rule = next)
    then fold_left (fun result a => closure_push result rule a nextPrec) ahead result
    else result) rules result.

(** The body of [for (let pos of result)] at index [i]. *)
Definition closure_step (rules : list Rule.t) (first : FirstTable) (pos : Pos.t)
  (result : list Pos.t) : res (list Pos.t) :=
  match Pos.next pos with
  | None => Ok result
  | Some next =>
      if Term.terminal next then Ok result
      else
        let nextPrec := Rule.precAt (Pos.rule pos) (Pos.pos pos) in
        let* ahead := Pos.termsAhead pos first in
        Ok (closure_expand rules next nextPrec ahead result)
  end.

(** The iteration over [result] sees the items pushed while it runs. *)
Fixpoint closure_loop (fuel : nat) (rules : list Rule.t) (first : FirstTable)
  (i : nat) (result : list Pos.t) : res (list Pos.t) :=
  match result !! i with
  | None => Ok result
  | Some pos =>
      match fuel with
      | O => Err OutOfFuel
      | S fuel =>
          let* result := closure_step rules first pos result in
          closure_loop fuel rules first (i + 1) result
      end
  end.

Definition closure (fuel : nat) (set : list Pos.t) (rules : list Rule.t)
  (first : FirstTable) : res (list Pos.t) :=
  let* result := closure_loop fuel rules first 0 set in
  Ok (sort Pos.cmp result).

(** ** FIRST sets *)

(** The loop over [table[part.name]]; [found] starts at [true]. *)
Definition computeFirst_inner (src set : list (option Term.t))
  : list (option Term.t) * bool :=
  fold_left (fun '(set, found) t =>
    match t with
    | None => (set, false)
    | Some t => (add (Some t) set, found)
    end) src (set, true).

(** The loop over [rule.parts].  [set] is the array [table[name]]; it is
    updated in place, so the table is threaded through the loop. *)
Fixpoint computeFirst_parts (name : string) (parts : list Term.t) (table : FirstTable)
  : res (FirstTable * bool) :=
  match parts with
  | [] => Ok (table, false)
  | part :: parts' =>
      let* set := must (table !! name) in
      let* (set, found) :=
        (if Term.terminal part then Ok (add (Some part) set, true)
         else let* src := must (table !! Term.name part) in
              Ok (computeFirst_inner src set)) in
      let table : FirstTable := <[name := set]> table in
      if found then Ok (table, true) else computeFirst_parts name parts' table
  end.

(** The body of [for (let rule of rules)]; returns the table and whether
    the set of the rule grew. *)
Definition computeFirst_rule (rule : Rule.t) (table : FirstTable)
  : res (FirstTable * bool) :=
  let name := Term.name (Rule.name rule) in
  let* set := must (table !! name) in
  let startLen := length set in
  let* (table, found) := computeFirst_parts name (Rule.parts rule) table in
  let* set := must (table !! name) in
  let set := if found then set else add None set in
  Ok (<[name := set]> table : FirstTable, bool_decide (startLen < length set)%nat).

Definition computeFirst_pass (rules : list Rule.t) (table : FirstTable)
  : res (FirstTable * bool) :=
  foldlM (fun '(table, change) rule =>
    let* (table, grew) := computeFirst_rule rule table in
    Ok (table, if grew then true else change)) rules (table, false).

Fixpoint computeFirst_loop (fuel : nat) (rules : list Rule.t) (table : FirstTable)
  : res FirstTable :=
  match fuel with
  | O => Err OutOfFuel
  | S fuel =>
      let* (table, change) := computeFirst_pass rules table in
      if change then computeFirst_loop fuel rules table else Ok table
  end.

Definition computeFirst (fuel : nat) (rules : list Rule.t) (nonTerminals : list Term.t)
  : res FirstTable :=
  let table : FirstTable :=
    fold_left (fun table t => <[Term.name t := []]> table) nonTerminals ∅ in
  computeFirst_loop fuel rules table.

(** ** The full LR(1) automaton *)

(** [states[id]] is the state under construction; its fields are updated in
    place while the array grows. *)
Definition addAction_at (states : list State.t) (id : nat) (value : Action)
  (prec : list Precedence.t) (pos : option Pos.t) : res (list State.t) :=
  let* state := must (states !! id) in
  let '(state, r) := State.addAction state value prec pos in
  let* _ := r in
  Ok (<[id := state]> states).

Definition pushGoto_at (states : list State.t) (id : nat) (value : Action)
  : res (list State.t) :=
  let* state := must (states !! id) in
  Ok (<[id := State.mk (State.id state) (State.set state) (State.terminals state)
                 (State.terminalPrec state) (State.goto state ++ [value])
                 (State.ambiguous state)]> states).

(** [explore] of [buildFullAutomaton]; the array [states] of the enclosing
    function is passed along.  The result is the id of the state, or [None]
    for [null]. *)
Fixpoint explore (fuel : nat) (rules : list Rule.t) (terms : TermSet.t)
  (first : FirstTable) (states : list State.t) (set : list Pos.t)
  : res (list State.t * option nat) :=
  match fuel with
  | O => Err OutOfFuel
  | S fuel =>
      if decide (length set = 0)%nat then Ok (states, None)
      else
        let* set := closure (S fuel) set rules first in
        match List.find (fun s => bool_decide (cmpSet (State.set s) set Pos.cmp = 0)) states with
        | Some state => Ok (states, Some (State.id state))
        | None =>
            let id := length states in
            let states := states ++ [State.new id set] in
            let* states :=
              foldlM (fun states term =>
                if decide (term = TermSet.eof terms) then Ok states
                else
                  let '(newSet, prec) := advanceWithPrec set term in
                  let* (states, shift) := explore fuel rules terms first states newSet in
                  match shift with
                  | Some shift => addAction_at states id (Shift term (Some shift)) prec None
                  | None => Ok states
                  end) (TermSet.terminals terms) states in
            let* states :=
              foldlM (fun states nt =>
                let* (states, goto) := explore fuel rules terms first states (advance set nt) in
                match goto with
                | Some goto => pushGoto_at states id (Shift nt (Some goto))
                | None => Ok states
                end) (TermSet.nonTerminals terms) states in
            let* states :=
              foldlM (fun states pos =>
                match Pos.next pos with
                | None =>
                    addAction_at states id (Reduce (Pos.ahead pos) (Pos.rule pos))
                      (Rule.rulePrec (Pos.rule pos)) (Some pos)
                | Some _ => Ok states
                end) set states in
            Ok (states, Some id)
        end
  end.

Definition buildFullAutomaton (fuel : nat) (rules : list Rule.t) (terms : TermSet.t)
  : res (list State.t) :=
  let* first := computeFirst fuel rules (TermSet.nonTerminals terms) in
  let start :=
    (fun rule => Pos.mk rule 0 (TermSet.eof terms) []) <$>
    filter (fun rule => Term.name (Rule.name rule) = "program") rules in
  let* (states, _) := explore fuel rules terms first [] start in
  Ok states.

(** ** Collapsing to an LALR-like automaton *)

Fixpoint mergeState_terminals (mapping : list nat) (nstates : nat)
  (terminals : list Action) (terminalPrec : list (list Precedence.t))
  (target : State.t) : res (State.t * bool) :=
  match terminals with
  | [] => Ok (target, true)
  | action :: terminals' =>
      let* prec := must (head terminalPrec) in
      let '(target, r) := State.addAction target (Action.map action mapping nstates) prec None in
      let* ok := r in
      if ok then mergeState_terminals mapping nstates terminals' (tail terminalPrec) target
      else Ok (target, false)
  end.

Definition mergeState_goto (mapping : list nat) (nstates : nat) (gotos : list Action)
  (target : State.t) : State.t :=
  fold_left (fun target goto =>
    match State.getGoto target (Action.term goto) with
    | Some _ => target
    | None =>
        State.mk (State.id target) (State.set target) (State.terminals target)
          (State.terminalPrec target)
          (State.goto target ++ [Action.map goto mapping nstates]) (State.ambiguous target)
    end) gotos target.

(** [mergeState(mapping, newStates, state, target)]: the updated [target]
    and the returned boolean. *)
Definition mergeState (mapping : list nat) (nstates : nat) (state target : State.t)
  : res (State.t * bool) :=
  let* (target, ok) :=
    mergeState_terminals mapping nstates (State.terminals state) (State.terminalPrec state)
      target in
  if ok then Ok (mergeState_goto mapping nstates (State.goto state) target, true)
  else Ok (target, false).

Definition markConflicts (mapping : list nat) (newID : nat) (oldStates : list State.t)
  (nstates : nat) (conflicts : list nat) : res (list nat) :=
  let indices := seq 0 (length mapping) in
  foldlM (fun conflicts i =>
    if decide (mapping !! i = Some newID) then
      foldlM (fun conflicts j =>
        if decide (j ≠ i ∧ mapping !! j = Some newID) then
          let state := State.new 0 [] in
          let* old_i := must (oldStates !! i) in
          let* (state, _) := mergeState mapping nstates old_i state in
          let* old_j := must (oldStates !! j) in
          let* (_, ok) := mergeState mapping nstates old_j state in
          Ok (if ok then conflicts else conflicts ++ [i; j])
        else Ok conflicts) indices conflicts
    else Ok conflicts) indices conflicts.

Definition hasConflict (id newID : nat) (mapping conflicts : list nat) : bool :=
  existsb (fun i =>
    bool_decide (conflicts !! i = Some id) &&
    let other := conflicts !! (if Nat.odd i then i - 1 else i + 1)%nat in
    bool_decide (other ≫= (fun other => mapping !! other) = Some newID))
    (seq 0 (length conflicts)).

Fixpoint findIndex_from {A} (f : A → nat → bool) (l : list A) (index : nat) : option nat :=
  match l with
  | [] => None
  | x :: l' => if f x index then Some index else findIndex_from f l' (S index)
  end.

(** [array.findIndex(f)]; [None] is [-1]. *)
Definition findIndex {A} (f : A → nat → bool) (l : list A) : option nat :=
  findIndex_from f l 0.

(** The core of a state: its items without repetition of (rule, dot). *)
Definition core (set : list Pos.t) : list Pos.t :=
  fold_left (fun set pos =>
    if existsb (fun p => bool_decide (Pos.cmpSimple p pos = 0)) set then set
    else set ++ [pos]) set [].

(** The first loop of one round: the new states and the mapping from old
    to new ids. *)
Definition collapse_partition (states : list State.t) (conflicts : list nat)
  : list State.t * list nat :=
  fold_left (fun '(newStates, mapping) '(i, state) =>
    let set := core (State.set state) in
    match findIndex (fun s index =>
            bool_decide (cmpSet (State.set s) set Pos.cmpSimple = 0) &&
            negb (hasConflict i index mapping conflicts)) newStates with
    | Some newID => (newStates, mapping ++ [newID])
    | None =>
        let newID := length newStates in
        (newStates ++ [State.new newID set], mapping ++ [newID])
    end) (imap (fun i state => (i, state)) states) ([], []).

(** The second loop: the merged states, the ids known to conflict, and the
    recorded conflicts. *)
Definition collapse_merge (states : list State.t) (mapping : list nat)
  (newStates : list State.t) (conflicts : list nat)
  : res (list State.t * list nat * list nat) :=
  let nstates := length newStates in
  foldlM (fun '(newStates, conflicting, conflicts) i =>
    let* newID := must (mapping !! i) in
    if decide (newID ∈ conflicting) then Ok (newStates, conflicting, conflicts)
    else
      let* state := must (states !! i) in
      let* target := must (newStates !! newID) in
      let* (target, ok) := mergeState mapping nstates state target in
      let newStates := <[newID := target]> newStates in
      if ok then Ok (newStates, conflicting, conflicts)
      else
        let* conflicts := markConflicts mapping newID states nstates conflicts in
        Ok (newStates, conflicting ++ [newID], conflicts))
    (seq 0 (length states)) (newStates, [], conflicts).

(** One round of the [for (;;)] loop: either the collapsed automaton, or
    the conflicts to restart with. *)
Definition collapse_round (states : list State.t) (conflicts : list nat)
  : res (list State.t + list nat) :=
  let '(newStates, mapping) := collapse_partition states conflicts in
  let* (newStates, conflicting, conflicts) :=
    collapse_merge states mapping newStates conflicts in
  if decide (length conflicting = 0)%nat then Ok (inl newStates) else Ok (inr conflicts).

Fixpoint collapse_loop (fuel : nat) (states : list State.t) (conflicts : list nat)
  : res (list State.t) :=
  match fuel with
  | O => Err OutOfFuel
  | S fuel =>
      let* r := collapse_round states conflicts in
      match r with
      | inl newStates => Ok newStates
      | inr conflicts => collapse_loop fuel states conflicts
      end
  end.

Definition collapseAutomaton (fuel : nat) (states : list State.t) : res (list State.t) :=
  collapse_loop fuel states [].

Definition buildAutomaton (fuel : nat) (rules : list Rule.t) (terms : TermSet.t)
  : res (list State.t) :=
  let* states := buildFullAutomaton fuel rules terms in
  collapseAutomaton fuel states.

End Automaton.

(** * build.ts *)

Module Build.

(** ** The data that build.ts reads

    build.ts is written against later versions of grammar.ts and
    automaton.ts than the ones above; the records below have the members
    that the modelled functions read. *)

Module Term.

(** Modelled from the spec: the class [Term] of the grammar.ts that
    build.ts imports (a symbol with a unique [name], a numeric [id], a [tag],
    the [top] flag).  The getter [interesting] ("tagged") is an attribute. *)
Record t := mk {
  name : string;
  id : Z;
  tag : option string;
  top : bool;
  interesting : bool }.

#[global] Instance eq_dec : EqDecision t.
Proof. solve_decision. Defined.

End Term.

(** Modelled from the spec: [Conflicts], built in build.ts by
    [new Conflicts(precedence, ambigGroups, cut)]. *)
Record Conflicts := mkConflicts {
  conflicts_precedence : Z;
  ambigGroups : list string;
  cut : Z }.

#[global] Instance Conflicts_eq_dec : EqDecision Conflicts.
Proof. solve_decision. Defined.

Module Rule.

(** Modelled from the spec: [Rule], built in build.ts by
    [new Rule(name, parts, conflicts, skip)]; [isRepeatLeaf] is a getter of
    the missing class and is an attribute here. *)
Record t := mk {
  name : Term.t;
  parts : list Term.t;
  conflicts : list Conflicts;
  skip : Term.t;
  isRepeatLeaf : bool }.

#[global] Instance eq_dec : EqDecision t.
Proof. solve_decision. Defined.

End Rule.

Module Pos.

(** Modelled from the spec: the members of [Pos] (an LR item) that
    [finishState] reads. *)
Record t := mk { rule : Rule.t; pos : nat }.

#[global] Instance eq_dec : EqDecision t.
Proof. solve_decision. Defined.

End Pos.

Module LRState.

(** Modelled from the spec: the members of the automaton state that the
    computation of the forced reduction reads. *)
Record t := mk { id : nat; set : list Pos.t; partOfSkip : option Term.t }.

End LRState.

(** ** Inlining: the selection loop of one pass of [inlineRules] *)

(** The condition of the [if] at index [i], for the dictionary [inlinable]
    filled so far. *)
Definition inlinable_test (rules : list Rule.t) (preserve : list Term.t)
  (inlinable : gmap string Rule.t) (i : nat) (rule : Rule.t) : bool :=
  negb (Term.interesting (Rule.name rule)) &&
  negb (bool_decide (Rule.name rule ∈ Rule.parts rule)) &&
  bool_decide (length (Rule.parts rule) < 3)%nat &&
  negb (bool_decide (Rule.name rule ∈ preserve)) &&
  (bool_decide (length (Rule.parts rule) = 1%nat) ||
   forallb (fun other =>
     bool_decide (Rule.skip other = Rule.skip rule) ||
     negb (bool_decide (Rule.name rule ∈ Rule.parts other))) rules) &&
  negb (existsb (fun p => bool_decide (is_Some (inlinable !! Term.name p))) (Rule.parts rule)) &&
  negb (existsb (fun '(j, r) => bool_decide (j ≠ i) && bool_decide (Rule.name r = Rule.name rule))
          (imap pair rules)).

(** The loop over the indices below [n]: the dictionary and [found]. *)
Definition inlineRules_scan (rules : list Rule.t) (preserve : list Term.t) (n : nat)
  : gmap string Rule.t * option Rule.t :=
  fold_left (fun '(inlinable, found) '(i, rule) =>
    if inlinable_test rules preserve inlinable i rule
    then (<[Term.name (Rule.name rule) := rule]> inlinable, Some rule)
    else (inlinable, found)) (take n (imap pair rules)) (∅, None).

(** The whole selection loop of a pass. *)
Definition inlineRules_select (rules : list Rule.t) (preserve : list Term.t)
  : gmap string Rule.t * option Rule.t :=
  inlineRules_scan rules preserve (length rules).

(** The rule at index [i] is selected: the assignment
    [found = inlinable[rule.name.name] = rule] is executed for it. *)
Definition selected (rules : list Rule.t) (preserve : list Term.t) (i : nat) : bool :=
  match rules !! i with
  | Some rule => inlinable_test rules preserve (inlineRules_scan rules preserve i).1 i rule
  | None => false
  end.

(** ** The forced reduction of [Builder.finishState] *)

Section Constants.

(** The members of [Action] of lezer/src/constants that [reduceAction]
    uses; the package is not part of the repository. *)
Variables ReduceFlag RepeatFlag StayFlag ReduceDepthShift : Z.

(** [a << b] on 32-bit integers, before the truncation of the result. *)
Definition shl (a b : Z) : Z := Z.shiftl a (Z.land b 31).








End Constants.

(** ** [TokenSet.tokenizer] *)

(** Modelled from the spec: the members of a rule declaration of node.ts
    that [tokenizer] reads, [id.name] and [start]. *)
Record RuleDeclaration := mkRuleDeclaration { rule_id_name : string; rule_start : Z }.

Section Tokenizer.

(** token.ts is not part of the sources: a tokenizer state with its
    [compile] and [toArray] methods and the [accepting] terms of a compiled
    state are parameters. *)
Variable TokState : Type.
Variable compile : TokState → TokState.
Variable accepting : TokState → list Term.t.
Variable toArray : TokState → gmap Z Z → list Z → list Z.

(** The position text that [Input.message] builds from the file name and
    [lineInfo(pos)]. *)
Variable posInfo : Z → string.

(** [Input.message(msg, pos)] *)
Definition message (msg : string) (pos : Z) : string :=
  if decide (posInfo pos = "") then msg else (msg +:+ " (" +:+ posInfo pos +:+ ")")%string.

(** [Input.raise(msg, pos)] throws a [SyntaxError] with that message. *)
Definition raise {A} (msg : string) (pos : Z) : res A := Err (Thrown (message msg pos)).

Definition zeroLengthMessage (name : string) : string :=
  ("Grammar contains zero-length tokens (in '" +:+ name +:+ "')")%string.

(** [tokenizer(tokenMasks, precedence)] for the token rules [rules] and the
    start state [startState] of the token set.  The arguments of [raise]
    are evaluated before the call: [find(...)!.start] throws a [TypeError]
    when no rule has the name. *)
Definition tokenizer (rules : list RuleDeclaration) (startState : TokState)
  (tokenMasks : gmap Z Z) (precedence : list Z) : res (list Z) :=
  let startState := compile startState in
  let* _ :=
    match accepting startState with
    | first :: _ =>
        let msg := zeroLengthMessage (Term.name first) in
        let* rule := must (List.find (fun r => bool_decide (rule_id_name r = Term.name first)) rules) in
        raise msg (rule_start rule)
    | [] => Ok tt
    end in
  Ok (toArray startState tokenMasks precedence).

End Tokenizer.

(** ** Character sets *)

Definition MAX_CODE : Z := 0x10ffff.

Definition invertRanges (ranges : list (Z * Z)) : list (Z * Z) :=
  let '(pos, result) :=
    fold_left (fun '(pos, result) '(a, b) =>
      (b, if decide (a > pos) then result ++ [(pos, a)] else result))
      ranges (0, []) in
  if decide (pos ≤ MAX_CODE) then result ++ [(pos, MAX_CODE + 1)] else result.

(** [addRange(input, ranges, from, to)] of parse.ts. *)
Definition addRange (ranges : list (Z * Z)) (from to : Z) : res (list (Z * Z)) :=
  if forallb (fun '(a, b) => bool_decide (b ≤ from) || bool_decide (to ≤ a)) ranges
  then Ok (ranges ++ [(from, to)])
  else Err (Thrown "Overlapping character range").

(** The ranges of a set expression in [parseExprInner]: the loop calls
    [addRange] for each character or range of the set, given here by the
    pairs [(from, to)] that it passes, and the result is sorted by start. *)
Fixpoint addRanges (items : list (Z * Z)) (ranges : list (Z * Z)) : res (list (Z * Z)) :=
  match items with
  | [] => Ok ranges
  | (from, to) :: items' =>
      let* ranges := addRange ranges from to in
      addRanges items' ranges
  end.

Definition setRanges (items : list (Z * Z)) : res (list (Z * Z)) :=
  let* ranges := addRanges items [] in
  Ok (sort (fun a b => a.1 - b.1) ranges).

(** ** Stored arrays: [findArray] and [DataBuilder] *)

(** [data.indexOf(x, i)], where [x] may be [undefined] ([None]), which no
    element of an array of numbers equals.  [None] is [-1]. *)
Definition indexOf (data : list Z) (x : option Z) (i : nat) : option nat :=
  match x with
  | None => None
  | Some x => (fun found => (i + found.1)%nat) <$> list_find (fun y => y = x) (drop i data)
  end.

(** The loop over [j]: no [value[j]] differs from [data[next + j]]. *)
Definition matchesAt (data value : list Z) (next : nat) : bool :=
  forallb (fun j => bool_decide (value !! j = data !! (next + j)%nat))
    (seq 1 (length value - 1)).

(** The loop labelled [search]; [i] grows in every turn. *)
Fixpoint findArray_loop (fuel : nat) (data value : list Z) (i : nat) : res (option nat) :=
  match fuel with
  | O => Err OutOfFuel
  | S fuel =>
      match indexOf data (value !! 0%nat) i with
      | None => Ok None
      | Some next =>
          if decide (length data < next + length value)%nat then Ok None
          else if matchesAt data value next then Ok (Some next)
          else findArray_loop fuel data value (next + 1)
      end
  end.

(** [findArray(data, value)]; [None] is [-1]. *)
Definition findArray (data value : list Z) : res (option nat) :=
  findArray_loop (S (length data)) data value 0.

Module DataBuilder.

(** [storeArray(data)]: the array [this.data] after the call and the
    returned offset. *)
Definition storeArray (this : list Z) (data : list Z) : res (list Z * nat) :=
  let* found := findArray this data in
  match found with
  | Some found => Ok (this, found)
  | None => Ok (this ++ data, length this)
  end.

(** [finish()]: the elements of a [Uint16Array] are taken modulo 2^16. *)
Definition finish (this : list Z) : list Z := (fun n => n mod 2 ^ 16) <$> this.

End DataBuilder.

(** ** Token masks *)

(** The value of a number as a signed 32-bit integer, the result type of
    the bitwise operators. *)
Definition toInt32 (z : Z) : Z := (z + 2 ^ 31) mod 2 ^ 32 - 2 ^ 31.

Record TokenGroup := mkTokenGroup { tokens : list Term.t; group_id : Z }.

(** [buildTokenMasks(groups)]; a missing entry of the result is
    [undefined]. *)
Definition buildTokenMasks (groups : list TokenGroup) : gmap Z Z :=
  fold_left (fun masks group =>
    let groupMask := toInt32 (shl 1 (group_id group)) in
    fold_left (fun masks term =>
      <[Term.id term := Z.lor (toInt32 (default 0 (masks !! Term.id term) ||| 0)) groupMask]> masks)
      (tokens group) masks) groups ∅.

(** ** The goto table *)

(** The members of an [LRState] that [computeGotoTable] reads: [state.id]
    and, for each entry of [state.goto], [entry.term.id] and
    [entry.target.id].  Ids are array indices. *)
Record GotoState := mkGotoState { gs_id : nat; gs_goto : list (nat * nat) }.

(** The object [goto]: for a term and a target state, the start states. *)
Abbreviation GotoMap := (gmap nat (gmap nat (list nat))).

(** The body of the loop over [state.goto]. *)
Definition addGoto (goto : GotoMap) (term target source : nat) : GotoMap :=
  let set := default ∅ (goto !! term) in
  <[term := <[target := default [] (set !! target) ++ [source]]> set]> goto.

Definition gotoEntries (states : list GotoState) : GotoMap * nat :=
  fold_left (fun acc state =>
    fold_left (fun '(goto, maxTerm) '(term, target) =>
      (addGoto goto term target (gs_id state), Nat.max term maxTerm))
      (gs_goto state) acc) states (∅, 0%nat).

(** [Object.keys(entries)]: keys that are array indices are enumerated in
    ascending order. *)
Definition objectKeys {A} (entries : gmap nat A) : list nat :=
  merge_sort Nat.le (map_to_list entries).*1.

(** The loop over [keys], where [lastKey] is [keys[keys.length - 1]]. *)
Fixpoint termRecords (entries : gmap nat (list nat)) (keys : list nat)
  (lastKey : option nat) : list Z :=
  match keys with
  | [] => []
  | target :: keys' =>
      let list := default [] (entries !! target) in
      ((if decide (Some target = lastKey) then 1 else 0)
       + toInt32 (shl (Z.of_nat (length list)) 1))
      :: Z.of_nat target :: (Z.of_nat <$> list) ++ termRecords entries keys' lastKey
  end.

Definition termTable (entries : gmap nat (list nat)) : list Z :=
  let keys := objectKeys entries in
  termRecords entries keys (last keys).

(** The body of the loop over [term]: the builder's array and [index]. *)
Definition gotoIndex_step (goto : GotoMap) (offset : nat) (acc : list Z * list Z)
  (term : nat) : res (list Z * list Z) :=
  let '(data, index) := acc in
  match goto !! term with
  | None => Ok (data, index ++ [1])
  | Some entries =>
      let* (data, pos) := DataBuilder.storeArray data (termTable entries) in
      Ok (data, index ++ [Z.of_nat pos + Z.of_nat offset])
  end.

(** [computeGotoTable(states)]: the elements of the [Uint16Array]. *)
Definition computeGotoTable (states : list GotoState) : res (list Z) :=
  let '(goto, maxTerm) := gotoEntries states in
  let offset := (maxTerm + 2)%nat in
  let* (data, index) :=
    Automaton.foldlM (gotoIndex_step goto offset) (seq 0 (S maxTerm)) ([], []) in
  if existsb (fun n => bool_decide (n > 0xffff)) index
  then Err (Thrown "Goto table too large")
  else Ok (DataBuilder.finish (Z.of_nat (maxTerm + 1) :: index ++ data)).

(** ** Character ranges as edges over UTF-16 units *)

Definition ASTRAL : Z := 0x10000.
Definition GAP_START : Z := 0xd800.
Definition GAP_END : Z := 0xe000.
Definition LOW_SURR_B : Z := 0xdc00.
Definition HIGH_SURR_B : Z := 0xdfff.

(** [String.fromCodePoint(c)] as read by [charCodeAt(0)] and
    [charCodeAt(1)]: the second unit is [NaN], here [None], when the string
    has one unit.  A number that is no code point raises a [RangeError]. *)
Definition fromCodePoint (c : Z) : res (Z * option Z) :=
  if decide (0 ≤ c ≤ MAX_CODE) then
    if decide (c < ASTRAL) then Ok (c, None)
    else Ok (0xd800 + Z.shiftr (c - ASTRAL) 10, Some (0xdc00 + Z.land (c - ASTRAL) 0x3ff))
  else Err (Thrown ("Invalid code point " +:+ pretty c)).

(** [a > b] and [a < b] for an [a] that may be [NaN]. *)
Definition num_gt (a : option Z) (b : Z) : bool :=
  match a with Some a => bool_decide (a > b) | None => false end.

Definition num_lt (a : option Z) (b : Z) : bool :=
  match a with Some a => bool_decide (a < b) | None => false end.

(** What a call of [rangeEdges(from, to, low, hi)] adds: an edge
    [from.edge(lo, hi, to)], or a new state [hop] with the edges
    [from.edge(lo, hi, hop)] and [hop.edge(lo2, hi2, to)]. *)
Inductive RangeEdge :=
| Direct (lo hi : Z)
| Hop (lo hi : Z) (lo2 hi2 : option Z).

Section RangeEdges.

(** [MAX_CHAR] is imported from token.ts, which is not part of the
    sources. *)
Variable MAX_CHAR : Z.

Definition rangeEdges (low hi : Z) : res (list RangeEdge) :=
  if decide (low < GAP_START ∧ hi = MAX_CODE + 1) then Ok [Direct low (MAX_CHAR + 1)]
  else
    let edges :=
      if decide (low < ASTRAL) then
        (if decide (low < GAP_START) then [Direct low (Z.min hi GAP_START)] else []) ++
        (if decide (hi > GAP_END)
         then [Direct (Z.max low GAP_END) (Z.min hi (MAX_CHAR + 1))] else [])
      else [] in
    let low := if decide (low < ASTRAL) then ASTRAL else low in
    if decide (hi < ASTRAL) then Ok edges
    else
      let* (lowA, lowB) := fromCodePoint low in
      let* (hiA, hiB) := fromCodePoint (hi - 1) in
      if decide (lowA = hiA)
      then Ok (edges ++ [Hop lowA (lowA + 1) lowB ((fun b => b + 1) <$> hiB)])
      else
        let lower := num_gt lowB LOW_SURR_B in
        let upper := num_lt hiB HIGH_SURR_B in
        let midStart := if lower then lowA + 1 else lowA in
        let midEnd := if upper then hiA - 1 else hiA in
        Ok (edges
            ++ (if lower then [Hop lowA (lowA + 1) lowB (Some (HIGH_SURR_B + 1))] else [])
            ++ (if upper
                then [Hop hiA (hiA + 1) (Some LOW_SURR_B) ((fun b => b + 1) <$> hiB)] else [])
            ++ (if decide (midStart ≤ midEnd)
                then [Hop midStart (midEnd + 1) (Some LOW_SURR_B) (Some (HIGH_SURR_B + 1))]
                else [])).

End RangeEdges.

(** ** Token precedences: [TokenSet.takePrecedences] *)

Record PrecRelation := mkPrecRelation { rel_term : Term.t; rel_after : list Term.t }.

#[global] Instance PrecRelation_eq_dec : EqDecision PrecRelation.
Proof. solve_decision. Defined.

(** The body of the loop over [i] for the known [terms] of one group. *)
Definition relate_term (terms : list Term.t) (rel : list PrecRelation) (i : nat)
  (term : Term.t) : list PrecRelation :=
  match list_find (fun r => rel_term r = term) rel with
  | None => rel ++ [mkPrecRelation term (take i terms)]
  | Some (k, found) =>
      <[k := mkPrecRelation (rel_term found)
               (fold_left (fun after t => add t after) (take i terms) (rel_after found))]> rel
  end.

Definition relate (rel : list PrecRelation) (terms : list Term.t) : list PrecRelation :=
  fold_left (fun rel '(i, term) => relate_term terms rel i term)
    (imap (fun i term => (i, term)) terms) rel.

(** [record.after.every(t => ordered.includes(t))] *)
Definition ready (ordered : list Term.t) (record : PrecRelation) : bool :=
  forallb (fun t => bool_decide (t ∈ ordered)) (rel_after record).

(** [let last = rel.pop()!; if (i < rel.length) rel[i] = last] *)
Definition dropAt (rel : list PrecRelation) (i : nat) : list PrecRelation :=
  match last rel with
  | None => rel
  | Some l =>
      let rel := removelast rel in
      if decide (i < length rel)%nat then <[i := l]> rel else rel
  end.

Section TakePrecedences.

Variable posInfo : Z → string.

(** The text of a term in a message; the method [toString] of [Term] is
    not part of the sources. *)
Variable termToString : Term.t → string.

Definition cyclicMessage (rel : list PrecRelation) : string :=
  ("Cyclic token precedence relation between "
   +:+ String.concat ", " (termToString ∘ rel_term <$> rel))%string.

(** The loop labelled [add]; [Builder.raise] passes the position 1. *)
Fixpoint order_loop (fuel : nat) (rel : list PrecRelation) (ordered : list Term.t)
  : res (list Term.t) :=
  match fuel with
  | O => Err OutOfFuel
  | S fuel =>
      match list_find (fun record => ready ordered record = true) rel with
      | Some (i, record) => order_loop fuel (dropAt rel i) (ordered ++ [rel_term record])
      | None =>
          match rel with
          | [] => Ok ordered
          | _ => raise posInfo (cyclicMessage rel) 1
          end
      end
  end.

(** [takePrecedences()], for the arrays [terms] of the known tokens of the
    precedence groups: [this.precedenceRelations] and [this.precedences]. *)
Definition takePrecedences (groups : list (list Term.t))
  : res (list PrecRelation * list Term.t) :=
  let rel := fold_left relate groups [] in
  let* ordered := order_loop (S (length rel)) rel [] in
  Ok (rel, ordered).

End TakePrecedences.

(** ** Names *)

(** The argument [tag: string | null | true] of [newName]. *)
Inductive TagArg := TagNull | TagTrue | TagString (s : string).

Definition truthy (tag : TagArg) : bool :=
  match tag with
  | TagNull => false
  | TagTrue => true
  | TagString s => negb (bool_decide (s = ""))
  end.

(** [i ? `${base}-${i}` : base] *)
Definition candidate (base : string) (i : nat) : string :=
  if decide (i = 0)%nat then base else (base +:+ "-" +:+ pretty i)%string.

(** The loop of [newName] and of [makeTerminal] over the names [taken]. *)
Fixpoint freshName (fuel : nat) (taken : list string) (base : string) (i : nat)
  : res string :=
  match fuel with
  | O => Err OutOfFuel
  | S fuel =>
      let name := candidate base i in
      if existsb (fun t => bool_decide (t = name)) taken
      then freshName fuel taken base (i + 1)
      else Ok name
  end.

(** [Builder.newName(base, tag)]: the arguments of the call of
    [makeNonTerminal]. *)
Definition newName (nonTerminals : list Term.t) (base : string) (tag : TagArg)
  : res (string * option string) :=
  let* name := freshName (S (length nonTerminals)) (Term.name <$> nonTerminals) base
                 (if truthy tag then 0 else 1)%nat in
  Ok (name, match tag with TagString s => Some s | _ => None end).

(** [Builder.makeTerminal(name, tag)]: the arguments of the call of
    [TermSet.makeTerminal]. *)
Definition makeTerminal (terminals : list Term.t) (name : string) (tag : option string)
  : res (string * option string) :=
  let* cur := freshName (S (length terminals)) (Term.name <$> terminals) name 0 in
  Ok (cur, tag).

(** Modelled from the spec: an [Identifier] of node.ts, with the members
    that [unique] reads. *)
Record Identifier := mkIdentifier { id_name : string; id_start : Z }.

Section RuleNames.

Variable posInfo : Z → string.

(** [Builder.unique(id)] on the dictionary [this.ruleNames]. *)
Definition unique (ruleNames : gmap string (option Identifier)) (id : Identifier)
  : res (gmap string (option Identifier)) :=
  if decide (is_Some (ruleNames !! id_name id))
  then raise posInfo ("Duplicate definition of rule '" +:+ id_name id +:+ "'")%string
         (id_start id)
  else Ok (<[id_name id := Some id]> ruleNames).

(** [Builder.used(name)] *)
Definition used (ruleNames : gmap string (option Identifier)) (name : string)
  : gmap string (option Identifier) :=
  <[name := None]> ruleNames.

End RuleNames.

End Build.

(** * parse.ts *)

Module Parse.

(** [Input.lineInfo(pos)] on the UTF-16 units of [this.string], in which
    positions count; the unit 10 is the line feed.  The result is the pair
    of [line] and [ch]. *)
Fixpoint lineInfo_loop (fuel : nat) (text : list Z) (pos : Z) (line cur : nat)
  : res (nat * Z) :=
  match fuel with
  | O => Err OutOfFuel
  | S fuel =>
      match Build.indexOf text (Some 10) cur with
      | Some next =>
          if decide (Z.of_nat next < pos)
          then lineInfo_loop fuel text pos (line + 1) (next + 1)
          else Ok (line, pos - Z.of_nat cur)
      | None => Ok (line, pos - Z.of_nat cur)
      end
  end.

Definition lineInfo (text : list Z) (pos : Z) : res (nat * Z) :=
  lineInfo_loop (S (length text)) text pos 1 0.

End Parse.

(** * Specification vocabulary *)

(** ** Character ranges: half-open intervals [(from, to)] of code points *)

Definition covers (ranges : list (Z * Z)) (c : Z) : Prop :=
  ∃ r, r ∈ ranges ∧ r.1 ≤ c < r.2.

(** Sorted by start, the order of [ranges.sort((a, b) => a[0] - b[0])]. *)
Definition sorted_by_start (ranges : list (Z * Z)) : Prop :=
  Sorted (fun r1 r2 => r1.1 ≤ r2.1) ranges.

(** No two entries overlap, in the sense of the test of [addRange]. *)
Definition pairwise_disjoint (ranges : list (Z * Z)) : Prop :=
  ∀ (i j : nat) r1 r2, i ≠ j → ranges !! i = Some r1 → ranges !! j = Some r2 →
    r1.2 ≤ r2.1 ∨ r2.2 ≤ r1.1.

(** Non-empty ranges of code points, as [parseExprInner] builds them. *)
Definition char_ranges (ranges : list (Z * Z)) : Prop :=
  Forall (fun r => 0 ≤ r.1 ∧ r.1 < r.2 ∧ r.2 ≤ Build.MAX_CODE + 1) ranges.

(** Two ranges do not overlap: the test of [addRange]. *)
Definition apart (r1 r2 : Z * Z) : Prop := r1.2 ≤ r2.1 ∨ r2.2 ≤ r1.1.

(** [pairwise_disjoint], by recursion on the list. *)
Fixpoint all_apart (ranges : list (Z * Z)) : Prop :=
  match ranges with
  | [] => True
  | r :: rest => Forall (apart r) rest ∧ all_apart rest
  end.

(** Each range ends before the next one starts. *)
Definition chained (ranges : list (Z * Z)) : Prop :=
  StronglySorted (fun r1 r2 => r1.2 ≤ r2.1) ranges.

(** The loop of [invertRanges] from the position [pos], as a recursion. *)
Fixpoint invert_from (pos : Z) (ranges : list (Z * Z)) : list (Z * Z) :=
  match ranges with
  | [] => if decide (pos ≤ Build.MAX_CODE) then [(pos, Build.MAX_CODE + 1)] else []
  | (a, b) :: rest => (if decide (a > pos) then [(pos, a)] else []) ++ invert_from b rest
  end.

(** ** Resolution of conflicts in [State.addAction] *)

(** [p] is the first entry of the new list [prec] whose group occurs in the
    list [prev] of the existing action, and [m] is the entry of [prev] that
    [find] returns for it. *)
Definition first_match (prev prec : list Grammar.Precedence.t)
  (p m : Grammar.Precedence.t) : Prop :=
  ∃ pre post, prec = pre ++ p :: post ∧
    Forall (fun q => List.find (fun x => bool_decide (Grammar.Precedence.group x =
                                                      Grammar.Precedence.group q)) prev = None) pre ∧
    List.find (fun x => bool_decide (Grammar.Precedence.group x = Grammar.Precedence.group p)) prev
    = Some m.

(** [A] with precedences [prev] is the only action of the table on the
    terminal of [value]; it is a different action. *)
Definition only_action (this : Automaton.State.t) (value : Automaton.Action)
  (before after : list Automaton.Action) (A : Automaton.Action)
  (beforeP afterP : list (list Grammar.Precedence.t)) (prev : list Grammar.Precedence.t) : Prop :=
  Automaton.State.terminals this = before ++ A :: after ∧
  Automaton.State.terminalPrec this = beforeP ++ prev :: afterP ∧
  length before = length beforeP ∧ length after = length afterP ∧
  Automaton.Action.term A = Automaton.Action.term value ∧
  Automaton.Action.eq A value = false ∧
  ∀ a, a ∈ before ++ after → Automaton.Action.term a ≠ Automaton.Action.term value.

(** The state after [A] was spliced out and [value] pushed. *)
Definition installed (this : Automaton.State.t) (before after : list Automaton.Action)
  (beforeP afterP : list (list Grammar.Precedence.t))
  (value : Automaton.Action) (prec : list Grammar.Precedence.t) : Automaton.State.t :=
  Automaton.State.mk (Automaton.State.id this) (Automaton.State.set this)
    (before ++ after ++ [value]) (beforeP ++ afterP ++ [prec])
    (Automaton.State.goto this) true.

(** The state with its table untouched, marked ambiguous. *)
Definition marked (this : Automaton.State.t) : Automaton.State.t :=
  Automaton.State.mk (Automaton.State.id this) (Automaton.State.set this)
    (Automaton.State.terminals this) (Automaton.State.terminalPrec this)
    (Automaton.State.goto this) true.

(** The state with [value] pushed after the existing actions. *)
Definition appended (this : Automaton.State.t)
  (value : Automaton.Action) (prec : list Grammar.Precedence.t) : Automaton.State.t :=
  Automaton.State.mk (Automaton.State.id this) (Automaton.State.set this)
    (Automaton.State.terminals this ++ [value]) (Automaton.State.terminalPrec this ++ [prec])
    (Automaton.State.goto this) true.

(** ** Sample tables for [State.addAction] *)

Module Samples.
Import Grammar Automaton.

Definition plus : Term.t := Term.mk "+" TERMINAL None.
Definition num : Term.t := Term.mk "num" TERMINAL None.
Definition Expr : Term.t := Term.mk "Expr" 0 None.

Definition prec_plus : Precedence.t := Precedence.mk (Some left) "plus" 1.
Definition ambig_plus : Precedence.t := Precedence.mk None "plus" (-1).

(** [Expr -> Expr "+" Expr], marked with the precedence [plus]. *)
Definition rule_plus : Rule.t :=
  Rule.mk Expr [Expr; plus; Expr] [None; Some [prec_plus]].

(** [Expr -> Expr "+" num], marked as ambiguous with the group [plus]. *)
Definition rule_plus_num : Rule.t :=
  Rule.mk Expr [Expr; plus; num] [None; Some [ambig_plus]].

(** A state that shifts ["+"] to state 3, with the precedence [plus]. *)
Definition shifting : State.t :=
  State.mk 5 [] [Shift plus (Some 3%nat)] [[prec_plus]] [] false.

(** A state that reduces by [rule_plus] on ["+"]. *)
Definition reducing : State.t :=
  State.mk 5 [] [Reduce plus rule_plus] [[prec_plus]] [] false.

End Samples.

(** ** A grammar on which the collapse does not settle

    [program] starts with one of three keywords and continues with one of
    four non-terminals that all derive ["x"], followed by a terminal.  The
    three states reached after ["x"] have the same core and differ in the
    lookahead of the reductions. *)

Module Diverging.
Import Grammar Automaton.

(** The terms, made in this order. *)
Definition terms : TermSet.t :=
  let terms :=
    fold_left (fun terms name => (TermSet.makeNonTerminal terms name None).1)
      ["program"; "D"; "E"; "V1"; "V2"] TermSet.new in
  fold_left (fun terms name => (TermSet.makeTerminal terms name None).1)
    ["ca"; "cm"; "ck"; "x"; "t"; "uD"; "uE"; "uV1"; "uV2"] terms.

Definition terminal (name : string) : Term.t := (TermSet.makeTerminal TermSet.new name None).2.
Definition nonTerminal (name : string) : Term.t :=
  (TermSet.makeNonTerminal TermSet.new name None).2.

Definition program := nonTerminal "program".
Definition D := nonTerminal "D".
Definition E := nonTerminal "E".
Definition V1 := nonTerminal "V1".
Definition V2 := nonTerminal "V2".

Definition prec (group : string) (level : Z) : Precedence.t :=
  Precedence.mk None group level.

Definition precD := [prec "g1" 5; prec "g3" 5].
Definition precE := [prec "g2" 5; prec "g1" (-1)].
Definition precV1 := [prec "g2" 3; prec "g1" 7; prec "g3" 9].
Definition precV2 := [prec "g3" (-1)].

Definition alt (key : string) (nt : Term.t) (after : string) : Rule.t :=
  Rule.mk program [terminal key; nt; terminal after] [].

Definition rules : list Rule.t :=
  [ alt "ca" D "t";  alt "ca" E "uE"; alt "ca" V1 "uV1"; alt "ca" V2 "uV2";
    alt "cm" D "uD"; alt "cm" E "t";  alt "cm" V1 "uV1"; alt "cm" V2 "uV2";
    alt "ck" D "uD"; alt "ck" E "uE"; alt "ck" V1 "t";   alt "ck" V2 "t";
    Rule.mk D [terminal "x"] [Some precD];
    Rule.mk E [terminal "x"] [Some precE];
    Rule.mk V1 [terminal "x"] [Some precV1];
    Rule.mk V2 [terminal "x"] [Some precV2] ].

(** The LR(1) automaton of the grammar. *)
Definition states : list State.t :=
  match buildFullAutomaton 16 rules terms with
  | Ok states => states
  | Err _ => []
  end.

End Diverging.

(** ** Inlining *)

(** The condition of the specification for the rule at index [i]: not
    tagged, no direct self-recursion, fewer than 3 terms, not preserved, and
    either one term or no other rule under the same skip that uses the
    left-hand side. *)
Definition inlinable_claimed (rules : list Build.Rule.t) (preserve : list Build.Term.t)
  (i : nat) (rule : Build.Rule.t) : Prop :=
  Build.Term.interesting (Build.Rule.name rule) = false ∧
  (Build.Rule.name rule ∉ Build.Rule.parts rule) ∧
  (length (Build.Rule.parts rule) < 3)%nat ∧
  (Build.Rule.name rule ∉ preserve) ∧
  (length (Build.Rule.parts rule) = 1%nat ∨
   ∀ j other, j ≠ i → rules !! j = Some other →
     Build.Rule.skip other = Build.Rule.skip rule →
     Build.Rule.name rule ∉ Build.Rule.parts other).

(** The condition of the code for the rule at index [i]. *)
Definition inlinable_code (rules : list Build.Rule.t) (preserve : list Build.Term.t)
  (i : nat) (rule : Build.Rule.t) : Prop :=
  Build.Term.interesting (Build.Rule.name rule) = false ∧
  (Build.Rule.name rule ∉ Build.Rule.parts rule) ∧
  (length (Build.Rule.parts rule) < 3)%nat ∧
  (Build.Rule.name rule ∉ preserve) ∧
  (length (Build.Rule.parts rule) = 1%nat ∨
   ∀ other, other ∈ rules →
     Build.Rule.skip other = Build.Rule.skip rule ∨
     Build.Rule.name rule ∉ Build.Rule.parts other) ∧
  (∀ p j r, p ∈ Build.Rule.parts rule → (j < i)%nat → rules !! j = Some r →
     Build.selected rules preserve j = true →
     Build.Term.name (Build.Rule.name r) ≠ Build.Term.name p) ∧
  (∀ j r, j ≠ i → rules !! j = Some r → Build.Rule.name r ≠ Build.Rule.name rule).

Module InlineSamples.
Import Build.

Definition term (name : string) : Term.t := Term.mk name 0 None false false.
Definition skip : Term.t := term "%mainskip".
Definition rule (name : string) (parts : list string) : Rule.t :=
  Rule.mk (term name) (term <$> parts) (replicate (S (length parts)) (mkConflicts 0 [] 0))
    skip false.

(** [Pair -> "x" "y"] is used by [Item -> Pair] under the same skip. *)
Definition used_under_same_skip : list Rule.t :=
  [rule "Pair" ["x"; "y"]; rule "Item" ["Pair"]].

(** [Atom] has two alternatives of one term each. *)
Definition two_alternatives : list Rule.t :=
  [rule "Atom" ["x"]; rule "Atom" ["y"]].

End InlineSamples.

(** ** Forced reductions *)



Module ForcedSamples.
Import Build.


Definition term (name : string) (id : Z) : Term.t := Term.mk name id None false false.
Definition rule (name : Term.t) (parts : list Term.t) : Rule.t :=
  Rule.mk name parts (replicate (S (length parts)) (mkConflicts 0 [] 0))
    (term "%noskip" 1) false.

Definition A := term "A" 10.
Definition B := term "B" 11.
Definition x := term "x" 20.
Definition b := term "b" 21.
Definition c := term "c" 22.
Definition d := term "d" 23.

(** The state reached over ["x" "b"] when [A -> "x" "b"] and, after ["x"],
    [B -> "b" "c" "d"] are possible: [A -> "x" "b" ·] and [B -> "b" · "c" "d"]. *)
Definition state : LRState.t :=
  LRState.mk 7 [Pos.mk (rule A [x; b]) 2; Pos.mk (rule B [b; c; d]) 1] None.

End ForcedSamples.

(** ** A token set with a parameterized token that matches the empty string

    The grammar
    [@top { opt<digit> }  @tokens { digit { std.digit }  opt<x> { x? } }]
    declares the token rules [digit] and [opt]; the terminal made for the
    use [opt<digit>] is named after the expression. *)

Module TokenSamples.
Import Build.

Definition rules : list RuleDeclaration :=
  [mkRuleDeclaration "digit" 32; mkRuleDeclaration "opt" 52].

Definition optDigit : Term.t := Term.mk "opt<digit>" 3 None false false.

(** A compiled state is represented by its accepting terms. *)
Definition TokState : Type := list Term.t.
Definition compile (s : TokState) : TokState := s.
Definition accepting (s : TokState) : list Term.t := s.
Definition toArray (s : TokState) (tokenMasks : gmap Z Z) (precedence : list Z) : list Z := [].
Definition posInfo (pos : Z) : string := "".

(** The start state accepts [opt<digit>]. *)
Definition startState : TokState := [optDigit].

End TokenSamples.

(** ** Comparators *)

(** The results [u] of [cmp(a, b)] and [u'] of [cmp(b, a)] have opposite
    signs. *)
Definition opposite (u u' : Z) : Prop := (u < 0 ↔ u' > 0) ∧ (u = 0 ↔ u' = 0).

(** The results of [cmp(a, b)], [cmp(b, c)] and [cmp(a, c)] are those of a
    total preorder. *)
Definition transitive3 (u1 u2 u3 : Z) : Prop :=
  (u1 ≤ 0 → u2 ≤ 0 → u3 ≤ 0) ∧ (0 ≤ u1 → 0 ≤ u2 → 0 ≤ u3) ∧
  (u1 < 0 → u2 ≤ 0 → u3 < 0) ∧ (u1 ≤ 0 → u2 < 0 → u3 < 0) ∧
  (0 < u1 → 0 ≤ u2 → 0 < u3) ∧ (0 ≤ u1 → 0 < u2 → 0 < u3).

(** [cmp] is a consistent comparator on the values that satisfy [P]: the
    condition under which [Array.prototype.sort] sorts. *)
Definition consistent {A} (P : A → Prop) (cmp : A → A → Z) : Prop :=
  (∀ a b, P a → P b → opposite (cmp a b) (cmp b a)) ∧
  (∀ a b c, P a → P b → P c → transitive3 (cmp a b) (cmp b c) (cmp a c)).

(** The order of a comparator. *)
Definition cmp_le {A} (cmp : A → A → Z) (a b : A) : Prop := cmp a b ≤ 0.

(** Lexicographic comparison of two lists, the shorter first on a common
    prefix. *)
Fixpoint lexlist {A} (cmp : A → A → Z) (a b : list A) : Z :=
  match a, b with
  | [], [] => 0
  | [], _ :: _ => -1
  | _ :: _, [] => 1
  | x :: a', y :: b' => cmp x y ||| lexlist cmp a' b'
  end.

(** ** Well-formed grammars *)

(** No two terms of [ts] have the same name. *)
Definition names_unique (ts : list Grammar.Term.t) : Prop :=
  ∀ a b, a ∈ ts → b ∈ ts → Grammar.Term.name a = Grammar.Term.name b → a = b.

(** The terms of a rule belong to [ts]. *)
Definition rule_in (ts : list Grammar.Term.t) (r : Grammar.Rule.t) : Prop :=
  Grammar.Rule.name r ∈ ts ∧ Forall (fun t => t ∈ ts) (Grammar.Rule.parts r).

(** The terms of an item belong to [ts]. *)
Definition item_in (ts : list Grammar.Term.t) (p : Automaton.Pos.t) : Prop :=
  rule_in ts (Automaton.Pos.rule p) ∧ Automaton.Pos.ahead p ∈ ts.

(** The entries of the FIRST table belong to [ts]. *)
Definition first_in (ts : list Grammar.Term.t) (first : Automaton.FirstTable) : Prop :=
  ∀ k l t, first !! k = Some l → Some t ∈ l → t ∈ ts.

(** The FIRST table has an entry for each non-terminal part of the rule. *)
Definition first_covers (first : Automaton.FirstTable) (r : Grammar.Rule.t) : Prop :=
  ∀ t, t ∈ Grammar.Rule.parts r → Grammar.Term.terminal t = false →
       is_Some (first !! Grammar.Term.name t).

(** ** Closure *)

(** Each derived item was absent from the array when it was pushed: it is
    not among the items of the kernel [set] nor among the derived items
    before it. *)
Definition derived_fresh (set derived : list Automaton.Pos.t) : Prop :=
  ∀ (i : nat) x, derived !! i = Some x → x ∉ set ++ take i derived.

Definition item_key (p : Automaton.Pos.t) : Grammar.Rule.t * Grammar.Term.t :=
  (Automaton.Pos.rule p, Automaton.Pos.ahead p).

(** The array [result] during the loop of [closure]: the kernel followed
    by derived items [B -> · γ, b], fresh when pushed, no two for the same
    rule and lookahead. *)
Definition closure_inv (ts : list Grammar.Term.t) (rules : list Grammar.Rule.t)
  (set result : list Automaton.Pos.t) : Prop :=
  ∃ derived, result = set ++ derived ∧ derived_fresh set derived ∧
    Forall (fun p => Automaton.Pos.pos p = 0%nat ∧ Automaton.Pos.rule p ∈ rules ∧
                     Automaton.Pos.ahead p ∈ ts) derived ∧
    NoDup (item_key <$> derived).

(** ** A small grammar: [program -> A "b"], [A -> ε | "a"] *)

Module SmallGrammar.
Import Grammar Automaton.

Definition eof : Term.t := Term.mk "␄" (Z.lor TERMINAL EOF) None.
Definition error : Term.t := Term.mk "⚠" (Z.lor TERMINAL ERROR) (Some "⚠").
Definition a : Term.t := Term.mk "a" TERMINAL None.
Definition b : Term.t := Term.mk "b" TERMINAL None.
Definition program : Term.t := Term.mk "program" PROGRAM None.
Definition A : Term.t := Term.mk "A" 0 None.

Definition top : Rule.t := Rule.mk program [A; b] [].
Definition A_empty : Rule.t := Rule.mk A [] [].
Definition A_a : Rule.t := Rule.mk A [a] [].

Definition rules : list Rule.t := [top; A_empty; A_a].
Definition nonTerminals : list Term.t := [program; A].
Definition terms : list Term.t := [eof; error; a; b; program; A].

(** The FIRST table of the grammar. *)
Definition first : FirstTable :=
  <["A" := [None; Some a]]> (<["program" := [Some a; Some b]]> ∅).

(** The start kernel [program -> · A "b", eof]. *)
Definition kernel : list Pos.t := [Pos.mk top 0 eof []].

End SmallGrammar.

(** ** Derivations and FIRST sets *)

(** One step of a derivation: a non-terminal is replaced by the parts of
    one of its rules. *)
Inductive derive_step (rules : list Grammar.Rule.t)
  : list Grammar.Term.t → list Grammar.Term.t → Prop :=
| derive_rule u v r :
    r ∈ rules →
    derive_step rules (u ++ Grammar.Rule.name r :: v) (u ++ Grammar.Rule.parts r ++ v).

(** [w ⇒* w'] *)
Definition derives (rules : list Grammar.Rule.t) : relation (list Grammar.Term.t) :=
  rtc (derive_step rules).

(** The grammar that [computeFirst] expects: the non-terminals have
    distinct names and are not flagged as terminals, every rule belongs to a
    non-terminal, and the parts of the rules are terminals or
    non-terminals of the list. *)
Definition grammar_ok (rules : list Grammar.Rule.t) (nonTerminals : list Grammar.Term.t) : Prop :=
  NoDup (Grammar.Term.name <$> nonTerminals) ∧
  Forall (fun N => Grammar.Term.terminal N = false) nonTerminals ∧
  Forall (fun r => Grammar.Rule.name r ∈ nonTerminals ∧
                   Forall (fun t => Grammar.Term.terminal t = false → t ∈ nonTerminals)
                     (Grammar.Rule.parts r)) rules.

(** The values that an array of the table can hold: the ε marker and the
    parts of the rules. *)
Definition first_universe (rules : list Grammar.Rule.t) : list (option Grammar.Term.t) :=
  None :: (Some <$> mjoin (Grammar.Rule.parts <$> rules)).

(** A number of rounds of the loop of [computeFirst] that suffices. *)
Definition first_bound (rules : list Grammar.Rule.t) (nonTerminals : list Grammar.Term.t) : nat :=
  S (length nonTerminals * length (first_universe rules)).

(** The terminals that begin the sentential form [w], read off a table. *)
Inductive FirstSeq (table : Automaton.FirstTable)
  : list Grammar.Term.t → Grammar.Term.t → Prop :=
| FirstSeq_terminal t w :
    Grammar.Term.terminal t = true → FirstSeq table (t :: w) t
| FirstSeq_here N w t l :
    Grammar.Term.terminal N = false →
    table !! Grammar.Term.name N = Some l → Some t ∈ l →
    FirstSeq table (N :: w) t
| FirstSeq_skip N w t l :
    Grammar.Term.terminal N = false →
    table !! Grammar.Term.name N = Some l → None ∈ l →
    FirstSeq table w t → FirstSeq table (N :: w) t.

(** Every symbol of [w] is a non-terminal with the ε marker in the table. *)
Definition NullSeq (table : Automaton.FirstTable) (w : list Grammar.Term.t) : Prop :=
  Forall (fun N => Grammar.Term.terminal N = false ∧
                   ∃ l, table !! Grammar.Term.name N = Some l ∧ None ∈ l) w.

(** The table is closed under the rules. *)
Definition first_closed (rules : list Grammar.Rule.t) (table : Automaton.FirstTable) : Prop :=
  ∀ r, r ∈ rules →
    ∃ set, table !! Grammar.Term.name (Grammar.Rule.name r) = Some set ∧
      (∀ t, FirstSeq table (Grammar.Rule.parts r) t → Some t ∈ set) ∧
      (NullSeq table (Grammar.Rule.parts r) → None ∈ set).

(** The table while [computeFirst] runs: an array without repetition for
    each non-terminal, with values of the universe, and an ε marker only
    for a non-terminal that derives the empty string. *)
Definition first_inv (rules : list Grammar.Rule.t) (nonTerminals : list Grammar.Term.t)
  (table : Automaton.FirstTable) : Prop :=
  (∀ N, N ∈ nonTerminals → is_Some (table !! Grammar.Term.name N)) ∧
  (∀ k l, table !! k = Some l → NoDup l ∧ l ⊆ first_universe rules) ∧
  (∀ N l, N ∈ nonTerminals → table !! Grammar.Term.name N = Some l → None ∈ l →
          derives rules [N] []).

(** The table only grows: each array is extended at its end. *)
Definition first_extends (table table' : Automaton.FirstTable) : Prop :=
  ∀ k l, table !! k = Some l → ∃ l', table' !! k = Some l' ∧ l `prefix_of` l'.

(** The total size of the arrays of the non-terminals. *)
Definition first_size (nonTerminals : list Grammar.Term.t) (table : Automaton.FirstTable) : nat :=
  sum_list ((fun N => length (default [] (table !! Grammar.Term.name N))) <$> nonTerminals).

(** ** Stored arrays *)

(** [value] is the slice of [data] that starts at offset [n]. *)
Definition occurs_at (data value : list Z) (n : nat) : Prop :=
  take (length value) (drop n data) = value.

(** ** Token masks *)

(** [masks[t] || 0] *)
Definition mask_of (masks : gmap Z Z) (t : Z) : Z := default 0 (masks !! t).

(** ** Edges over UTF-16 units

    An edge [edge(lo, hi, target)] is taken by the units [u] with
    [lo ≤ u < hi], as in [from.edge(ch, ch + 1, next)] for one character;
    no unit is in a range with a bound that is [NaN]. *)

(** The unit [u] leads from [from] to [to] directly. *)
Definition direct_accepts (edges : list Build.RangeEdge) (u : Z) : Prop :=
  ∃ lo hi, Build.Direct lo hi ∈ edges ∧ lo ≤ u < hi.

(** The units [a], [b] lead from [from] to [to] through a new state. *)
Definition hop_accepts (edges : list Build.RangeEdge) (a b : Z) : Prop :=
  ∃ lo hi lo2 hi2, Build.Hop lo hi (Some lo2) (Some hi2) ∈ edges ∧
    lo ≤ a < hi ∧ lo2 ≤ b < hi2.

(** The code point of the surrogate pair [a], [b]. *)
Definition pair_code (a b : Z) : Z :=
  Build.ASTRAL + (a - Build.GAP_START) * 0x400 + (b - Build.LOW_SURR_B).

(** ** Token precedences *)

(** [a] is listed before an occurrence of [b]. *)
Definition before (ordered : list Build.Term.t) (a b : Build.Term.t) : Prop :=
  ∃ l1 l2, ordered = l1 ++ b :: l2 ∧ a ∈ l1.

(** [a] stands before [b] in a group. *)
Definition precedes (groups : list (list Build.Term.t)) (a b : Build.Term.t) : Prop :=
  ∃ terms i j, terms ∈ groups ∧ (i < j)%nat ∧ terms !! i = Some a ∧ terms !! j = Some b.

(** Every term of the list has a predecessor, by the groups, in the list. *)
Definition cyclic (groups : list (list Build.Term.t)) (terms : list Build.Term.t) : Prop :=
  terms ≠ [] ∧ ∀ b, b ∈ terms → ∃ a, a ∈ terms ∧ precedes groups a b.

(** The relation has a record that puts [a] ahead of [b]. *)
Definition relates (rel : list Build.PrecRelation) (a b : Build.Term.t) : Prop :=
  ∃ r, r ∈ rel ∧ Build.rel_term r = b ∧ a ∈ Build.rel_after r.

Definition rel_terms (rel : list Build.PrecRelation) : list Build.Term.t :=
  Build.rel_term <$> rel.

(** The invariant of the records built by [relate]: one record per term,
    and every term waited for has a record. *)
Definition rel_ok (rel : list Build.PrecRelation) : Prop :=
  NoDup (rel_terms rel) ∧
  ∀ r a, r ∈ rel → a ∈ Build.rel_after r → a ∈ rel_terms rel.

(** Every record waits for the term of a record of the same list. *)
Definition stuck (rel : list Build.PrecRelation) : Prop :=
  rel ≠ [] ∧ ∀ r, r ∈ rel → ∃ r', r' ∈ rel ∧ Build.rel_term r' ∈ Build.rel_after r.

(** The term of the record is in [ordered], after the terms it waits for. *)
Definition placed (ordered : list Build.Term.t) (r : Build.PrecRelation) : Prop :=
  ∃ l1 l2, ordered = l1 ++ Build.rel_term r :: l2 ∧ ∀ a, a ∈ Build.rel_after r → a ∈ l1.

(** ** Names *)

Definition duplicateMessage (name : string) : string :=
  ("Duplicate definition of rule '" +:+ name +:+ "'")%string.

(** ** Lines *)

(** The number of line feeds of a text. *)
Definition newlines (text : list Z) : nat := length (filter (fun c => c = 10) text).

(** ** Reading the goto table

    The layout that the comment before [computeGotoTable] describes: the
    number of terms; for each term the offset of its records; a record is
    the number of start states, shifted one to the left, with the first bit
    set on the last record of the term, then the target state, then the
    start states. *)

(** The records at [pos]: the target of the record that lists [state]. *)
Fixpoint gotoRecords (fuel : nat) (table : list Z) (pos : nat) (state : Z) : option Z :=
  match fuel with
  | O => None
  | S fuel =>
      groupTag ← table !! pos;
      target ← table !! (pos + 1)%nat;
      let count := Z.to_nat (Z.shiftr groupTag 1) in
      if decide (state ∈ take count (drop (pos + 2) table)) then Some target
      else if Z.odd groupTag then None
      else gotoRecords fuel table (pos + 2 + count) state
  end.

(** The state that the table gives for the start state [state] and the
    term [term]. *)
Definition gotoLookup (table : list Z) (state term : nat) : option Z :=
  n ← table !! 0%nat;
  if decide (Z.of_nat term < n) then
    offset ← table !! (1 + term)%nat;
    gotoRecords (length table) table (Z.to_nat offset) (Z.of_nat state)
  else None.

(** No state has two gotos on one term, also when two entries of the
    array have the same id. *)
Definition goto_function (states : list Build.GotoState) : Prop :=
  ∀ s1 s2 term g1 g2, s1 ∈ states → s2 ∈ states → Build.gs_id s1 = Build.gs_id s2 →
    (term, g1) ∈ Build.gs_goto s1 → (term, g2) ∈ Build.gs_goto s2 → g1 = g2.

(** The number of gotos of all states. *)
Definition goto_count (states : list Build.GotoState) : nat :=
  length (mjoin (Build.gs_goto <$> states)).

(** ** The contents of the goto table *)

(** The start states of the record of [target]. *)
Definition sources (entries : gmap nat (list nat)) (target : nat) : list nat :=
  default [] (entries !! target).

(** The table holds the list [l] from [pos] on. *)
Definition holds (table l : list Z) (pos : nat) : Prop :=
  ∀ j x, l !! j = Some x → table !! (pos + j)%nat = Some x.

(** The object [goto] lists [source] for [term] and [target]. *)
Definition listed (goto : Build.GotoMap) (term target source : nat) : Prop :=
  ∃ entries, goto !! term = Some entries ∧ source ∈ sources entries target.

(** What the first loops of [computeGotoTable] have gathered from the
    gotos [gotos], given as triples of start state, term and target. *)
Definition gathered (gotos : list (nat * nat * nat)) (goto : Build.GotoMap) (maxTerm : nat) : Prop :=
  (∀ t g s, listed goto t g s ↔ (s, t, g) ∈ gotos) ∧
  (∀ t, is_Some (goto !! t) ↔ ∃ s g, (s, t, g) ∈ gotos) ∧
  (∀ t, is_Some (goto !! t) → (t ≤ maxTerm)%nat) ∧
  (∀ t g entries, goto !! t = Some entries →
     (length (sources entries g) ≤ length gotos)%nat) ∧
  (∀ t g entries, goto !! t = Some entries → is_Some (entries !! g) →
     sources entries g ≠ []).

(** The gotos of the states, in the order of the loops. *)
Definition all_gotos (states : list Build.GotoState) : list (nat * nat * nat) :=
  mjoin ((fun state => (fun '(t, g) => (Build.gs_id state, t, g)) <$> Build.gs_goto state) <$> states).

(** Ids of states fit an element of the table. *)
Definition goto_small (states : list Build.GotoState) : Prop :=
  ∀ s, s ∈ states → Z.of_nat (Build.gs_id s) < 2 ^ 16 ∧
    ∀ term target, (term, target) ∈ Build.gs_goto s → Z.of_nat target < 2 ^ 16.

(** ** Tables of actions and the partition of states *)

Section AutomatonSpecs.
Import Grammar Automaton.

(** What a call of [addAction] leaves alone. *)
Definition addAction_frame (this : State.t) (value : Action) (s' : State.t) : Prop :=
  State.id s' = State.id this ∧ State.set s' = State.set this ∧
  State.goto s' = State.goto this ∧
  (State.ambiguous this = true → State.ambiguous s' = true) ∧
  (∀ a, a ∈ State.terminals s' → a = value ∨ a ∈ State.terminals this) ∧
  (∀ a, a ∈ State.terminals this → Action.term a ≠ Action.term value →
        a ∈ State.terminals s').

(** The outcomes of a call of [addAction]. *)
Definition addAction_outcome (this : State.t) (value : Action) (pos : option Pos.t)
  (s' : State.t) (r : res bool) : Prop :=
  match r with
  | Ok true => ∃ a, a ∈ State.terminals s' ∧ Action.term a = Action.term value
  | Ok false => pos = None
  | Err (Thrown msg) =>
      ∃ p a, pos = Some p ∧ a ∈ State.terminals this ∧
        Action.term a = Action.term value ∧ msg = State.conflictMessage a p
  | Err _ => False
  end.

Definition parallel (s : State.t) : Prop :=
  length (State.terminals s) = length (State.terminalPrec s).

(** The state with [value] pushed after the existing actions. *)
Definition pushed (this : State.t) (value : Action) (prec : list Precedence.t) : State.t :=
  State.mk (State.id this) (State.set this) (State.terminals this ++ [value])
    (State.terminalPrec this ++ [prec]) (State.goto this) (State.ambiguous this).

(** The entries [2n] and [2n + 1] of [conflicts] are a recorded pair. *)
Definition conflict_pair (conflicts : list nat) (a b : nat) : Prop :=
  ∃ n, conflicts !! (2 * n)%nat = Some a ∧ conflicts !! (2 * n + 1)%nat = Some b.

(** The partition of the states of the first loop of a round. *)
Definition partition_ok (states : list State.t) (conflicts : list nat)
  (newStates : list State.t) (mapping : list nat) : Prop :=
  length mapping = length states ∧
  (∀ k s, newStates !! k = Some s →
     s = State.new k (State.set s) ∧
     ∃ i st, states !! i = Some st ∧ mapping !! i = Some k ∧
             State.set s = core (State.set st)) ∧
  (∀ i st, states !! i = Some st →
     ∃ k s, mapping !! i = Some k ∧ newStates !! k = Some s ∧
            cmpSet (State.set s) (core (State.set st)) Pos.cmpSimple = 0) ∧
  (∀ i j, conflict_pair conflicts i j → i ≠ j →
     (i < length states)%nat → (j < length states)%nat → mapping !! i ≠ mapping !! j).

(** [p] is an item [B -> · γ, a] that the loop of [closure] derives from
    the item [parent]: [B] follows the dot of [parent], [a] is among its
    [termsAhead], and the precedences are those at the dot of [parent]. *)
Definition derived_from (rules : list Rule.t) (first : FirstTable) (parent p : Pos.t) : Prop :=
  ∃ ahead, Pos.next parent = Some (Rule.name (Pos.rule p)) ∧
    Term.terminal (Rule.name (Pos.rule p)) = false ∧
    Pos.termsAhead parent first = Ok ahead ∧
    Pos.rule p ∈ rules ∧ Pos.pos p = 0%nat ∧ Pos.ahead p ∈ ahead ∧
    Pos.prec p = Rule.precAt (Pos.rule parent) (Pos.pos parent).

(** [result] has an item of [rule] with the dot at 0 and the lookahead [a]. *)
Definition has_item (result : list Pos.t) (rule : Rule.t) (a : Term.t) : Prop :=
  ∃ p, p ∈ result ∧ Pos.rule p = rule ∧ Pos.pos p = 0%nat ∧ Pos.ahead p = a.

(** The items that [pos] gives rise to are in [result], up to their
    precedences. *)
Definition expanded (rules : list Rule.t) (first : FirstTable) (result : list Pos.t)
  (pos : Pos.t) : Prop :=
  ∀ next, Pos.next pos = Some next → Term.terminal next = false →
    ∃ ahead, Pos.termsAhead pos first = Ok ahead ∧
      ∀ rule a, rule ∈ rules → Rule.name rule = next → a ∈ ahead →
        ∃ p, p ∈ result ∧ Pos.rule p = rule ∧ Pos.pos p = 0%nat ∧ Pos.ahead p = a.

(** Every item of [result] is in the kernel or derived from an item of
    [result]. *)
Definition justified (rules : list Rule.t) (first : FirstTable) (set result : list Pos.t)
  : Prop :=
  ∀ p, p ∈ result → p ∈ set ∨ ∃ parent, parent ∈ result ∧ derived_from rules first parent p.

(** [result] is a closure of [set]. *)
Definition closure_of (rules : list Rule.t) (first : FirstTable) (set result : list Pos.t)
  : Prop :=
  (∀ q, q ∈ set → q ∈ result) ∧
  (∀ pos, pos ∈ result → expanded rules first result pos) ∧
  (∀ p, p ∈ result → p ∈ set ∨ ∃ parent, parent ∈ result ∧ derived_from rules first parent p).

(** The table has an action on the terminal. *)
Definition acts_on (s : State.t) (t : Term.t) : Prop :=
  ∃ b, b ∈ State.terminals s ∧ Action.term b = t.




(** The target of a shift is the id of one of [n] states. *)
Definition target_below (n : nat) (a : Action) : Prop :=
  match a with
  | Shift _ target => ∃ t, target = Some t ∧ (t < n)%nat
  | Reduce _ _ => True
  end.

(** The array of states of an automaton: a state is at the index that is
    its id, its two arrays of actions are parallel, and the shifts and gotos
    lead to states of the array. *)
Definition automaton_ok (states : list State.t) : Prop :=
  ∀ k s, states !! k = Some s →
    State.id s = k ∧ parallel s ∧
    Forall (target_below (length states)) (State.terminals s ++ State.goto s).

End AutomatonSpecs.

(** * Conflict resolution in [State.addAction] *)

Section AddAction.
Import Grammar Automaton.

(** Entries on other terminals are stepped over. *)
Lemma addAction_check_skip this value prec pos before beforeP :
  ∀ doneT doneP restT restP amb,
  length before = length beforeP →
  Forall (fun a => Action.term a ≠ Action.term value) before →
  State.addAction_check this doneT doneP (before ++ restT) (beforeP ++ restP) amb value prec pos
  = State.addAction_check this (doneT ++ before) (doneP ++ beforeP) restT restP amb value prec pos.
Proof.
  revert beforeP. induction before as [|a before IH]; intros beforeP doneT doneP restT restP amb Hlen Hne.
  - destruct beforeP; [| done]. simpl. by rewrite !app_nil_r.
  - destruct beforeP as [|q beforeP]; [done |]. simpl in Hlen.
    apply Forall_cons in Hne as [Ha Hne]. simpl.
    destruct (decide (Action.term a = Action.term value)) as [|_]; [done |].
    rewrite IH; [| lia | done]. simpl. by rewrite <- !app_assoc.
Qed.

(** When nothing is left on the terminal, the action is pushed. *)
Lemma addAction_check_push this value prec pos doneT doneP after afterP amb :
  length after = length afterP →
  Forall (fun a => Action.term a ≠ Action.term value) after →
  State.addAction_check this doneT doneP after afterP amb value prec pos
  = (State.mk (State.id this) (State.set this) (doneT ++ after ++ [value])
       (doneP ++ afterP ++ [prec]) (State.goto this) amb, Ok true).
Proof.
  intros Hlen Hne.
  rewrite <- (app_nil_r after) at 1. rewrite <- (app_nil_r afterP) at 1.
  rewrite addAction_check_skip; [| done | done]. simpl. by rewrite <- !app_assoc.
Qed.

(** The loop over [prec] ignores the entries without a partner. *)
Lemma resolve_first_match action prev prec p m :
  first_match prev prec p m →
  ∃ post, resolve action prev prec = resolve action prev (p :: post) ∧
    List.find (fun x => bool_decide (Precedence.group x = Precedence.group p)) prev = Some m.
Proof.
  intros (pre & post & -> & Hpre & Hm). exists post. split; [| done].
  induction Hpre as [|q pre Hq _ IH]; [done |]. simpl. by rewrite Hq.
Qed.




Lemma resolve_intentional action prev prec p m :
  first_match prev prec p m → Precedence.precedence p < 0 →
  resolve action prev prec = Intentional.
Proof.
  intros Hfm Hp. destruct (resolve_first_match action _ _ _ _ Hfm) as (post & -> & Hm).
  simpl. rewrite Hm. destruct (decide (Precedence.precedence p < 0)); [done | lia].
Qed.

(** [addAction] on a table in which [A] is the only action on the terminal
    runs the loop over [prec] once, for [A]. *)
Lemma addAction_only this value prec pos before after A beforeP afterP prev :
  only_action this value before after A beforeP afterP prev →
  prec ≠ [] →
  State.addAction this value prec pos =
  match resolve A prev prec with
  | Intentional => (appended this value prec, Ok true)
  | Override => (installed this before after beforeP afterP value prec, Ok true)
  | Keep => (marked this, Ok true)
  | Unresolved =>
      (marked this,
       match pos with
       | None => Ok false
       | Some pos => Err (Thrown (State.conflictMessage A pos))
       end)
  end.
Proof.
  intros (Ht & Hp & Hlb & Hla & Hterm & Hneq & Hother) Hprec.
  assert (Hb : Forall (fun a => Action.term a ≠ Action.term value) before).
  { apply Forall_forall. intros a Ha. apply Hother. apply elem_of_app. by left. }
  assert (Ha : Forall (fun a => Action.term a ≠ Action.term value) after).
  { apply Forall_forall. intros a Hin. apply Hother. apply elem_of_app. by right. }
  unfold State.addAction. rewrite Ht, Hp.
  rewrite addAction_check_skip; [| done | done]. simpl.
  destruct (decide (Action.term A = Action.term value)); [| done].
  rewrite Hneq. destruct prec as [|p0 prec0]; [done |]. clear Hprec.
  destruct (resolve A prev (p0 :: prec0)) eqn:Hres.
  - rewrite addAction_check_push; [| done | done].
    unfold appended. rewrite Ht, Hp. simpl. by rewrite <- !app_assoc.
  - rewrite addAction_check_push; [| done | done].
    unfold installed. simpl. by rewrite ?app_nil_r.
  - unfold marked. rewrite Ht, Hp. simpl. by rewrite ?app_nil_r.
  - unfold marked. rewrite Ht, Hp. simpl. rewrite ?app_nil_r. by destruct pos.
Qed.

Lemma first_match_nonempty prev prec p m : first_match prev prec p m → prec ≠ [].
Proof. intros (pre & post & -> & _). by destruct pre. Qed.



(** C5 (as amended).  Let [A] be the only action of the table on the
    terminal of the new action [value], a different action, and let the
    first entry of the new precedences with a partner among the precedences
    of [A] have a negative level.  Then the conflict is accepted: [A] stays,
    [value] is pushed after the existing actions with its precedences, the
    state is marked ambiguous and the call returns [true] without an
    error. *)
Theorem addAction_intentional this value prec pos before after A beforeP afterP prev p m :
  only_action this value before after A beforeP afterP prev →
  first_match prev prec p m →
  Precedence.precedence p < 0 →
  State.addAction this value prec pos = (appended this value prec, Ok true).
Proof.
  intros Honly Hfm Hp.
  rewrite (addAction_only this value prec pos _ _ _ _ _ _ Honly
             (first_match_nonempty _ _ _ _ Hfm)).
  by rewrite (resolve_intentional A _ _ _ _ Hfm Hp).
Qed.

Lemma reducing_only_action :
  only_action Samples.reducing (Reduce Samples.plus Samples.rule_plus_num)
    [] [] (Reduce Samples.plus Samples.rule_plus) [] [] [Samples.prec_plus].
Proof.
  repeat split; try reflexivity. intros a Ha. by apply elem_of_nil in Ha.
Qed.

Lemma ambig_first_match :
  first_match [Samples.prec_plus] [Samples.ambig_plus] Samples.ambig_plus Samples.prec_plus.
Proof. exists [], []. split; [reflexivity | split; [constructor | reflexivity]]. Qed.

Lemma addAction_intentional_witness :
  State.addAction Samples.reducing (Reduce Samples.plus Samples.rule_plus_num)
    [Samples.ambig_plus] None
  = (State.mk 5 []
       [Reduce Samples.plus Samples.rule_plus; Reduce Samples.plus Samples.rule_plus_num]
       [[Samples.prec_plus]; [Samples.ambig_plus]] [] true,
     Ok true).
Proof.
  apply (addAction_intentional Samples.reducing (Reduce Samples.plus Samples.rule_plus_num)
           [Samples.ambig_plus] None [] [] (Reduce Samples.plus Samples.rule_plus) [] []
           [Samples.prec_plus] Samples.ambig_plus Samples.prec_plus).
  - exact reducing_only_action.
  - exact ambig_first_match.
  - simpl. lia.
Defined.

(** C5, as stated, fails: a second reduction on ["+"] whose precedence
    entry of the group [plus] has level -1 meets the reduction already in
    the table; the new action is not dropped, the table has two actions on
    ["+"] afterwards. *)
Lemma addAction_intentional_not_discarded :
  only_action Samples.reducing (Reduce Samples.plus Samples.rule_plus_num)
    [] [] (Reduce Samples.plus Samples.rule_plus) [] [] [Samples.prec_plus] ∧
  first_match [Samples.prec_plus] [Samples.ambig_plus] Samples.ambig_plus Samples.prec_plus ∧
  Precedence.precedence Samples.ambig_plus < 0 ∧
  State.terminals (State.addAction Samples.reducing
                     (Reduce Samples.plus Samples.rule_plus_num) [Samples.ambig_plus] None).1
  ≠ State.terminals Samples.reducing.
Proof.
  split; [exact reducing_only_action |]. split; [exact ambig_first_match |].
  split; [simpl; lia |]. by vm_compute.
Qed.

End AddAction.

(** * The collapse of the LR(1) automaton *)

Section Collapse.
Import Grammar Automaton.

Lemma diverging_terms :
  TermSet.nonTerminals Diverging.terms
  = [Diverging.program; Diverging.D; Diverging.E; Diverging.V1; Diverging.V2] ∧
  TermSet.terminals Diverging.terms
  = TermSet.eof Diverging.terms :: TermSet.error Diverging.terms ::
    (Diverging.terminal <$> ["ca"; "cm"; "ck"; "x"; "t"; "uD"; "uE"; "uV1"; "uV2"]).
Proof. by vm_compute. Qed.

(** The automaton of the grammar [Diverging] is built without error; it
    has 31 states, of which 2, 12 and 22 have the same core. *)
Lemma diverging_full :
  buildFullAutomaton 16 Diverging.rules Diverging.terms = Ok Diverging.states ∧
  length Diverging.states = 31%nat ∧
  (State.terminals <$> Diverging.states !! 22%nat)
  = Some [Reduce (Diverging.terminal "uD") (Rule.mk Diverging.D [Diverging.terminal "x"]
                                              [Some Diverging.precD]);
          Reduce (Diverging.terminal "uE") (Rule.mk Diverging.E [Diverging.terminal "x"]
                                              [Some Diverging.precE]);
          Reduce (Diverging.terminal "t") (Rule.mk Diverging.V1 [Diverging.terminal "x"]
                                             [Some Diverging.precV1]);
          Reduce (Diverging.terminal "t") (Rule.mk Diverging.V2 [Diverging.terminal "x"]
                                             [Some Diverging.precV2])].
Proof. by vm_compute. Qed.

(** The first round maps the states 2, 12 and 22 to one new state, whose
    merge fails, and records no conflict: no two of the three states
    conflict with each other. *)
Lemma diverging_round :
  (collapse_partition Diverging.states []).2 !! 2%nat = Some 2%nat ∧
  (collapse_partition Diverging.states []).2 !! 12%nat = Some 2%nat ∧
  (collapse_partition Diverging.states []).2 !! 22%nat = Some 2%nat ∧
  collapse_round Diverging.states [] = Ok (inr []).
Proof. by vm_compute. Qed.

(** C2 (fails on the code).  On the LR(1) automaton of the grammar
    [Diverging] every round of [collapseAutomaton] ends with a failed merge
    and the same, empty, list of recorded conflicts: no bound on the number
    of rounds lets the function return. *)
Theorem collapseAutomaton_diverges :
  ∀ fuel, collapseAutomaton fuel Diverging.states = Err OutOfFuel.
Proof.
  unfold collapseAutomaton. induction fuel as [|fuel IH]; [done |].
  simpl. destruct diverging_round as (_ & _ & _ & ->). exact IH.
Qed.

End Collapse.

(** * The selection of inlinable rules *)

Section Inline.
Import Build.

Lemma inlineRules_scan_S rules preserve n rule :
  rules !! n = Some rule →
  inlineRules_scan rules preserve (S n) =
  let '(inlinable, found) := inlineRules_scan rules preserve n in
  if inlinable_test rules preserve inlinable n rule
  then (<[Term.name (Rule.name rule) := rule]> inlinable, Some rule)
  else (inlinable, found).
Proof.
  intros Hn. unfold inlineRules_scan.
  rewrite (take_S_r _ _ (n, rule)); [| by rewrite list_lookup_imap, Hn].
  rewrite fold_left_app. simpl. by destruct (fold_left _ _ _).
Qed.

(** The dictionary after the indices below [n] holds the names of the rules
    selected so far. *)
Lemma inlineRules_scan_dict rules preserve n k :
  is_Some ((inlineRules_scan rules preserve n).1 !! k) ↔
  ∃ j r, (j < n)%nat ∧ rules !! j = Some r ∧ selected rules preserve j = true ∧
         Term.name (Rule.name r) = k.
Proof.
  induction n as [|n IH].
  - unfold inlineRules_scan. simpl. rewrite lookup_empty. split.
    + by intros [? ?].
    + intros (j & _ & ? & _). lia.
  - destruct (rules !! n) as [rule|] eqn:Hn.
    + rewrite (inlineRules_scan_S _ _ _ _ Hn).
      assert (Hsel : selected rules preserve n
                     = inlinable_test rules preserve (inlineRules_scan rules preserve n).1 n rule).
      { unfold selected. by rewrite Hn. }
      destruct (inlineRules_scan rules preserve n) as [inlinable found] eqn:Hscan.
      simpl in *. destruct (inlinable_test rules preserve inlinable n rule) eqn:Htest; simpl.
      * rewrite lookup_insert. case_decide as Hk.
        -- split; [| by eauto]. intros _. exists n, rule. by repeat split; try lia.
        -- rewrite IH. split.
           ++ intros (j & r & ? & ?). exists j, r. split; [lia | done].
           ++ intros (j & r & Hj & Hr & Hs & Hnm). destruct (decide (j = n)) as [->|].
              ** rewrite Hn in Hr. by simplify_eq.
              ** exists j, r. split; [lia | done].
      * rewrite IH. split.
        -- intros (j & r & ? & ?). exists j, r. split; [lia | done].
        -- intros (j & r & Hj & Hr & Hs & Hnm). destruct (decide (j = n)) as [->|].
           ++ congruence.
           ++ exists j, r. split; [lia | done].
    + assert (Hge : (length rules ≤ n)%nat) by by apply lookup_ge_None.
      assert (Heq : inlineRules_scan rules preserve (S n) = inlineRules_scan rules preserve n).
      { unfold inlineRules_scan. by rewrite !take_ge by (rewrite length_imap; lia). }
      rewrite Heq, IH. split.
      * intros (j & r & ? & ?). exists j, r. split; [lia | done].
      * intros (j & r & Hj & Hr & Hs & Hnm). exists j, r. split; [| done].
        apply lookup_lt_Some in Hr. lia.
Qed.

(** C6 (as amended).  In a pass of [inlineRules] the rule at index [i] is
    selected exactly when its left-hand side is not tagged, does not occur
    among its parts, is not preserved, the body has fewer than 3 terms,
    either the body has one term or every rule that uses the left-hand side
    has the same skip as the rule, no part has the name of a rule selected
    earlier in the pass, and no other rule has the same left-hand side. *)
Theorem selected_iff rules preserve i rule :
  rules !! i = Some rule →
  selected rules preserve i = true ↔ inlinable_code rules preserve i rule.
Proof.
  intros Hi. unfold selected, inlinable_code. rewrite Hi. unfold inlinable_test.
  rewrite !andb_true_iff, !negb_true_iff, orb_true_iff.
  rewrite !bool_decide_eq_false, !bool_decide_eq_true.
  assert (Hskip : forallb (fun other =>
            bool_decide (Rule.skip other = Rule.skip rule) ||
            negb (bool_decide (Rule.name rule ∈ Rule.parts other))) rules = true ↔
          ∀ other, other ∈ rules →
            Rule.skip other = Rule.skip rule ∨ Rule.name rule ∉ Rule.parts other).
  { rewrite forallb_forall. split; intros H other Hin.
    - apply list_elem_of_In, H in Hin. apply orb_true_iff in Hin as [Hs|Hp].
      + left. by apply bool_decide_eq_true in Hs.
      + right. apply negb_true_iff in Hp. by apply bool_decide_eq_false in Hp.
    - apply list_elem_of_In, H in Hin. apply orb_true_iff. destruct Hin as [Hs|Hp].
      + left. by apply bool_decide_eq_true.
      + right. apply negb_true_iff. by apply bool_decide_eq_false. }
  assert (Hparts : existsb (fun p => bool_decide
            (is_Some ((inlineRules_scan rules preserve i).1 !! Term.name p))) (Rule.parts rule) = false ↔
          ∀ p j r, p ∈ Rule.parts rule → (j < i)%nat → rules !! j = Some r →
            selected rules preserve j = true → Term.name (Rule.name r) ≠ Term.name p).
  { rewrite <- not_true_iff_false, existsb_exists. split.
    - intros H p j r Hp Hj Hr Hs Hnm. apply H. exists p. split; [by apply list_elem_of_In |].
      apply bool_decide_eq_true. apply inlineRules_scan_dict. by exists j, r.
    - intros H (p & Hp & Hd). apply bool_decide_eq_true in Hd.
      apply inlineRules_scan_dict in Hd as (j & r & Hj & Hr & Hs & Hnm).
      by apply (H p j r); [apply list_elem_of_In | ..]. }
  assert (Hname : existsb (fun '(j, r) => bool_decide (j ≠ i) &&
            bool_decide (Rule.name r = Rule.name rule)) (imap pair rules) = false ↔
          ∀ j r, j ≠ i → rules !! j = Some r → Rule.name r ≠ Rule.name rule).
  { rewrite <- not_true_iff_false, existsb_exists. split.
    - intros H j r Hj Hr Hnm. apply H. exists (j, r). split.
      + apply list_elem_of_In, list_elem_of_lookup. exists j. by rewrite list_lookup_imap, Hr.
      + apply andb_true_iff. by rewrite !bool_decide_eq_true.
    - intros H ([j r] & Hin & Hb). apply andb_true_iff in Hb as [Hj Hnm].
      apply bool_decide_eq_true in Hj, Hnm.
      apply list_elem_of_In, list_elem_of_lookup in Hin as [k Hk].
      rewrite list_lookup_imap in Hk. destruct (rules !! k) eqn:Hrk; simplify_eq/=.
      by apply (H j r). }
  rewrite Hskip, Hparts, Hname. tauto.
Qed.

Lemma selected_iff_witness :
  selected InlineSamples.used_under_same_skip [] 0 = true ↔
  inlinable_code InlineSamples.used_under_same_skip [] 0
    (InlineSamples.rule "Pair" ["x"; "y"]).
Proof.
  apply (selected_iff InlineSamples.used_under_same_skip [] 0
           (InlineSamples.rule "Pair" ["x"; "y"])).
  reflexivity.
Defined.

(** C6, as stated, fails in both directions.  [Pair] has two terms and is
    used by another rule under the same skip, and it is selected; each
    alternative of [Atom] meets the condition of the specification, and
    neither is selected. *)
Lemma selected_not_as_claimed :
  (selected InlineSamples.used_under_same_skip [] 0 = true ∧
   ¬ inlinable_claimed InlineSamples.used_under_same_skip [] 0
       (InlineSamples.rule "Pair" ["x"; "y"])) ∧
  (selected InlineSamples.two_alternatives [] 0 = false ∧
   inlinable_claimed InlineSamples.two_alternatives [] 0 (InlineSamples.rule "Atom" ["x"])).
Proof.
  split; split.
  - by vm_compute.
  - intros (_ & _ & _ & _ & [Hlen | Hother]); [done |].
    apply (Hother 1%nat (InlineSamples.rule "Item" ["Pair"])); [done | done | done |].
    by left.
  - by vm_compute.
  - split; [done |]. split; [| split; [simpl; lia | split]].
    + intros Hin. apply list_elem_of_singleton in Hin. discriminate Hin.
    + intros Hin. by apply elem_of_nil in Hin.
    + by left.
Qed.

End Inline.

(** * The forced reduction of a state *)

Section ForcedReduce.
Import Build.
Variables ReduceFlag RepeatFlag StayFlag ReduceDepthShift : Z.








End ForcedReduce.



(** * Zero-length tokens *)

Section TokenizerFacts.
Import Build.
Context (TokState : Type) (compile : TokState → TokState)
  (accepting : TokState → list Term.t)
  (toArray : TokState → gmap Z Z → list Z → list Z) (posInfo : Z → string).

(** Without an accepting term in the compiled start state the data of the
    tokenizer is returned. *)
Lemma tokenizer_returns rules startState tokenMasks precedence :
  accepting (compile startState) = [] →
  tokenizer TokState compile accepting toArray posInfo rules startState tokenMasks precedence
  = Ok (toArray (compile startState) tokenMasks precedence).
Proof. intros Hacc. unfold tokenizer. by rewrite Hacc. Qed.

(** When the first accepting term has the name of a token rule, the error
    raised names it. *)
Lemma tokenizer_raises rules startState tokenMasks precedence first rest rule :
  accepting (compile startState) = first :: rest →
  List.find (fun r => bool_decide (rule_id_name r = Term.name first)) rules = Some rule →
  tokenizer TokState compile accepting toArray posInfo rules startState tokenMasks precedence
  = Err (Thrown (message posInfo
                   ("Grammar contains zero-length tokens (in '" +:+ Term.name first +:+ "')")
                   (rule_start rule))).
Proof. intros Hacc Hfind. unfold tokenizer. by rewrite Hacc, Hfind. Qed.

(** When no token rule has the name of the first accepting term, the
    lookup of the position fails before [raise] is called. *)
Lemma tokenizer_lookup_fails rules startState tokenMasks precedence first rest :
  accepting (compile startState) = first :: rest →
  List.find (fun r => bool_decide (rule_id_name r = Term.name first)) rules = None →
  tokenizer TokState compile accepting toArray posInfo rules startState tokenMasks precedence
  = Err TypeError.
Proof. intros Hacc Hfind. unfold tokenizer. by rewrite Hacc, Hfind. Qed.

End TokenizerFacts.

(** C9 (fails on the code).  The start state of the sample token set
    accepts the terminal [opt<digit>], made for a use of the parameterized
    token rule [opt]; no rule declaration has that name, and [tokenizer]
    ends with a [TypeError] instead of the error that names the token. *)
Theorem tokenizer_parameterized_zero_length :
  Build.tokenizer TokenSamples.TokState TokenSamples.compile TokenSamples.accepting
    TokenSamples.toArray TokenSamples.posInfo TokenSamples.rules TokenSamples.startState ∅ []
  = Err TypeError.
Proof. reflexivity. Qed.

(** * The comparators of terms, rules and items *)

Section Comparators.
Import Grammar Automaton.

Lemma js_or_opposite u u' v v' :
  opposite u u' → opposite v v' → opposite (u ||| v) (u' ||| v').
Proof. unfold opposite, js_or. intros. repeat case_decide; lia. Qed.

Lemma js_or_transitive3 u1 u2 u3 v1 v2 v3 :
  transitive3 u1 u2 u3 → transitive3 v1 v2 v3 →
  transitive3 (u1 ||| v1) (u2 ||| v2) (u3 ||| v3).
Proof. unfold transitive3, js_or. intros. repeat case_decide; lia. Qed.

Lemma consistent_lex {A} (P : A → Prop) (c1 c2 : A → A → Z) :
  consistent P c1 → consistent P c2 → consistent P (fun a b => c1 a b ||| c2 a b).
Proof.
  intros [Ho1 Ht1] [Ho2 Ht2]. split.
  - intros a b Ha Hb. by apply js_or_opposite; [apply Ho1 | apply Ho2].
  - intros a b c Ha Hb Hc. by apply js_or_transitive3; [apply Ht1 | apply Ht2].
Qed.

Lemma consistent_map {A B} (f : A → B) (P : B → Prop) (c : B → B → Z) :
  consistent P c → consistent (fun a => P (f a)) (fun a b => c (f a) (f b)).
Proof. intros [Ho Ht]. split; intros; [by apply Ho | by apply Ht]. Qed.

Lemma consistent_impl {A} (P Q : A → Prop) (c : A → A → Z) :
  (∀ a, Q a → P a) → consistent P c → consistent Q c.
Proof. intros HP [Ho Ht]. split; intros; [apply Ho | apply Ht]; by apply HP. Qed.

(** Two comparators that agree on [P] are consistent together. *)
Lemma consistent_ext {A} (P : A → Prop) (c c' : A → A → Z) :
  (∀ a b, P a → P b → c' a b = c a b) → consistent P c → consistent P c'.
Proof.
  intros Heq [Ho Ht]. split.
  - intros a b Ha Hb. rewrite !Heq by done. by apply Ho.
  - intros a b d Ha Hb Hd. rewrite !Heq by done. by apply Ht.
Qed.

Lemma consistent_diff {A} (P : A → Prop) (f : A → Z) :
  consistent P (fun a b => f a - f b).
Proof. split; intros; unfold opposite, transitive3; lia. Qed.

Lemma str_lt_spec (a b : string) :
  (a = b ∧ str_lt a b = false ∧ str_lt b a = false) ∨
  (a ≠ b ∧ str_lt a b = true ∧ str_lt b a = false) ∨
  (a ≠ b ∧ str_lt a b = false ∧ str_lt b a = true).
Proof.
  unfold str_lt.
  destruct (String_as_OT.compare_spec a b) as [Heq|Hlt|Hgt].
  - left. hnf in Heq. subst b. destruct (String_as_OT.compare_spec a a) as [_|Hlt|Hlt];
      [done | by apply StrictOrder_Irreflexive in Hlt..].
  - right. left. assert (a ≠ b) by (intros ->; by apply StrictOrder_Irreflexive in Hlt).
    destruct (String_as_OT.compare_spec b a) as [Heq|Hlt'|_]; [hnf in Heq; by subst | | done].
    exfalso. apply (StrictOrder_Irreflexive a). by etransitivity.
  - right. right. assert (a ≠ b) by (intros ->; by apply StrictOrder_Irreflexive in Hgt).
    destruct (String_as_OT.compare_spec b a) as [Heq|_|Hlt']; [hnf in Heq; by subst | done |].
    exfalso. apply (StrictOrder_Irreflexive a). by etransitivity.
Qed.

Lemma str_lt_trans (a b c : string) :
  str_lt a b = true → str_lt b c = true → str_lt a c = true.
Proof.
  unfold str_lt. intros Hab Hbc.
  destruct (String_as_OT.compare_spec a b) as [|Hab'|]; try done.
  destruct (String_as_OT.compare_spec b c) as [|Hbc'|]; try done.
  assert (Hac : String_as_OT.lt a c) by by etransitivity.
  unfold String_as_OT.lt in Hac. by rewrite Hac.
Qed.

Lemma consistent_cmpStr {A} (P : A → Prop) (f : A → string) :
  consistent P (fun a b => cmpStr (f a) (f b)).
Proof.
  apply (consistent_impl (fun _ => True)); [done |].
  apply (consistent_map f (fun _ => True) cmpStr).
  split.
  - intros a b _ _. unfold cmpStr, opposite.
    destruct (str_lt_spec a b) as [(? & -> & ->)|[(? & -> & ->)|(? & -> & ->)]];
      repeat case_decide; simplify_eq; lia.
  - intros a b c _ _ _. unfold cmpStr, transitive3.
    destruct (str_lt_spec a b) as [(? & Hab & Hba)|[(? & Hab & Hba)|(? & Hab & Hba)]];
    destruct (str_lt_spec b c) as [(? & Hbc & Hcb)|[(? & Hbc & Hcb)|(? & Hbc & Hcb)]];
    destruct (str_lt_spec a c) as [(? & Hac & Hca)|[(? & Hac & Hca)|(? & Hac & Hca)]];
    subst; rewrite ?Hab, ?Hbc, ?Hac; repeat case_decide;
    first [ lia | congruence
          | pose proof (str_lt_trans _ _ _ Hab Hbc); congruence
          | pose proof (str_lt_trans _ _ _ Hcb Hba); congruence ].
Qed.

(** [lexlist] on lists of values that satisfy [P]. *)
Lemma consistent_lexlist {A} (P : A → Prop) (c : A → A → Z) :
  consistent P c → consistent (Forall P) (lexlist c).
Proof.
  intros [Ho Ht]. split.
  - intros a. induction a as [|x a IH]; intros [|y b] Ha Hb; simpl;
      try (unfold opposite; lia).
    apply Forall_cons in Ha as [Hx Ha]. apply Forall_cons in Hb as [Hy Hb].
    apply js_or_opposite; [by apply Ho | by apply IH].
  - intros a. induction a as [|x a IH]; intros [|y b] [|z d] Ha Hb Hd; simpl;
      try (unfold transitive3; lia).
    apply Forall_cons in Ha as [Hx Ha]. apply Forall_cons in Hb as [Hy Hb].
    apply Forall_cons in Hd as [Hz Hd].
    apply js_or_transitive3; [by apply Ht | by apply IH].
Qed.

Lemma cmpSet_loop_lexlist {A} (c : A → A → Z) (a b : list A) :
  length a = length b → cmpSet_loop c (zip a b) = lexlist c a b.
Proof.
  revert b. induction a as [|x a IH]; intros [|y b] Hlen; try done.
  simpl. unfold js_or. case_decide; [| done]. apply IH. simpl in Hlen. lia.
Qed.

Lemma cmpSet_lexlist {A} (c : A → A → Z) (a b : list A) :
  cmpSet a b c = (Z.of_nat (length a) - Z.of_nat (length b)) ||| lexlist c a b.
Proof.
  unfold cmpSet, js_or. case_decide as Hlen.
  - rewrite decide_True by lia. by apply cmpSet_loop_lexlist.
  - by rewrite decide_False by lia.
Qed.

Lemma consistent_cmpSet {A} (P : A → Prop) (c : A → A → Z) :
  consistent P c → consistent (Forall P) (fun a b => cmpSet a b c).
Proof.
  intros Hc. eapply consistent_ext; [intros a b _ _; apply cmpSet_lexlist |].
  apply consistent_lex; [apply (consistent_diff _ (fun a => Z.of_nat (length a))) |].
  by apply consistent_lexlist.
Qed.

Lemma Term_cmp_cmpStr ts a b :
  names_unique ts → a ∈ ts → b ∈ ts →
  Term.cmp a b = cmpStr (Term.name a) (Term.name b).
Proof.
  intros Hu Ha Hb. unfold Term.cmp, cmpStr. case_decide as Heq.
  - subst b. by rewrite decide_True.
  - rewrite decide_False by (intros Hn; by apply Heq, Hu).
    unfold js_or. by destruct (str_lt _ _).
Qed.

Lemma Term_cmp_consistent ts :
  names_unique ts → consistent (fun t => t ∈ ts) Term.cmp.
Proof.
  intros Hu. eapply consistent_ext; [intros a b; by apply Term_cmp_cmpStr |].
  apply consistent_cmpStr.
Qed.

Lemma Precedence_cmp_consistent : consistent (fun _ => True) Precedence.cmp.
Proof.
  unfold Precedence.cmp. apply consistent_lex; [apply consistent_lex |].
  - apply (consistent_cmpStr _ (fun p => assoc_str (Precedence.associativity p))).
  - apply (consistent_cmpStr _ Precedence.group).
  - apply (consistent_diff _ Precedence.precedence).
Qed.

Lemma cmpParts_loop (a b : list Term.t) r :
  fold_left (fun r '(s, o) => r ||| Term.cmp s o) (zip a b) r
  = r ||| cmpSet_loop Term.cmp (zip a b).
Proof.
  revert b r. induction a as [|x a IH]; intros [|y b] r; simpl;
    try (unfold js_or; by case_decide).
  rewrite IH. unfold js_or. repeat case_decide; done || lia.
Qed.

Lemma Rule_cmp_lexlist (a b : Rule.t) :
  Rule.cmp a b =
  Term.cmp (Rule.name a) (Rule.name b)
  ||| (Z.of_nat (length (Rule.parts a)) - Z.of_nat (length (Rule.parts b)))
  ||| lexlist Term.cmp (Rule.parts a) (Rule.parts b)
  ||| (Z.of_nat (length (Rule.precedence a)) - Z.of_nat (length (Rule.precedence b))).
Proof.
  unfold Rule.cmp, Rule.cmpParts. rewrite cmpParts_loop.
  destruct (decide (length (Rule.parts a) = length (Rule.parts b))) as [Hlen|Hlen].
  - rewrite cmpSet_loop_lexlist by done. unfold js_or. by repeat case_decide.
  - unfold js_or. repeat case_decide; done || lia.
Qed.

Lemma Rule_cmp_consistent ts :
  names_unique ts → consistent (rule_in ts) Rule.cmp.
Proof.
  intros Hu. eapply consistent_ext; [intros a b _ _; apply Rule_cmp_lexlist |].
  pose proof (Term_cmp_consistent ts Hu) as Ht.
  repeat apply consistent_lex.
  - apply (consistent_impl (fun r => Rule.name r ∈ ts)); [by intros r [? _] |].
    apply (consistent_map Rule.name _ _ Ht).
  - apply (consistent_diff _ (fun r => Z.of_nat (length (Rule.parts r)))).
  - apply (consistent_impl (fun r => Forall (fun t => t ∈ ts) (Rule.parts r)));
      [by intros r [_ ?] |].
    apply (consistent_map Rule.parts _ _ (consistent_lexlist _ _ Ht)).
  - apply (consistent_diff _ (fun r => Z.of_nat (length (Rule.precedence r)))).
Qed.

Lemma Pos_cmpSimple_consistent ts :
  names_unique ts → consistent (item_in ts) Pos.cmpSimple.
Proof.
  intros Hu. unfold Pos.cmpSimple. apply consistent_lex.
  - apply (consistent_impl (fun p => rule_in ts (Pos.rule p))); [by intros p [? _] |].
    apply (consistent_map Pos.rule _ _ (Rule_cmp_consistent ts Hu)).
  - apply (consistent_diff _ (fun p => Z.of_nat (Pos.pos p))).
Qed.

(** The canonical comparator of items is consistent on the items of a
    grammar whose terms have unique names. *)
Lemma Pos_cmp_consistent ts :
  names_unique ts → consistent (item_in ts) Pos.cmp.
Proof.
  intros Hu. unfold Pos.cmp. apply consistent_lex; [apply consistent_lex |].
  - by apply Pos_cmpSimple_consistent.
  - apply (consistent_impl (fun p => Pos.ahead p ∈ ts)); [by intros p [_ ?] |].
    apply (consistent_map Pos.ahead _ _ (Term_cmp_consistent ts Hu)).
  - apply (consistent_impl (fun p => Forall (fun _ => True) (Pos.prec p))).
    { intros p _. by apply Forall_true. }
    apply (consistent_map Pos.prec _ (fun a b => cmpSet a b Precedence.cmp)).
    apply consistent_cmpSet, Precedence_cmp_consistent.
Qed.

(** ** Sorting *)

Lemma sort_insert_perm {A} (c : A → A → Z) x l : sort_insert c x l ≡ₚ x :: l.
Proof.
  induction l as [|y l IH]; simpl; [done |].
  case_decide; [done |]. rewrite IH. apply Permutation_swap.
Qed.

Lemma sort_perm {A} (c : A → A → Z) l : sort c l ≡ₚ l.
Proof.
  unfold sort. rewrite <- (reverse_Permutation l) at 2.
  induction (reverse l) as [|x l' IH]; simpl; [done |].
  by rewrite sort_insert_perm, IH.
Qed.

Lemma sort_insert_sorted {A} (P : A → Prop) (c : A → A → Z) x l :
  consistent P c → P x → Forall P l →
  StronglySorted (cmp_le c) l → StronglySorted (cmp_le c) (sort_insert c x l).
Proof.
  intros [Ho Ht] Hx Hl Hs. induction Hs as [|y l Hs IH Hy]; simpl.
  - by repeat constructor.
  - apply Forall_cons in Hl as [HPy Hl]. case_decide as Hlt.
    + constructor; [by constructor |]. constructor; [unfold cmp_le; lia |].
      rewrite Forall_forall in Hy, Hl |- *. intros z Hz. unfold cmp_le in *.
      specialize (Hy z Hz). specialize (Hl z Hz).
      destruct (Ht x y z Hx HPy Hl) as (_ & _ & H3 & _). lia.
    + constructor; [by apply IH |].
      rewrite sort_insert_perm. constructor; [| done].
      unfold cmp_le. destruct (Ho x y Hx HPy) as [H1 H2]. lia.
Qed.

(** [sort] returns a list sorted for the comparator when the comparator is
    consistent on the elements. *)
Lemma sort_sorted {A} (P : A → Prop) (c : A → A → Z) l :
  consistent P c → Forall P l → StronglySorted (cmp_le c) (sort c l).
Proof.
  intros Hc Hl. unfold sort.
  assert (Hr : Forall P (reverse l)) by by rewrite reverse_Permutation.
  induction (reverse l) as [|x l' IH]; simpl; [constructor |].
  apply Forall_cons in Hr as [Hx Hr].
  apply (sort_insert_sorted P); [done | done | | by apply IH].
  clear IH. induction l' as [|y l' IH]; simpl; [constructor |].
  apply Forall_cons in Hr as [Hy Hr]. rewrite sort_insert_perm. constructor; [done | by apply IH].
Qed.

End Comparators.

(** * Closure of an item set *)

Section Closure.
Import Grammar Automaton.
Variables (ts : list Term.t) (rules : list Rule.t) (first : FirstTable).
Hypothesis Hunique : names_unique ts.
Hypothesis Hfirst : first_in ts first.
Hypothesis Hrules : ∀ r, r ∈ rules → rule_in ts r ∧ first_covers first r.

Lemma add_Forall {A} `{EqDecision A} (P : A → Prop) (x : A) (l : list A) :
  Forall P l → P x → Forall P (add x l).
Proof.
  intros Hl Hx. unfold add. case_decide; [done |]. apply Forall_app. by repeat constructor.
Qed.

Lemma termsAhead_inner_in src acc :
  Forall (fun t => t ∈ ts) acc.1 → (∀ t, Some t ∈ src → t ∈ ts) →
  Forall (fun t => t ∈ ts)
    (fold_left (fun '(found, cont) term =>
       match term with
       | None => (found, true)
       | Some term => (add term found, cont)
       end) src acc).1.
Proof.
  revert acc. induction src as [|[t|] src IH]; intros [found cont] Hacc Hsrc; simpl; [done | |].
  - apply IH; [| intros t' ?; apply Hsrc; by right].
    simpl. apply add_Forall; [done |]. apply Hsrc. by left.
  - apply IH; [done | intros t' ?; apply Hsrc; by right].
Qed.

Lemma termsAhead_loop_ok rest ahead found :
  Forall (fun t => t ∈ ts) rest →
  (∀ t, t ∈ rest → Term.terminal t = false → is_Some (first !! Term.name t)) →
  ahead ∈ ts → Forall (fun t => t ∈ ts) found →
  ∃ l, Pos.termsAhead_loop first rest ahead found = Ok l ∧ Forall (fun t => t ∈ ts) l.
Proof.
  revert found. induction rest as [|next rest IH]; intros found Hrest Hcov Hahead Hfound; simpl.
  - eexists. split; [done |]. by apply add_Forall.
  - apply Forall_cons in Hrest as [Hnext Hrest].
    assert (Hsrc : ∃ src, (if Term.terminal next then Ok [Some next]
                           else must (first !! Term.name next)) = Ok src ∧
                          ∀ t, Some t ∈ src → t ∈ ts).
    { destruct (Term.terminal next) eqn:Hterm.
      - eexists. split; [done |]. intros t Ht. apply list_elem_of_singleton in Ht. by simplify_eq.
      - destruct (Hcov next) as [src Hsrc]; [by left | done |].
        exists src. rewrite Hsrc. split; [done |]. intros t Ht. by eapply Hfirst. }
    destruct Hsrc as (src & -> & Hsrc). simpl.
    pose proof (termsAhead_inner_in src (found, false) Hfound Hsrc) as Hin.
    unfold Pos.termsAhead_inner.
    destruct (fold_left _ src (found, false)) as [found' cont]. simpl in Hin.
    destruct cont; [| by eexists].
    apply IH; [done | | done | done]. intros t Ht. apply Hcov. by right.
Qed.

Lemma termsAhead_ok p :
  item_in ts p → first_covers first (Pos.rule p) →
  ∃ l, Pos.termsAhead p first = Ok l ∧ Forall (fun t => t ∈ ts) l.
Proof.
  intros [[_ Hparts] Hahead] Hcov. unfold Pos.termsAhead.
  apply termsAhead_loop_ok; [by apply Forall_drop | | done | constructor].
  intros t Ht. apply Hcov. rewrite <- (take_drop (Pos.pos p + 1)). apply elem_of_app. by right.
Qed.

Lemma closure_push_inv set result rule a nextPrec :
  closure_inv ts rules set result → rule ∈ rules → a ∈ ts →
  closure_inv ts rules set (closure_push result rule a nextPrec).
Proof.
  intros (derived & -> & Hfresh & Hall & Hnd) Hrule Ha. unfold closure_push.
  destruct (existsb _ _) eqn:Hex; [by exists derived |].
  assert (Hno : ∀ p, p ∈ set ++ derived →
            ¬ (Pos.rule p = rule ∧ Pos.pos p = 0%nat ∧ Pos.ahead p = a)).
  { intros p Hp (H1 & H2 & H3). apply not_true_iff_false in Hex. apply Hex.
    apply existsb_exists. exists p. split; [by apply list_elem_of_In |].
    by rewrite !andb_true_iff, !bool_decide_eq_true. }
  exists (derived ++ [Pos.mk rule 0 a nextPrec]). split; [by rewrite app_assoc |].
  split; [| split].
  - intros i x Hi. destruct (decide (i < length derived)%nat) as [Hlt|Hge].
    + rewrite lookup_app_l in Hi by done. rewrite take_app_le by lia. by apply Hfresh.
    + rewrite lookup_app_r in Hi by lia.
      destruct (i - length derived)%nat as [|n] eqn:Hd; [| by destruct n].
      simpl in Hi. injection Hi as <-.
      assert (i = length derived) as -> by lia.
      rewrite take_app_length. intros Hin. by apply (Hno _ Hin).
  - apply Forall_app. split; [done |]. by repeat constructor.
  - rewrite fmap_app. apply NoDup_app. split; [done |]. split; [| by apply NoDup_singleton].
    intros k Hk Hk'. apply list_elem_of_singleton in Hk'. subst k.
    apply list_elem_of_fmap in Hk as (p & Hkey & Hp).
    rewrite Forall_forall in Hall. destruct (Hall p Hp) as (Hpos & _).
    apply (Hno p); [apply elem_of_app; by right |].
    unfold item_key in Hkey. by simplify_eq.
Qed.

(** The test before the push compares rule, dot and lookahead: an item
    that differs from an existing one in its precedences only is not
    pushed either. *)
Lemma closure_push_same_core result rule a nextPrec prec :
  Pos.mk rule 0 a prec ∈ result → closure_push result rule a nextPrec = result.
Proof.
  intros Hin. unfold closure_push.
  replace (existsb _ result) with true; [done |]. symmetry.
  apply existsb_exists. exists (Pos.mk rule 0 a prec). split; [by apply list_elem_of_In |].
  simpl. by rewrite !bool_decide_eq_true_2.
Qed.

Lemma closure_expand_fold set next nextPrec ahead rs :
  Forall (fun t => t ∈ ts) ahead → (∀ r, r ∈ rs → r ∈ rules) →
  ∀ result, closure_inv ts rules set result →
  closure_inv ts rules set
    (fold_left (fun result rule =>
       if decide (Rule.name rule = next)
       then fold_left (fun result a => closure_push result rule a nextPrec) ahead result
       else result) rs result).
Proof.
  intros Hahead. induction rs as [|rule rs IH]; intros Hsub result Hinv; simpl; [done |].
  apply IH; [intros r ?; apply Hsub; by right |].
  case_decide; [| done].
  assert (Hrule : rule ∈ rules) by (apply Hsub; by left).
  clear IH Hsub. revert result Hinv.
  induction Hahead as [|a ahead Ha _ IHa]; intros result Hinv; simpl; [done |].
  apply IHa. by apply closure_push_inv.
Qed.

Lemma closure_expand_inv set result next nextPrec ahead :
  closure_inv ts rules set result → Forall (fun t => t ∈ ts) ahead →
  closure_inv ts rules set (closure_expand rules next nextPrec ahead result).
Proof. intros Hinv Hahead. by apply closure_expand_fold. Qed.

Section Kernel.
Variable set : list Pos.t.
Hypothesis Hset : ∀ q, q ∈ set → item_in ts q ∧ first_covers first (Pos.rule q).

Lemma closure_inv_items result :
  closure_inv ts rules set result →
  ∀ q, q ∈ result → item_in ts q ∧ first_covers first (Pos.rule q).
Proof.
  intros (derived & -> & _ & Hall & _) q Hq. apply elem_of_app in Hq as [Hq|Hq]; [by apply Hset |].
  rewrite Forall_forall in Hall. destruct (Hall q Hq) as (_ & Hr & Ha).
  destruct (Hrules _ Hr) as [Hin Hcov]. split; [by split | done].
Qed.

Lemma closure_step_ok pos result :
  closure_inv ts rules set result → pos ∈ result →
  ∃ result', closure_step rules first pos result = Ok result' ∧
             closure_inv ts rules set result'.
Proof.
  intros Hinv Hpos. unfold closure_step.
  destruct (Pos.next pos) as [next|]; [| by eexists].
  destruct (Term.terminal next); [by eexists |].
  destruct (closure_inv_items result Hinv pos Hpos) as [Hitem Hcov].
  destruct (termsAhead_ok pos Hitem Hcov) as (ahead & -> & Hahead). simpl.
  eexists. split; [done |]. by apply closure_expand_inv.
Qed.

Lemma closure_inv_length result :
  closure_inv ts rules set result →
  (length result ≤ length set + length rules * length ts)%nat.
Proof.
  intros (derived & -> & _ & Hall & Hnd). rewrite length_app.
  apply Nat.add_le_mono_l. rewrite <- length_prod, <- (length_fmap item_key derived).
  apply submseteq_length, NoDup_submseteq; [done |].
  intros [r a] Hk. apply list_elem_of_fmap in Hk as (p & Hkey & Hp).
  rewrite Forall_forall in Hall. destruct (Hall p Hp) as (_ & Hr & Ha).
  unfold item_key in Hkey. simplify_eq.
  apply list_elem_of_In, in_prod; by apply list_elem_of_In.
Qed.

(** The loop ends within the bound and keeps the invariant. *)
Lemma closure_loop_ok fuel i result :
  closure_inv ts rules set result →
  (length set + length rules * length ts ≤ fuel + i)%nat →
  ∃ result', closure_loop fuel rules first i result = Ok result' ∧
             closure_inv ts rules set result'.
Proof.
  revert i result. induction fuel as [|fuel IH]; intros i result Hinv Hfuel.
  - pose proof (closure_inv_length result Hinv) as Hlen. simpl.
    rewrite (lookup_ge_None_2 result i) by lia. by eexists.
  - simpl. destruct (result !! i) as [pos|] eqn:Hi; [| by eexists].
    destruct (closure_step_ok pos result Hinv) as (result' & -> & Hinv').
    { apply list_elem_of_lookup. eauto. }
    simpl. apply IH; [done | lia].
Qed.


End Kernel.

End Closure.


(** Decidable forms of the conditions on a grammar. *)
Lemma names_unique_NoDup ts : NoDup (Grammar.Term.name <$> ts) → names_unique ts.
Proof.
  intros Hnd a b Ha Hb Hname.
  apply list_elem_of_lookup in Ha as [i Hi]. apply list_elem_of_lookup in Hb as [j Hj].
  assert (i = j) as ->.
  { eapply NoDup_lookup; [exact Hnd | |]; rewrite list_lookup_fmap.
    - by rewrite Hi.
    - by rewrite Hj, Hname. }
  congruence.
Qed.

Lemma first_in_Forall ts (first : Automaton.FirstTable) :
  map_Forall (fun _ l => Forall (fun t => t ∈ ts) (omap id l)) first →
  first_in ts first.
Proof.
  intros Hall k l t Hk Ht. specialize (Hall k l Hk).
  rewrite Forall_forall in Hall. apply Hall. apply list_elem_of_omap. by exists (Some t).
Qed.

Lemma first_covers_Forall (first : Automaton.FirstTable) r :
  Forall (fun t => Grammar.Term.terminal t = false → is_Some (first !! Grammar.Term.name t))
    (Grammar.Rule.parts r) →
  first_covers first r.
Proof. intros Hall t Ht. rewrite Forall_forall in Hall. by apply Hall. Qed.

Lemma rule_in_Forall ts r :
  Forall (fun t => t ∈ ts) (Grammar.Rule.name r :: Grammar.Rule.parts r) → rule_in ts r.
Proof. intros Hall. by apply Forall_cons in Hall. Qed.

(** A decidable proposition holds when its decision procedure says so. *)
Ltac by_decision := apply (bool_decide_unpack _); by vm_compute.


Example closure_kernel :
  Automaton.closure 19 SmallGrammar.kernel SmallGrammar.rules SmallGrammar.first
  = Ok [Automaton.Pos.mk SmallGrammar.A_empty 0 SmallGrammar.b [];
        Automaton.Pos.mk SmallGrammar.A_a 0 SmallGrammar.b [];
        Automaton.Pos.mk SmallGrammar.top 0 SmallGrammar.eof []].
Proof. by vm_compute. Qed.
(** * FIRST sets *)

Section AddFacts.
Context {A : Type} `{EqDecision A}.

Lemma add_prefix (x : A) l : l `prefix_of` add x l.
Proof. unfold add. case_decide; [done | by apply prefix_app_r]. Qed.

Lemma elem_of_add (x y : A) l : y ∈ add x l ↔ y = x ∨ y ∈ l.
Proof.
  unfold add. case_decide as Hin.
  - split; [by right | intros [->|?]; done].
  - rewrite elem_of_app, list_elem_of_singleton. tauto.
Qed.

Lemma add_NoDup (x : A) l : NoDup l → NoDup (add x l).
Proof.
  intros Hnd. unfold add. case_decide as Hin; [done |].
  apply NoDup_app. split; [done |]. split; [| by apply NoDup_singleton].
  intros y Hy Hy'. apply list_elem_of_singleton in Hy'. by subst.
Qed.

Lemma add_fixed (x : A) l : add x l = l → x ∈ l.
Proof.
  unfold add. case_decide; [done |]. intros Heq.
  apply (f_equal length) in Heq. rewrite length_app in Heq. simpl in Heq. lia.
Qed.

Lemma prefix_same_length (l k : list A) : l `prefix_of` k → (length k ≤ length l)%nat → k = l.
Proof.
  intros [m ->] Hlen. rewrite length_app in Hlen.
  destruct m; [by rewrite app_nil_r | simpl in Hlen; lia].
Qed.

End AddFacts.

Section FirstSteps.
Import Grammar Automaton.

(** The loop over [table[part.name]]. *)
Lemma computeFirst_inner_spec (src : list (option Term.t)) (acc : list (option Term.t) * bool) :
  let r := fold_left (fun '(set, found) t =>
             match t with
             | None => (set, false)
             | Some t => (add (Some t) set, found)
             end) src acc in
  acc.1 `prefix_of` r.1 ∧
  (r.2 = true ↔ acc.2 = true ∧ None ∉ src) ∧
  (∀ t, Some t ∈ src → Some t ∈ r.1) ∧
  (∀ x, x ∈ r.1 → x ∈ acc.1 ∨ (x ≠ None ∧ x ∈ src)) ∧
  (NoDup acc.1 → NoDup r.1).
Proof.
  revert acc. induction src as [|[t|] src IH]; intros [set found]; simpl.
  - split; [done |].
    split; [split; [intros ->; split; [done | apply not_elem_of_nil] | by intros [? _]] |].
    split; [intros t Ht; by apply elem_of_nil in Ht |].
    split; [intros x ?; by left | done].
  - destruct (IH (add (Some t) set, found)) as (Hp & Hf & Hs & Hx & Hn). simpl in *.
    split; [etransitivity; [apply add_prefix | exact Hp] |].
    split; [rewrite Hf, not_elem_of_cons; split;
              [intros [? ?]; by repeat split | intros (? & _ & ?); by split] |].
    split.
    { intros t' Ht'. apply elem_of_cons in Ht' as [Heq|Ht']; [| by apply Hs].
      injection Heq as ->. destruct Hp as [m ->]. apply elem_of_app. left.
      apply elem_of_add. by left. }
    split.
    { intros x Hin. destruct (Hx x Hin) as [Ha|[Hne Hin']].
      - apply elem_of_add in Ha as [->|Ha]; [right; split; [done | by left] | by left].
      - right. split; [done | by right]. }
    intros Hnd. by apply Hn, add_NoDup.
  - destruct (IH (set, false)) as (Hp & Hf & Hs & Hx & Hn). simpl in *.
    split; [done |].
    split; [rewrite Hf; split; [by intros [? _] | intros [_ Hnin]; exfalso; apply Hnin; by left] |].
    split.
    { intros t' Ht'. apply elem_of_cons in Ht' as [Heq|Ht']; [done | by apply Hs]. }
    split; [| done].
    intros x Hin. destruct (Hx x Hin) as [Ha|[Hne Hin']]; [by left |].
    right. split; [done | by right].
Qed.

End FirstSteps.

Section Derivations.
Import Grammar Automaton.
Variable rules : list Rule.t.

Lemma derive_step_context u v w w' :
  derive_step rules w w' → derive_step rules (u ++ w ++ v) (u ++ w' ++ v).
Proof.
  intros [u0 v0 r Hr].
  replace (u ++ (u0 ++ Rule.name r :: v0) ++ v)
    with ((u ++ u0) ++ Rule.name r :: (v0 ++ v)) by by rewrite <- !app_assoc.
  replace (u ++ (u0 ++ Rule.parts r ++ v0) ++ v)
    with ((u ++ u0) ++ Rule.parts r ++ (v0 ++ v)) by by rewrite <- !app_assoc.
  by constructor.
Qed.

Lemma derives_context u v w w' :
  derives rules w w' → derives rules (u ++ w ++ v) (u ++ w' ++ v).
Proof.
  induction 1 as [|w1 w2 w3 Hstep _ IH]; [apply rtc_refl |].
  eapply rtc_l; [by apply derive_step_context | exact IH].
Qed.

Lemma derives_nil_app a b :
  derives rules a [] → derives rules b [] → derives rules (a ++ b) [].
Proof.
  intros Ha Hb. etransitivity; [| exact Hb].
  apply (derives_context [] b a []) in Ha. by rewrite !app_nil_l in Ha.
Qed.

Lemma derives_rule r :
  r ∈ rules → derives rules [Rule.name r] (Rule.parts r).
Proof.
  intros Hr. apply rtc_once.
  pose proof (derive_rule rules [] [] r Hr) as Hstep.
  by rewrite app_nil_r in Hstep.
Qed.

End Derivations.

Section FirstInvariant.
Import Grammar Automaton.
Variables (rules : list Rule.t) (nonTerminals : list Term.t).
Hypothesis Hok : grammar_ok rules nonTerminals.

Lemma nonTerminal_by_name N N' :
  N ∈ nonTerminals → N' ∈ nonTerminals → Term.name N = Term.name N' → N = N'.
Proof. destruct Hok as (Hnd & _). by apply names_unique_NoDup. Qed.

Lemma first_inv_insert table k set' :
  first_inv rules nonTerminals table → is_Some (table !! k) →
  NoDup set' → set' ⊆ first_universe rules →
  (None ∈ set' → ∀ N, N ∈ nonTerminals → Term.name N = k → derives rules [N] []) →
  first_inv rules nonTerminals (<[k := set']> table).
Proof.
  intros (I1 & I2 & I3) Hk Hnd Hsub Hnull. split; [| split].
  - intros N HN. rewrite lookup_insert. case_decide; [done | by apply I1].
  - intros k' l. rewrite lookup_insert. case_decide; [| by apply I2].
    intros [= <-]. done.
  - intros N l HN. rewrite lookup_insert. case_decide as Hname; [| by apply I3].
    intros [= <-] Hnone. by apply Hnull.
Qed.

Lemma part_in_universe r t : r ∈ rules → t ∈ Rule.parts r → Some t ∈ first_universe rules.
Proof.
  intros Hr Ht. right. apply list_elem_of_fmap. exists t. split; [done |].
  apply list_elem_of_join. exists (Rule.parts r). split; [done |].
  apply list_elem_of_fmap. by exists r.
Qed.

(** The loop over the parts of a rule, started with [set] in [table[name]]. *)
Lemma computeFirst_parts_spec name parts :
  ∀ table set,
  first_inv rules nonTerminals table → table !! name = Some set →
  Forall (fun t => Some t ∈ first_universe rules) parts →
  Forall (fun t => Term.terminal t = false → t ∈ nonTerminals) parts →
  ∃ table' found set',
    computeFirst_parts name parts table = Ok (table', found) ∧
    table' = <[name := set']> table ∧ set `prefix_of` set' ∧
    NoDup set' ∧ set' ⊆ first_universe rules ∧ (None ∈ set' → None ∈ set) ∧
    (found = false → derives rules parts []) ∧
    (set' = set →
     (∀ t, FirstSeq table parts t → Some t ∈ set) ∧
     (NullSeq table parts → found = false)).
Proof.
  induction parts as [|part parts IH]; intros table set Hinv Hset Huniv Hnts.
  - exists table, false, set. simpl. destruct Hinv as (_ & I2 & _).
    destruct (I2 _ _ Hset) as [Hnd Hsub].
    split; [done |]. split; [by rewrite insert_id |]. split; [done |].
    split; [done |]. split; [done |]. split; [done |]. split; [intros _; apply rtc_refl |].
    intros _. split; [intros t Ht; inversion Ht | done].
  - apply Forall_cons in Huniv as [Hpu Huniv]. apply Forall_cons in Hnts as [Hpn Hnts].
    pose proof Hinv as (I1 & I2 & I3). destruct (I2 _ _ Hset) as [Hnd Hsub].
    simpl. rewrite Hset. simpl.
    destruct (Term.terminal part) eqn:Hterm; simpl.
    + exists (<[name := add (Some part) set]> table), true, (add (Some part) set).
      split; [done |]. split; [done |]. split; [apply add_prefix |].
      split; [by apply add_NoDup |].
      split; [intros x Hx; apply elem_of_add in Hx as [->|Hx]; [done | by apply Hsub] |].
      split; [intros Hx; by apply elem_of_add in Hx as [?|Hx] |].
      split; [done |]. intros Hfix. apply add_fixed in Hfix. split.
      * intros t Ht. inversion Ht; simplify_eq; [done | congruence | congruence].
      * intros HN. apply Forall_cons in HN as [[HN _] _]. congruence.
    + destruct (I1 part (Hpn eq_refl)) as [src Hsrc]. rewrite Hsrc. simpl.
      pose proof (computeFirst_inner_spec src (set, true)) as Hinner.
      unfold computeFirst_inner.
      destruct (fold_left _ src (set, true)) as [set1 found1]. simpl in Hinner.
      destruct Hinner as (Hp1 & Hf1 & Hs1 & Hx1 & Hn1).
      destruct (I2 _ _ Hsrc) as [_ Hsrcsub].
      assert (Hsub1 : set1 ⊆ first_universe rules).
      { intros x Hx. destruct (Hx1 x Hx) as [?|[_ ?]]; [by apply Hsub | by apply Hsrcsub]. }
      assert (Hnone1 : None ∈ set1 → None ∈ set).
      { intros Hx. by destruct (Hx1 _ Hx) as [?|[? _]]. }
      destruct found1.
      * exists (<[name := set1]> table), true, set1.
        split; [done |]. split; [done |]. split; [done |]. split; [by apply Hn1 |].
        split; [done |]. split; [done |]. split; [done |].
        intros ->. destruct (proj1 Hf1 eq_refl) as [_ Hnin]. split.
        -- intros t Ht. inversion Ht; simplify_eq; [congruence | by apply Hs1 | done].
        -- intros HN. apply Forall_cons in HN as [[_ (l & Hl & Hnone)] _]. by simplify_eq.
      * assert (Hnone : None ∈ src).
        { destruct (decide (None ∈ src)) as [|Hnin]; [done |].
          discriminate (proj2 Hf1 (conj eq_refl Hnin)). }
        assert (Hinv1 : first_inv rules nonTerminals (<[name := set1]> table)).
        { apply first_inv_insert; [done | by rewrite Hset | by apply Hn1 | done |].
          intros Hx N HN Hname. subst name. by apply (I3 N set); [| | apply Hnone1]. }
        destruct (IH (<[name := set1]> table) set1 Hinv1) as
          (table' & found & set' & Hrun & -> & Hp' & Hnd' & Hsub' & Hnone' & Hder & Hfix);
          [by rewrite lookup_insert_eq | done | done |].
        exists (<[name := set']> table), found, set'.
        split; [by rewrite Hrun, insert_insert_eq |]. split; [done |].
        split; [by etransitivity |]. split; [done |]. split; [done |].
        split; [by intros ?; apply Hnone1, Hnone' |].
        split.
        { intros Hfound. apply (derives_nil_app rules [part] parts); [| by apply Hder].
          by apply (I3 part src); [apply Hpn | |]. }
        intros ->.
        assert (set1 = set) as ->.
        { apply prefix_same_length; [done |]. by apply prefix_length. }
        rewrite insert_id in Hfix by done. destruct (Hfix eq_refl) as [Hfirst Hnull]. split.
        -- intros t Ht. inversion Ht; simplify_eq; [congruence | by apply Hs1 | by apply Hfirst].
        -- intros HN. apply Forall_cons in HN as [_ HN]. by apply Hnull.
Qed.

(** The body of the loop over the rules. *)
Lemma computeFirst_rule_spec r table :
  r ∈ rules → first_inv rules nonTerminals table →
  ∃ table' grew set set',
    computeFirst_rule r table = Ok (table', grew) ∧
    table !! Term.name (Rule.name r) = Some set ∧
    table' = <[Term.name (Rule.name r) := set']> table ∧ set `prefix_of` set' ∧
    first_inv rules nonTerminals table' ∧
    (grew = true → (length set < length set')%nat) ∧
    (grew = false →
     table' = table ∧
     (∀ t, FirstSeq table (Rule.parts r) t → Some t ∈ set) ∧
     (NullSeq table (Rule.parts r) → None ∈ set)).
Proof.
  intros Hr Hinv. pose proof Hinv as (I1 & I2 & I3).
  destruct Hok as (Hnames & Hnt & Hrules). rewrite Forall_forall in Hrules.
  destruct (Hrules r Hr) as [Hname Hparts].
  destruct (I1 _ Hname) as [set Hset]. destruct (I2 _ _ Hset) as [Hnd Hsub].
  destruct (computeFirst_parts_spec (Term.name (Rule.name r)) (Rule.parts r) table set)
    as (table1 & found & set1 & Hrun & -> & Hp1 & Hnd1 & Hsub1 & Hnone1 & Hder & Hfix);
    [done | done | | done |].
  { apply Forall_forall. intros t Ht. by apply (part_in_universe r). }
  set (final := if found then set1 else add None set1).
  assert (Hpf : set1 `prefix_of` final) by (unfold final; destruct found; [done | apply add_prefix]).
  assert (Hndf : NoDup final) by (unfold final; destruct found; [done | by apply add_NoDup]).
  assert (Hsubf : final ⊆ first_universe rules).
  { unfold final. destruct found; [done |]. intros x Hx.
    apply elem_of_add in Hx as [->|Hx]; [by left | by apply Hsub1]. }
  assert (Hnullf : None ∈ final → ∀ N, N ∈ nonTerminals →
                   Term.name N = Term.name (Rule.name r) → derives rules [N] []).
  { intros Hx N HN Hnm. assert (N = Rule.name r) as -> by by apply nonTerminal_by_name.
    destruct (decide (None ∈ set1)) as [Hin|Hnin]; [by apply (I3 _ set); [| | apply Hnone1] |].
    unfold final in Hx. destruct found; [done |].
    etransitivity; [by apply derives_rule | by apply Hder]. }
  exists (<[Term.name (Rule.name r) := final]> table),
         (bool_decide (length set < length final)%nat), set, final.
  split.
  { unfold computeFirst_rule. rewrite Hset. simpl. rewrite Hrun. simpl.
    rewrite lookup_insert_eq. simpl. by rewrite insert_insert_eq. }
  split; [done |]. split; [done |]. split; [by etransitivity |].
  split; [apply first_inv_insert; by rewrite ?Hset |].
  split; [by intros ?%bool_decide_eq_true |].
  intros Hgrew%bool_decide_eq_false.
  assert (final = set) as Hfs.
  { apply prefix_same_length; [by etransitivity | lia]. }
  assert (set1 = set) as ->.
  { apply prefix_same_length; [done |]. rewrite <- Hfs at 1. by apply prefix_length. }
  destruct (Hfix eq_refl) as [Hfirst Hnull].
  split; [by rewrite Hfs, insert_id |]. split; [done |].
  intros HN. specialize (Hnull HN). subst found. unfold final in Hfs. by apply add_fixed.
Qed.

(** The size of the table grows with the arrays. *)
Lemma first_size_insert (table : FirstTable) N0 set set' l :
  table !! Term.name N0 = Some set → set `prefix_of` set' →
  (first_size l table ≤ first_size l (<[Term.name N0 := set']> table))%nat ∧
  (N0 ∈ l →
   (first_size l table + (length set' - length set)
    ≤ first_size l (<[Term.name N0 := set']> table))%nat).
Proof.
  intros Hset Hp. apply prefix_length in Hp as Hlen. unfold first_size.
  induction l as [|N l [IH1 IH2]]; simpl; [split; [done | by intros ?%elem_of_nil] |].
  assert (Hone : (length (default [] (table !! Term.name N))
                  ≤ length (default [] (<[Term.name N0 := set']> table !! Term.name N)))%nat ∧
                 (N = N0 →
                  (length (default [] (table !! Term.name N)) + (length set' - length set)
                   ≤ length (default [] (<[Term.name N0 := set']> table !! Term.name N)))%nat)).
  { rewrite lookup_insert. case_decide as Hnm.
    - rewrite <- Hnm, Hset. simpl. split; [done | lia].
    - split; [done |]. intros ->. done. }
  destruct Hone as [H1 H2]. change (list_fmap Term.t nat) with (@fmap list _ Term.t nat).
  split; [lia |].
  intros [->|Hin]%elem_of_cons; [specialize (H2 eq_refl); lia | specialize (IH2 Hin); lia].
Qed.

Lemma first_size_bound table :
  first_inv rules nonTerminals table →
  (first_size nonTerminals table ≤ length nonTerminals * length (first_universe rules))%nat.
Proof.
  intros (_ & I2 & _). unfold first_size. clear Hok.
  generalize (first_universe rules) I2. intros U HU.
  induction nonTerminals as [|N l IH]; [done |].
  rewrite fmap_cons. cbn [sum_list sum_list_with length Nat.mul].
  assert ((length (default [] (table !! Term.name N)) ≤ length U)%nat).
  { destruct (table !! Term.name N) as [set|] eqn:Hset; simpl; [| lia].
    destruct (HU _ _ Hset) as [Hnd Hsub]. by apply submseteq_length, NoDup_submseteq. }
  unfold id in *. lia.
Qed.

(** One pass over the rules. *)
Lemma computeFirst_pass_spec rs :
  ∀ table change,
  (∀ r, r ∈ rs → r ∈ rules) → first_inv rules nonTerminals table →
  ∃ table' change',
    foldlM (fun '(table, change) rule =>
      let* (table, grew) := computeFirst_rule rule table in
      Ok (table, if grew then true else change)) rs (table, change)
    = Ok (table', change') ∧
    first_inv rules nonTerminals table' ∧
    (first_size nonTerminals table ≤ first_size nonTerminals table')%nat ∧
    (change' = true → change = false →
     (first_size nonTerminals table < first_size nonTerminals table')%nat) ∧
    (change' = false →
     change = false ∧ table' = table ∧
     ∀ r, r ∈ rs →
       ∃ set, table !! Term.name (Rule.name r) = Some set ∧
         (∀ t, FirstSeq table (Rule.parts r) t → Some t ∈ set) ∧
         (NullSeq table (Rule.parts r) → None ∈ set)).
Proof.
  induction rs as [|r rs IH]; intros table change Hsub Hinv.
  - exists table, change. simpl. split; [done |]. split; [done |]. split; [done |].
    split; [congruence |]. intros ->. split; [done |]. split; [done |].
    by intros r ?%elem_of_nil.
  - assert (Hr : r ∈ rules) by (apply Hsub; by left).
    destruct (computeFirst_rule_spec r table Hr Hinv)
      as (table1 & grew & set & set1 & Hrun & Hset & -> & Hp & Hinv1 & Hgrew & Hstable).
    destruct Hok as (_ & _ & Hrules). rewrite Forall_forall in Hrules.
    destruct (Hrules r Hr) as [Hname _].
    destruct (first_size_insert table (Rule.name r) set set1 nonTerminals Hset Hp) as [Hs1 Hs2].
    specialize (Hs2 Hname).
    destruct (IH (<[Term.name (Rule.name r) := set1]> table) (if grew then true else change))
      as (table' & change' & Hfold & Hinv' & Hsize & Hstrict & Hfix);
      [intros r' ?; apply Hsub; by right | done |].
    exists table', change'. simpl. rewrite Hrun. simpl.
    split; [exact Hfold |]. split; [done |]. split; [lia |]. split.
    + intros Hc' Hc. destruct grew; [specialize (Hgrew eq_refl); lia |].
      specialize (Hstrict Hc' Hc). lia.
    + intros Hc'. destruct (Hfix Hc') as (Hc & -> & Hrest).
      destruct grew; [done |]. destruct (Hstable eq_refl) as (Heq & Hfirst & Hnull).
      split; [done |]. split; [done |]. rewrite Heq in Hrest.
      intros r' [->|Hin]%elem_of_cons; [by exists set | by apply Hrest].
Qed.

End FirstInvariant.

Section FirstFixpoint.
Import Grammar Automaton.
Variables (rules : list Rule.t) (nonTerminals : list Term.t).
Hypothesis Hok : grammar_ok rules nonTerminals.

(** The loop ends within the bound, on a table that is closed under the
    rules. *)
Lemma computeFirst_loop_spec fuel :
  ∀ table,
  first_inv rules nonTerminals table →
  (length nonTerminals * length (first_universe rules) - first_size nonTerminals table < fuel)%nat →
  ∃ table', computeFirst_loop fuel rules table = Ok table' ∧
            first_inv rules nonTerminals table' ∧ first_closed rules table'.
Proof.
  induction fuel as [|fuel IH]; intros table Hinv Hfuel; [lia |].
  destruct (computeFirst_pass_spec rules nonTerminals Hok rules table false)
    as (table1 & change & Hpass & Hinv1 & Hsize & Hstrict & Hfix); [done | done |].
  simpl. unfold computeFirst_pass. rewrite Hpass. simpl.
  destruct change.
  - apply IH; [done |]. specialize (Hstrict eq_refl eq_refl).
    pose proof (first_size_bound rules nonTerminals table1 Hinv1). lia.
  - destruct (Hfix eq_refl) as (_ & -> & Hclosed). by exists table.
Qed.

Lemma first_initial (l : list Term.t) :
  ∀ table : FirstTable,
  (∀ k s, table !! k = Some s → s = []) →
  let table' := fold_left (fun table t => <[Term.name t := []]> table) l table in
  (∀ k s, table' !! k = Some s → s = []) ∧
  (∀ N, N ∈ l → is_Some (table' !! Term.name N)) ∧
  (∀ k, is_Some (table !! k) → is_Some (table' !! k)).
Proof.
  induction l as [|N l IH]; intros table Hempty; simpl.
  - split; [done |]. split; [by intros N ?%elem_of_nil | done].
  - destruct (IH (<[Term.name N := []]> table)) as (H1 & H2 & H3).
    { intros k s. rewrite lookup_insert. case_decide; [by intros [= <-] | by apply Hempty]. }
    split; [done |]. split.
    + intros N' [->|Hin]%elem_of_cons; [| by apply H2].
      apply H3. by rewrite lookup_insert_eq.
    + intros k Hk. apply H3. rewrite lookup_insert. by case_decide.
Qed.

Lemma first_inv_initial :
  first_inv rules nonTerminals
    (fold_left (fun table t => <[Term.name t := []]> table) nonTerminals ∅).
Proof.
  destruct (first_initial nonTerminals ∅) as (H1 & H2 & _); [by intros k s; rewrite lookup_empty |].
  split; [done |]. split.
  - intros k l Hl. rewrite (H1 _ _ Hl). split; [constructor | by intros x ?%elem_of_nil].
  - intros N l _ Hl Hnone. rewrite (H1 _ _ Hl) in Hnone. by apply elem_of_nil in Hnone.
Qed.

Section Closed.
Variable table : FirstTable.
Hypothesis Hclosed : first_closed rules table.

Lemma rule_name_nonTerminal r : r ∈ rules → Term.terminal (Rule.name r) = false.
Proof.
  intros Hr. destruct Hok as (_ & Hnt & Hrules).
  rewrite Forall_forall in Hnt. rewrite Forall_forall in Hrules. apply Hnt. by apply Hrules.
Qed.

Lemma FirstSeq_app p v t :
  FirstSeq table (p ++ v) t →
  FirstSeq table p t ∨ (NullSeq table p ∧ FirstSeq table v t).
Proof.
  induction p as [|x p IH]; simpl; intros Hf.
  - right. split; [constructor | done].
  - inversion Hf as [? ? Hterm|N ? ? l Hnt Hl Hin|N ? ? l Hnt Hl Hnone Hrest]; subst.
    + left. by constructor.
    + left. by eapply FirstSeq_here.
    + destruct (IH Hrest) as [Hp|[Hnull Hv]].
      * left. by eapply FirstSeq_skip.
      * right. split; [| done]. constructor; [| done]. split; [done | by exists l].
Qed.

Lemma FirstSeq_step w w' t :
  derive_step rules w w' → FirstSeq table w' t → FirstSeq table w t.
Proof.
  intros [u v r Hr]. destruct (Hclosed r Hr) as (set & Hset & Hfirst & Hnull).
  pose proof (rule_name_nonTerminal r Hr) as Hnt.
  induction u as [|x u IH]; simpl; intros Hf.
  - destruct (FirstSeq_app _ _ _ Hf) as [Hp|[Hn Hv]].
    + eapply FirstSeq_here; [done | done | by apply Hfirst].
    + eapply FirstSeq_skip; [done | done | by apply Hnull | done].
  - inversion Hf as [? ? Hterm|N ? ? l Hx Hl Hin|N ? ? l Hx Hl Hnone Hrest]; subst.
    + by constructor.
    + by eapply FirstSeq_here.
    + eapply FirstSeq_skip; [done | done | done | by apply IH].
Qed.

Lemma NullSeq_step w w' :
  derive_step rules w w' → NullSeq table w' → NullSeq table w.
Proof.
  intros [u v r Hr]. destruct (Hclosed r Hr) as (set & Hset & _ & Hnull).
  unfold NullSeq. rewrite !Forall_app, Forall_cons. intros (Hu & Hp & Hv).
  split; [done |]. split; [| done].
  split; [by apply rule_name_nonTerminal |]. exists set. split; [done | by apply Hnull].
Qed.

Lemma derives_FirstSeq w t β :
  Term.terminal t = true → derives rules w (t :: β) → FirstSeq table w t.
Proof.
  intros Hterm Hder. remember (t :: β) as w' eqn:Hw'.
  induction Hder as [w|w w1 w2 Hstep _ IH]; [subst; by constructor |].
  eapply FirstSeq_step; [done | by apply IH].
Qed.

Lemma derives_NullSeq w : derives rules w [] → NullSeq table w.
Proof.
  intros Hder. remember [] as w' eqn:Hw'.
  induction Hder as [w|w w1 w2 Hstep _ IH]; [subst; constructor |].
  eapply NullSeq_step; [done | by apply IH].
Qed.

End Closed.

(** C3.  For a well-formed grammar [computeFirst] returns, within the
    bound, a table with an array for each non-terminal [N] such that every
    terminal [t] with a derivation [N ⇒* t β] is in the array, and the ε
    marker is in the array if and only if [N] derives the empty string. *)
Theorem computeFirst_sound fuel :
  (first_bound rules nonTerminals ≤ fuel)%nat →
  ∃ table,
    computeFirst fuel rules nonTerminals = Ok table ∧
    ∀ N, N ∈ nonTerminals →
      ∃ set, table !! Term.name N = Some set ∧
        (∀ t β, Term.terminal t = true → derives rules [N] (t :: β) → Some t ∈ set) ∧
        (None ∈ set ↔ derives rules [N] []).
Proof.
  intros Hfuel. unfold first_bound in Hfuel.
  destruct (computeFirst_loop_spec fuel _ first_inv_initial) as (table & Hrun & Hinv & Hclosed);
    [lia |].
  exists table. split; [exact Hrun |].
  intros N HN. destruct Hinv as (I1 & I2 & I3). destruct (I1 N HN) as [set Hset].
  assert (Hnt : Term.terminal N = false).
  { destruct Hok as (_ & Hnt & _). rewrite Forall_forall in Hnt. by apply Hnt. }
  exists set. split; [done |]. split.
  - intros t β Hterm Hder.
    pose proof (derives_FirstSeq table Hclosed [N] t β Hterm Hder) as Hf.
    inversion Hf as [? ? Hterm'|? ? ? l _ Hl Hin|? ? ? l _ Hl Hnone Hrest]; subst.
    + congruence.
    + by simplify_eq.
    + inversion Hrest.
  - split; [by apply I3 |]. intros Hder.
    pose proof (derives_NullSeq table Hclosed [N] Hder) as Hn.
    apply Forall_cons in Hn as [(_ & l & Hl & Hnone) _]. by simplify_eq.
Qed.

End FirstFixpoint.

(** The FIRST table of the small grammar. *)
Lemma computeFirst_sound_witness :
  ∃ table,
    Automaton.computeFirst 9 SmallGrammar.rules SmallGrammar.nonTerminals = Ok table ∧
    ∀ N, N ∈ SmallGrammar.nonTerminals →
      ∃ set, table !! Grammar.Term.name N = Some set ∧
        (∀ t β, Grammar.Term.terminal t = true →
                derives SmallGrammar.rules [N] (t :: β) → Some t ∈ set) ∧
        (None ∈ set ↔ derives SmallGrammar.rules [N] []).
Proof.
  apply (computeFirst_sound SmallGrammar.rules SmallGrammar.nonTerminals).
  - split; [by_decision | split; by_decision].
  - vm_compute. lia.
Defined.

Example computeFirst_small :
  Automaton.computeFirst 9 SmallGrammar.rules SmallGrammar.nonTerminals
  = Ok SmallGrammar.first.
Proof. by vm_compute. Qed.

(** * Inversion of character sets *)

Section InvertRanges.
Import Build.

Lemma invertRanges_fold ranges pos acc :
  (let '(pos', result) :=
     fold_left (fun '(pos, result) '(a, b) =>
       (b, if decide (a > pos) then result ++ [(pos, a)] else result))
       ranges (pos, acc) in
   if decide (pos' ≤ MAX_CODE) then result ++ [(pos', MAX_CODE + 1)] else result)
  = acc ++ invert_from pos ranges.
Proof.
  revert pos acc. induction ranges as [|[a b] rest IH]; intros pos acc; simpl.
  - destruct (decide (pos ≤ MAX_CODE)); [done | by rewrite app_nil_r].
  - rewrite IH. destruct (decide (a > pos)); simpl; [by rewrite <- app_assoc | done].
Qed.

Lemma invertRanges_eq ranges : invertRanges ranges = invert_from 0 ranges.
Proof. unfold invertRanges. by rewrite invertRanges_fold. Qed.

Lemma chained_of_sorted ranges :
  char_ranges ranges → sorted_by_start ranges → pairwise_disjoint ranges → chained ranges.
Proof.
  intros Hwf Hs Hd.
  apply Sorted_StronglySorted in Hs; [| intros x y z; simpl; lia].
  induction ranges as [|r rest IH]; [constructor |].
  apply StronglySorted_inv in Hs as [Hs Hr]. apply Forall_cons in Hwf as [Hr0 Hwf].
  constructor.
  - apply IH; [done | done |].
    intros i j r1 r2 Hij H1 H2. apply (Hd (S i) (S j)); [lia | done | done].
  - apply Forall_forall. intros r' Hin.
    apply list_elem_of_lookup in Hin as [j Hj].
    assert (Hle : r.1 ≤ r'.1).
    { rewrite Forall_forall in Hr. apply Hr. apply list_elem_of_lookup. eauto. }
    assert (Hr' : r'.1 < r'.2).
    { rewrite Forall_forall in Hwf. apply Hwf. apply list_elem_of_lookup. eauto. }
    destruct (Hd 0%nat (S j) r r') as [?|?]; [lia | done | done | done | lia].
Qed.

(** What [invert_from] returns when the ranges that remain form a chain
    that starts at or after [pos]. *)
Lemma invert_from_spec ranges pos :
  0 ≤ pos → char_ranges ranges → chained ranges →
  Forall (fun r => pos ≤ r.1) ranges →
  let result := invert_from pos ranges in
  chained result ∧
  Forall (fun r => pos ≤ r.1 ∧ r.1 < r.2 ∧ r.2 ≤ MAX_CODE + 1) result ∧
  ∀ c, covers result c ↔ (pos ≤ c ≤ MAX_CODE ∧ ¬ covers ranges c).
Proof.
  revert pos. induction ranges as [|[a b] rest IH]; intros pos Hpos Hwf Hch Hlo; simpl.
  - destruct (decide (pos ≤ MAX_CODE)) as [Hle|Hgt].
    + split; [repeat constructor |]. split; [repeat constructor; simpl; lia |].
      intros c. unfold covers. split.
      * intros (r & Hin & Hc). apply list_elem_of_singleton in Hin as ->. simpl in Hc.
        split; [lia |]. intros (r' & Hin' & _). by apply elem_of_nil in Hin'.
      * intros [Hc _]. exists (pos, MAX_CODE + 1). split; [by constructor | simpl; lia].
    + split; [constructor |]. split; [constructor |].
      intros c. unfold covers. split.
      * intros (r & Hin & _). by apply elem_of_nil in Hin.
      * intros [Hc _]. lia.
  - apply Forall_cons in Hwf as [(Ha0 & Hab & Hb) Hwf]. simpl in Ha0, Hab, Hb.
    apply StronglySorted_inv in Hch as [Hch Hnext]. simpl in Hnext.
    apply Forall_cons in Hlo as [Hpa Hlo]. simpl in Hpa.
    destruct (IH b) as (IHc & IHb & IHcov); [lia | done | done | done |].
    assert (Hcov : ∀ c, covers ((a, b) :: rest) c ↔ (a ≤ c < b ∨ covers rest c)).
    { intros c. unfold covers. split.
      - intros (r & Hin & Hc). apply elem_of_cons in Hin as [->|Hin]; [by left | right; eauto].
      - intros [Hc|(r & Hin & Hc)]; [exists (a, b) | exists r];
          (split; [| done]); [by left | by right]. }
    assert (Hrest : ∀ c, covers rest c → b ≤ c).
    { intros c (r & Hin & Hc). rewrite Forall_forall in Hnext. specialize (Hnext r Hin). lia. }
    destruct (decide (a > pos)) as [Hgt|Hle]; simpl.
    + split; [| split].
      * constructor; [done |]. eapply Forall_impl; [exact IHb |]. simpl. intros r ?. lia.
      * constructor; [simpl; lia |]. eapply Forall_impl; [exact IHb |]. simpl. intros r ?. lia.
      * intros c. rewrite Hcov. split.
        -- intros (r & Hin & Hc). apply elem_of_cons in Hin as [->|Hin].
           ++ simpl in Hc. split; [unfold MAX_CODE in *; lia |].
              intros [?|Hr]; [lia | apply Hrest in Hr; lia].
           ++ destruct (proj1 (IHcov c)) as [Hc' Hn]; [by exists r |].
              split; [lia |]. intros [?|?]; [lia | done].
        -- intros [Hc Hn]. destruct (decide (c < a)).
           ++ exists (pos, a). split; [by left | simpl; lia].
           ++ destruct (proj2 (IHcov c)) as (r & Hin & Hr).
              { split; [| tauto]. destruct (decide (b ≤ c)); [lia |]. exfalso. apply Hn. left. lia. }
              exists r. split; [by right | done].
    + split; [done |]. split; [eapply Forall_impl; [exact IHb |]; simpl; intros r ?; lia |].
      intros c. rewrite Hcov, IHcov. split.
      * intros [Hc Hn]. split; [lia |]. intros [?|?]; [lia | done].
      * intros [Hc Hn]. split; [| tauto]. split; [| lia].
        destruct (decide (b ≤ c)); [done |]. exfalso. apply Hn. left. lia.
Qed.

Lemma chained_sorted_disjoint ranges :
  Forall (fun r => r.1 < r.2) ranges → chained ranges →
  StronglySorted (fun r1 r2 => r1.1 ≤ r2.1) ranges ∧ pairwise_disjoint ranges.
Proof.
  intros Hne Hch. split.
  - induction Hch as [|r rest Hch IH Hr]; [constructor |].
    apply Forall_cons in Hne as [Hr0 Hne]. constructor; [by apply IH |].
    eapply Forall_impl; [exact Hr |]. simpl. intros r' ?. lia.
  - assert (Hlt : ∀ (i j : nat) r1 r2, (i < j)%nat → ranges !! i = Some r1 →
                    ranges !! j = Some r2 → r1.2 ≤ r2.1).
    { clear Hne. induction Hch as [|r rest Hch IH Hr]; intros i j r1 r2 Hij H1 H2.
      - done.
      - destruct j as [|j]; [lia |]. simpl in H2. destruct i as [|i]; simpl in H1.
        + injection H1 as <-. rewrite Forall_forall in Hr. apply Hr.
          apply list_elem_of_lookup. eauto.
        + apply (IH i j); [lia | done | done]. }
    intros i j r1 r2 Hij H1 H2.
    destruct (decide (i < j)%nat); [left; by apply (Hlt i j) | right; apply (Hlt j i); [lia | done | done]].
Qed.

Lemma invertRanges_spec ranges :
  char_ranges ranges → sorted_by_start ranges → pairwise_disjoint ranges →
  char_ranges (invertRanges ranges) ∧
  StronglySorted (fun r1 r2 => r1.1 ≤ r2.1) (invertRanges ranges) ∧
  pairwise_disjoint (invertRanges ranges) ∧
  ∀ c, covers (invertRanges ranges) c ↔ (0 ≤ c ≤ 0x10ffff ∧ ¬ covers ranges c).
Proof.
  intros Hwf Hs Hd. rewrite invertRanges_eq.
  pose proof (chained_of_sorted _ Hwf Hs Hd) as Hch.
  destruct (invert_from_spec ranges 0) as (Hc & Hb & Hcov); [lia | done | done | |].
  { eapply Forall_impl; [exact Hwf |]. simpl. intros r ?. lia. }
  destruct (chained_sorted_disjoint (invert_from 0 ranges)) as [Hs' Hd']; [| done |].
  { eapply Forall_impl; [exact Hb |]. simpl. intros r ?. lia. }
  split; [exact Hb |]. split; [done |]. split; [done |]. exact Hcov.
Qed.

(** C10.  For a list of non-empty ranges of code points that is sorted by
    start and pairwise disjoint, [invertRanges] returns a list of non-empty
    ranges that is sorted by start and pairwise disjoint and that covers
    exactly the code points of [0, 0x10FFFF] that the input does not cover. *)
Theorem invertRanges_complement ranges :
  char_ranges ranges → sorted_by_start ranges → pairwise_disjoint ranges →
  char_ranges (invertRanges ranges) ∧
  StronglySorted (fun r1 r2 => r1.1 ≤ r2.1) (invertRanges ranges) ∧
  pairwise_disjoint (invertRanges ranges) ∧
  ∀ c, covers (invertRanges ranges) c ↔ (0 ≤ c ≤ 0x10ffff ∧ ¬ covers ranges c).
Proof. apply invertRanges_spec. Qed.

(** The set [[a-z0-9]], written out of order in the source text. *)
Lemma invertRanges_complement_witness :
  invertRanges [(48, 58); (97, 123)] = [(0, 48); (58, 97); (123, 0x110000)] ∧
  ∀ c, covers (invertRanges [(48, 58); (97, 123)]) c ↔
       (0 ≤ c ≤ 0x10ffff ∧ ¬ covers [(48, 58); (97, 123)] c).
Proof.
  split; [reflexivity |].
  apply (invertRanges_complement [(48, 58); (97, 123)]).
  - repeat constructor; simpl; unfold MAX_CODE; lia.
  - repeat constructor; simpl; lia.
  - intros i j r1 r2 Hij H1 H2.
    destruct i as [|[|[|i]]]; destruct j as [|[|[|j]]]; simpl in *; simplify_eq; simpl; lia.
Defined.

(** ** The ranges that the parser of set expressions builds *)

Lemma all_apart_disjoint ranges : all_apart ranges ↔ pairwise_disjoint ranges.
Proof.
  induction ranges as [|r rest IH]; simpl.
  - split; [by intros _ i j r1 r2 _ ? | done].
  - rewrite IH. split.
    + intros [Hr Hrest] i j r1 r2 Hij H1 H2. rewrite Forall_forall in Hr.
      destruct i as [|i], j as [|j]; simpl in *; simplify_eq.
      * apply Hr. apply list_elem_of_lookup. eauto.
      * destruct (Hr r1) as [?|?]; [apply list_elem_of_lookup; eauto | by right | by left].
      * apply (Hrest i j); [lia | done | done].
    + intros Hd. split.
      * apply Forall_forall. intros r' [j Hj]%list_elem_of_lookup.
        by apply (Hd 0%nat (S j)).
      * intros i j r1 r2 Hij H1 H2. apply (Hd (S i) (S j)); [lia | done | done].
Qed.

Lemma all_apart_perm l k : l ≡ₚ k → all_apart l → all_apart k.
Proof.
  induction 1 as [|x l k Hp IH|x y l|l k m Hp1 IH1 Hp2 IH2]; simpl; try tauto.
  - intros [Hx Hl]. split; [by rewrite <- Hp | by apply IH].
  - intros [[Hyx Hy]%Forall_cons (Hx & Hl)]. repeat split; try done.
    constructor; [| done]. destruct Hyx; [by right | by left].
Qed.

Lemma addRanges_spec items :
  ∀ ranges result,
  Forall (fun r => 0 ≤ r.1 ∧ r.1 < r.2 ∧ r.2 ≤ MAX_CODE + 1) items →
  char_ranges ranges → all_apart ranges →
  addRanges items ranges = Ok result →
  char_ranges result ∧ all_apart result.
Proof.
  induction items as [|[from to] items IH]; intros ranges result Hitems Hwf Hd; simpl.
  - by intros [= <-].
  - apply Forall_cons in Hitems as [Hr Hitems]. unfold addRange.
    destruct (forallb _ ranges) eqn:Hall; simpl; [| done].
    apply IH; [done | |].
    + apply Forall_app. split; [done |]. apply Forall_cons. split; [done | constructor].
    + apply (all_apart_perm ((from, to) :: ranges)).
      { by rewrite (Permutation_app_comm ranges). }
      split; [| done]. apply Forall_forall. intros [a b] Hin.
      rewrite forallb_forall in Hall. apply list_elem_of_In, Hall in Hin.
      apply orb_true_iff in Hin as [H%bool_decide_eq_true|H%bool_decide_eq_true];
        unfold apart; simpl; [by right | by left].
Qed.

Lemma StronglySorted_weaken {A} (R R' : A → A → Prop) l :
  (∀ a b, R a b → R' a b) → StronglySorted R l → StronglySorted R' l.
Proof.
  intros HR. induction 1 as [|x l Hs IH Hx]; constructor; [done |].
  eapply Forall_impl; [exact Hx | by intros y; apply HR].
Qed.

(** The ranges of a set expression are as [invertRanges] expects them. *)
Lemma setRanges_spec items ranges :
  Forall (fun r => 0 ≤ r.1 ∧ r.1 < r.2 ∧ r.2 ≤ MAX_CODE + 1) items →
  setRanges items = Ok ranges →
  char_ranges ranges ∧ sorted_by_start ranges ∧ pairwise_disjoint ranges.
Proof.
  intros Hitems. unfold setRanges.
  destruct (addRanges items []) as [added|] eqn:Hadd; simpl; [| done].
  intros [= <-].
  destruct (addRanges_spec items [] added Hitems) as [Hwf Hd]; [constructor | done | done |].
  split; [| split].
  - unfold char_ranges. by rewrite sort_perm.
  - apply StronglySorted_Sorted.
    apply (StronglySorted_weaken (cmp_le (fun a b : Z * Z => a.1 - b.1)));
      [unfold cmp_le; intros a b; lia |].
    apply (sort_sorted (fun _ => True) (fun a b : Z * Z => a.1 - b.1)).
    + apply (consistent_diff _ (fun a : Z * Z => a.1)).
    + by apply Forall_true.
  - apply all_apart_disjoint. apply (all_apart_perm added); [by rewrite sort_perm | done].
Qed.

(** The inverted set [[^...]] of the parser covers the complement. *)
Corollary invertRanges_of_setRanges items ranges :
  Forall (fun r => 0 ≤ r.1 ∧ r.1 < r.2 ∧ r.2 ≤ MAX_CODE + 1) items →
  setRanges items = Ok ranges →
  ∀ c, covers (invertRanges ranges) c ↔ (0 ≤ c ≤ 0x10ffff ∧ ¬ covers ranges c).
Proof.
  intros Hitems Hset. destruct (setRanges_spec items ranges Hitems Hset) as (Hwf & Hs & Hd).
  by apply invertRanges_spec.
Qed.

End InvertRanges.

(** * Stored arrays and token masks *)

Section Tables.
Import Build.

Lemma occurs_at_lookup data value n :
  occurs_at data value n ↔ ∀ j, (j < length value)%nat → data !! (n + j)%nat = value !! j.
Proof.
  unfold occurs_at. split.
  - intros H j Hj. transitivity (take (length value) (drop n data) !! j); [| by rewrite H].
    rewrite lookup_take_lt, lookup_drop; [done | lia].
  - intros H. apply list_eq. intros j. destruct (decide (j < length value)%nat) as [Hj | Hj].
    + rewrite lookup_take_lt, lookup_drop; [by apply H | lia].
    + rewrite lookup_take_ge by lia. symmetry. apply lookup_ge_None. lia.
Qed.

Lemma indexOf_Some data x i next :
  indexOf data (Some x) i = Some next ↔
  (i ≤ next)%nat ∧ data !! next = Some x ∧ ∀ m, (i ≤ m < next)%nat → data !! m ≠ Some x.
Proof.
  unfold indexOf. split.
  - intros H. apply fmap_Some in H as ([k y] & Hf & ->). simpl.
    apply list_find_Some in Hf as (Hk & -> & Hmin). rewrite lookup_drop in Hk.
    split; [lia |]. split; [done |]. intros m Hm Hx.
    apply (Hmin (m - i)%nat x); [| lia | done]. rewrite lookup_drop. by replace (i + (m - i))%nat with m by lia.
  - intros (Hle & Hx & Hmin). apply fmap_Some. exists ((next - i)%nat, x). simpl. split; [| lia].
    apply list_find_Some. rewrite lookup_drop. replace (i + (next - i))%nat with next by lia.
    split; [done |]. split; [done |]. intros j y Hj Hlt ->. rewrite lookup_drop in Hj.
    apply (Hmin (i + j)%nat); [lia | done].
Qed.

Lemma indexOf_None data x i :
  indexOf data (Some x) i = None ↔ ∀ m, (i ≤ m)%nat → data !! m ≠ Some x.
Proof.
  unfold indexOf. rewrite fmap_None, list_find_None, Forall_lookup. split.
  - intros H m Hm Hx. apply (H (m - i)%nat x); [| done]. rewrite lookup_drop.
    by replace (i + (m - i))%nat with m by lia.
  - intros H j y Hj ->. rewrite lookup_drop in Hj. by apply (H (i + j)%nat); [lia |].
Qed.

Lemma matchesAt_spec data value next :
  matchesAt data value next = true ↔
  ∀ j, (1 ≤ j < length value)%nat → value !! j = data !! (next + j)%nat.
Proof.
  unfold matchesAt. rewrite forallb_forall. split.
  - intros H j Hj. eapply bool_decide_eq_true_1, H, in_seq. lia.
  - intros H j Hj. apply in_seq in Hj. apply bool_decide_eq_true_2, H. lia.
Qed.

Lemma findArray_loop_spec fuel data value i :
  (length data < fuel + i)%nat → (i ≤ length data)%nat →
  (∀ m, (m < i)%nat → ¬ occurs_at data value m) →
  match findArray_loop fuel data value i with
  | Ok (Some n) =>
      value ≠ [] ∧ occurs_at data value n ∧ ∀ m, (m < n)%nat → ¬ occurs_at data value m
  | Ok None => value = [] ∨ ∀ m, ¬ occurs_at data value m
  | Err _ => False
  end.
Proof.
  revert i. induction fuel as [|fuel IH]; intros i Hfuel Hi Hbefore; [lia |]. simpl.
  destruct (value !! 0%nat) as [v|] eqn:Hv0.
  2: { left. by destruct value. }
  assert (Hne : value ≠ []) by (by destruct value).
  assert (Hlen : (0 < length value)%nat) by (destruct value; [done | simpl; lia]).
  destruct (indexOf data (Some v) i) as [next|] eqn:Hidx.
  2: { right. intros m Hm. destruct (decide (m < i)%nat) as [Hlt | Hge]; [by apply (Hbefore m) |].
       pose proof (proj1 (occurs_at_lookup _ _ _) Hm) as Hmx; clear Hm; rename Hmx into Hm. specialize (Hm 0%nat Hlen).
       rewrite Nat.add_0_r, Hv0 in Hm. revert Hm. apply (proj1 (indexOf_None _ _ _) Hidx). lia. }
  apply indexOf_Some in Hidx as (Hle & Hnext & Hmin).
  assert (Hskip : ∀ m, (m < next)%nat → ¬ occurs_at data value m).
  { intros m Hm Hocc. destruct (decide (m < i)%nat) as [Hlt | Hge]; [by apply (Hbefore m) |].
    pose proof (proj1 (occurs_at_lookup _ _ _) Hocc) as Hoccx; clear Hocc; rename Hoccx into Hocc. specialize (Hocc 0%nat Hlen).
    rewrite Nat.add_0_r, Hv0 in Hocc. revert Hocc. apply Hmin. lia. }
  assert (Hnl : (next < length data)%nat) by (by eapply lookup_lt_Some).
  case_decide as Hover.
  { right. intros m Hocc. destruct (decide (m < next)%nat) as [Hlt | Hge]; [by apply (Hskip m) |].
    pose proof (proj1 (occurs_at_lookup _ _ _) Hocc) as Hoccx; clear Hocc; rename Hoccx into Hocc. specialize (Hocc (length value - 1)%nat ltac:(lia)).
    assert (Hsome : is_Some (data !! (m + (length value - 1))%nat))
      by (rewrite Hocc; apply lookup_lt_is_Some; lia).
    apply lookup_lt_is_Some in Hsome. lia. }
  destruct (matchesAt data value next) eqn:Hmatch.
  - split; [done |]. split; [| done]. apply occurs_at_lookup. intros j Hj.
    destruct (decide (j = 0)%nat) as [-> | Hj0]; [by rewrite Nat.add_0_r, Hv0 |].
    symmetry. apply (proj1 (matchesAt_spec _ _ _) Hmatch). lia.
  - apply IH; [lia | lia |]. intros m Hm.
    destruct (decide (m = next)) as [-> | Hne']; [| apply Hskip; lia].
    intros Hocc. pose proof (proj1 (occurs_at_lookup _ _ _) Hocc) as Hoccx; clear Hocc; rename Hoccx into Hocc.
    assert (matchesAt data value next = true); [| congruence].
    apply matchesAt_spec. intros j Hj. symmetry. apply Hocc. lia.
Qed.

Lemma findArray_spec data value :
  match findArray data value with
  | Ok (Some n) =>
      value ≠ [] ∧ occurs_at data value n ∧ ∀ m, (m < n)%nat → ¬ occurs_at data value m
  | Ok None => value = [] ∨ ∀ m, ¬ occurs_at data value m
  | Err _ => False
  end.
Proof. apply findArray_loop_spec; [lia | lia |]. intros m Hm. lia. Qed.

(** X1.  [findArray(data, value)] returns the offset of the leftmost
    occurrence of a non-empty [value] as a slice of [data]; it returns -1
    when [value] is empty or occurs nowhere.  The search always ends. *)
Theorem findArray_leftmost data value :
  match findArray data value with
  | Ok (Some n) =>
      value ≠ [] ∧ occurs_at data value n ∧ ∀ m, (m < n)%nat → ¬ occurs_at data value m
  | Ok None => value = [] ∨ ∀ m, ¬ occurs_at data value m
  | Err _ => False
  end.
Proof. apply findArray_spec. Qed.

Lemma occurs_at_bound data value n :
  value ≠ [] → occurs_at data value n → (n + length value ≤ length data)%nat.
Proof.
  intros Hne Hocc. apply (f_equal length) in Hocc.
  rewrite length_take, length_drop in Hocc.
  assert (0 < length value)%nat by (destruct value; [done | simpl; lia]). lia.
Qed.

Lemma occurs_at_app data more value n :
  occurs_at data value n → occurs_at (data ++ more) value n.
Proof.
  intros Hocc. destruct value as [|v value]; [by unfold occurs_at |].
  pose proof (occurs_at_bound data (v :: value) n ltac:(done) Hocc) as Hbound.
  apply occurs_at_lookup. intros j Hj. rewrite lookup_app_l by lia.
  by apply occurs_at_lookup.
Qed.

Lemma storeArray_spec this data :
  ∃ this' pos, DataBuilder.storeArray this data = Ok (this', pos) ∧
    occurs_at this' data pos ∧ (pos + length data ≤ length this')%nat ∧
    this `prefix_of` this' ∧
    ∀ value n, occurs_at this value n → occurs_at this' value n.
Proof.
  unfold DataBuilder.storeArray. pose proof (findArray_spec this data) as Hfind.
  destruct (findArray this data) as [[n|]|e]; [| | done]; simpl.
  - destruct Hfind as (Hne & Hocc & _). exists this, n. split; [done |]. split; [done |].
    split; [by apply occurs_at_bound |]. done.
  - exists (this ++ data), (length this). split; [done |]. split.
    { unfold occurs_at. by rewrite drop_app_length, firstn_all. }
    split; [rewrite length_app; lia |]. split; [by apply prefix_app_r |].
    intros value n. apply occurs_at_app.
Qed.

(** X2.  [DataBuilder.storeArray(data)] returns an offset at which [data]
    can be read back from the builder's array; the array only grows at its
    end, so every slice that could be read before the call is still read
    at the same offset. *)
Theorem storeArray_retrievable this data :
  ∃ this' pos, DataBuilder.storeArray this data = Ok (this', pos) ∧
    occurs_at this' data pos ∧ (pos + length data ≤ length this')%nat ∧
    this `prefix_of` this' ∧
    ∀ value n, occurs_at this value n → occurs_at this' value n.
Proof. apply storeArray_spec. Qed.

(** X3.  Storing a non-empty array that already occurs in the builder's
    array adds nothing: [storeArray] returns the offset of its leftmost
    occurrence and leaves the array as it is. *)
Theorem storeArray_shared this data n :
  data ≠ [] → occurs_at this data n →
  ∃ pos, DataBuilder.storeArray this data = Ok (this, pos) ∧ (pos ≤ n)%nat ∧
    occurs_at this data pos.
Proof.
  intros Hne Hocc. unfold DataBuilder.storeArray.
  pose proof (findArray_spec this data) as Hfind.
  destruct (findArray this data) as [[m|]|e]; [| | done]; simpl.
  - destruct Hfind as (_ & Hm & Hmin). exists m. split; [done |]. split; [| done].
    destruct (decide (m ≤ n)%nat); [done |]. exfalso. apply (Hmin n); [lia | done].
  - destruct Hfind as [-> | Hnone]; [done |]. by destruct (Hnone n).
Qed.

Lemma storeArray_shared_witness :
  ∃ pos, DataBuilder.storeArray [7; 1; 2; 3; 1; 2] [1; 2] = Ok ([7; 1; 2; 3; 1; 2], pos) ∧
    (pos ≤ 4)%nat ∧ occurs_at [7; 1; 2; 3; 1; 2] [1; 2] pos.
Proof. apply (storeArray_shared [7; 1; 2; 3; 1; 2] [1; 2] 4); [done | reflexivity]. Defined.

Lemma toInt32_testbit z g : 0 ≤ g < 32 → Z.testbit (toInt32 z) g = Z.testbit z g.
Proof.
  intros Hg. unfold toInt32.
  rewrite <- (Z.mod_pow2_bits_low ((z + 2 ^ 31) mod 2 ^ 32 - 2 ^ 31) 32 g) by lia.
  rewrite <- (Z.mod_pow2_bits_low z 32 g) by lia. f_equal.
  rewrite Zminus_mod_idemp_l. f_equal. lia.
Qed.

Lemma shl_one_testbit id g : 0 ≤ g < 32 →
  Z.testbit (toInt32 (shl 1 id)) g = bool_decide (Z.land id 31 = g).
Proof.
  intros Hg. rewrite toInt32_testbit by done. unfold shl.
  assert (0 ≤ Z.land id 31) by (apply Z.land_nonneg; lia).
  rewrite Z.shiftl_1_l, Z.pow2_bits_eqb by done.
  destruct (Z.eqb_spec (Z.land id 31) g);
    [by rewrite bool_decide_eq_true_2 | by rewrite bool_decide_eq_false_2].
Qed.

Lemma buildTokenMasks_inner (M : Z) terms masks t g : 0 ≤ g < 32 →
  Z.testbit (mask_of (fold_left (fun masks term =>
      <[Term.id term := Z.lor (toInt32 (default 0 (masks !! Term.id term) ||| 0)) M]> masks)
      terms masks) t) g
  = Z.testbit (mask_of masks t) g
    || (existsb (fun term => bool_decide (Term.id term = t)) terms && Z.testbit M g).
Proof.
  intros Hg. revert masks. induction terms as [|term terms IH]; intros masks; simpl.
  { by rewrite orb_false_r. }
  rewrite IH. unfold mask_of at 1. destruct (decide (Term.id term = t)) as [<- | Hne].
  - rewrite lookup_insert_eq. simpl. rewrite Z.lor_spec, toInt32_testbit by done.
    rewrite bool_decide_eq_true_2 by done. simpl.
    replace (default 0 (masks !! Term.id term) ||| 0) with (mask_of masks (Term.id term)).
    2: { unfold js_or, mask_of. by case_decide. }
    by destruct (Z.testbit (mask_of masks (Term.id term)) g), (Z.testbit M g),
         (existsb (fun term0 => bool_decide (Term.id term0 = Term.id term)) terms).
  - rewrite lookup_insert_ne by done. rewrite (bool_decide_eq_false_2 _ Hne). done.
Qed.

Lemma buildTokenMasks_fold groups masks t g : 0 ≤ g < 32 →
  Z.testbit (mask_of (fold_left (fun masks group =>
    let groupMask := toInt32 (shl 1 (group_id group)) in
    fold_left (fun masks term =>
      <[Term.id term := Z.lor (toInt32 (default 0 (masks !! Term.id term) ||| 0)) groupMask]> masks)
      (tokens group) masks) groups masks) t) g
  = Z.testbit (mask_of masks t) g
    || existsb (fun group => existsb (fun term => bool_decide (Term.id term = t)) (tokens group)
                  && bool_decide (Z.land (group_id group) 31 = g)) groups.
Proof.
  intros Hg. revert masks. induction groups as [|group groups IH]; intros masks; simpl.
  { by rewrite orb_false_r. }
  rewrite IH, buildTokenMasks_inner, shl_one_testbit by done. by rewrite orb_assoc.
Qed.

(** X4.  In the table of [buildTokenMasks], bit [g] (below 32) of the mask
    of the term id [t] is set exactly when [t] is the id of a token of a
    group whose id is [g] modulo 32; a term without entry counts as 0. *)
Theorem buildTokenMasks_bits groups t g :
  0 ≤ g < 32 →
  Z.testbit (default 0 (buildTokenMasks groups !! t)) g = true ↔
  ∃ group term, group ∈ groups ∧ term ∈ tokens group ∧ Term.id term = t ∧
    Z.land (group_id group) 31 = g.
Proof.
  intros Hg. unfold buildTokenMasks.
  change (default 0 (?m !! t)) with (mask_of m t).
  rewrite buildTokenMasks_fold by done. unfold mask_of at 1. rewrite lookup_empty. simpl.
  rewrite Z.bits_0. simpl. rewrite existsb_exists. split.
  - intros (group & Hin & H). apply andb_true_iff in H as (Hex & Hid).
    apply existsb_exists in Hex as (term & Hterm & Ht).
    exists group, term. rewrite !list_elem_of_In.
    by apply bool_decide_eq_true_1 in Ht, Hid.
  - intros (group & term & Hin & Hterm & Ht & Hid). exists group.
    split; [by apply list_elem_of_In |]. apply andb_true_iff. split.
    + apply existsb_exists. exists term. split; [by apply list_elem_of_In |].
      by apply bool_decide_eq_true_2.
    + by apply bool_decide_eq_true_2.
Qed.

Lemma buildTokenMasks_bits_witness :
  0 ≤ 1 < 32 ∧
  (Z.testbit (default 0 (buildTokenMasks
     [mkTokenGroup [Term.mk "a" 3 None false true] 0;
      mkTokenGroup [Term.mk "a" 3 None false true; Term.mk "b" 4 None false true] 1] !! 4)) 1
   = true ↔
   ∃ group term,
     group ∈ [mkTokenGroup [Term.mk "a" 3 None false true] 0;
              mkTokenGroup [Term.mk "a" 3 None false true; Term.mk "b" 4 None false true] 1] ∧
     term ∈ tokens group ∧ Term.id term = 4 ∧ Z.land (group_id group) 31 = 1).
Proof. split; [lia |]. apply buildTokenMasks_bits. lia. Defined.

End Tables.

(** * Character ranges as edges *)

Section RangeFacts.
Import Build.

Lemma hop_accepts_nil a b : hop_accepts [] a b ↔ False.
Proof. split; [| done]. intros (? & ? & ? & ? & H & _). by apply elem_of_nil in H. Qed.

Lemma hop_accepts_app l1 l2 a b :
  hop_accepts (l1 ++ l2) a b ↔ hop_accepts l1 a b ∨ hop_accepts l2 a b.
Proof.
  unfold hop_accepts. setoid_rewrite elem_of_app. split.
  - intros (lo & hi & lo2 & hi2 & [H | H] & Hr); [left | right]; by exists lo, hi, lo2, hi2.
  - intros [(lo & hi & lo2 & hi2 & H & Hr) | (lo & hi & lo2 & hi2 & H & Hr)];
      exists lo, hi, lo2, hi2; tauto.
Qed.

Lemma hop_accepts_direct lo hi a b : hop_accepts [Direct lo hi] a b ↔ False.
Proof.
  split; [| done]. intros (? & ? & ? & ? & H & _). by apply list_elem_of_singleton in H.
Qed.

Lemma hop_accepts_hop lo hi lo2 hi2 a b :
  hop_accepts [Hop lo hi lo2 hi2] a b ↔
  ∃ x y, lo2 = Some x ∧ hi2 = Some y ∧ lo ≤ a < hi ∧ x ≤ b < y.
Proof.
  split.
  - intros (lo' & hi' & x & y & H & Hr). apply list_elem_of_singleton in H.
    injection H as <- <- <- <-. by exists x, y.
  - intros (x & y & -> & -> & Hr). exists lo, hi, x, y. split; [| done].
    by apply list_elem_of_singleton.
Qed.

Lemma direct_accepts_nil u : direct_accepts [] u ↔ False.
Proof. split; [| done]. intros (? & ? & H & _). by apply elem_of_nil in H. Qed.

Lemma direct_accepts_app l1 l2 u :
  direct_accepts (l1 ++ l2) u ↔ direct_accepts l1 u ∨ direct_accepts l2 u.
Proof.
  unfold direct_accepts. setoid_rewrite elem_of_app. split.
  - intros (lo & hi & [H | H] & Hr); [left | right]; by exists lo, hi.
  - intros [(lo & hi & H & Hr) | (lo & hi & H & Hr)]; exists lo, hi; tauto.
Qed.

Lemma direct_accepts_direct lo hi u : direct_accepts [Direct lo hi] u ↔ lo ≤ u < hi.
Proof.
  split.
  - intros (lo' & hi' & H & Hr). apply list_elem_of_singleton in H. by injection H as <- <-.
  - intros Hr. exists lo, hi. split; [by apply list_elem_of_singleton | done].
Qed.

Lemma direct_accepts_hop lo hi lo2 hi2 u : direct_accepts [Hop lo hi lo2 hi2] u ↔ False.
Proof.
  split; [| done]. intros (? & ? & H & _). by apply list_elem_of_singleton in H.
Qed.

Lemma fromCodePoint_astral c :
  ASTRAL ≤ c ≤ MAX_CODE →
  ∃ a b, fromCodePoint c = Ok (a, Some b) ∧ GAP_START ≤ a < LOW_SURR_B ∧
    LOW_SURR_B ≤ b ≤ HIGH_SURR_B ∧ pair_code a b = c.
Proof.
  intros Hc. unfold fromCodePoint, pair_code, ASTRAL, MAX_CODE, GAP_START, LOW_SURR_B, HIGH_SURR_B in *.
  rewrite decide_True by lia. rewrite decide_False by lia.
  eexists _, _. split; [reflexivity |].
  rewrite Z.shiftr_div_pow2 by lia. change 0x3ff with (Z.ones 10). rewrite Z.land_ones by lia.
  change (2 ^ 10) with 1024.
  pose proof (Z.div_mod (c - 65536) 1024 ltac:(lia)).
  pose proof (Z.mod_pos_bound (c - 65536) 1024 ltac:(lia)).
  lia.
Qed.

Section Ranges.
Variable MAX_CHAR : Z.

Ltac accepts_simpl :=
  repeat first
    [ rewrite hop_accepts_app | rewrite hop_accepts_nil | rewrite hop_accepts_direct
    | rewrite hop_accepts_hop | rewrite direct_accepts_app | rewrite direct_accepts_nil
    | rewrite direct_accepts_direct | rewrite direct_accepts_hop ].

Ltac pick := solve [ eexists _, _; repeat split; first [reflexivity | lia] ].
Ltac solve_or := first [ lia | pick | left; solve_or | right; solve_or ].

(** X6.  For a range [low, hi) of code points that ends above U+10000, and
    that is not the case of a range from below the surrogates to the end of
    Unicode, the two-unit paths that [rangeEdges] adds are taken exactly by
    the surrogate pairs of the code points of the range from U+10000 on. *)
Theorem rangeEdges_pairs low hi :
  0 ≤ low < hi → hi ≤ MAX_CODE + 1 → ASTRAL < hi →
  ¬ (low < GAP_START ∧ hi = MAX_CODE + 1) →
  ∃ edges, rangeEdges MAX_CHAR low hi = Ok edges ∧
    ∀ a b, hop_accepts edges a b ↔
      GAP_START ≤ a < LOW_SURR_B ∧ LOW_SURR_B ≤ b ≤ HIGH_SURR_B ∧
      Z.max low ASTRAL ≤ pair_code a b < hi.
Proof.
  intros Hlow Hhi Hast Hspecial. unfold rangeEdges. rewrite decide_False by done.
  rewrite (decide_False (P := hi < ASTRAL)) by lia.
  set (low' := if decide (low < ASTRAL) then ASTRAL else low).
  assert (Hlow' : low' = Z.max low ASTRAL) by (unfold low'; case_decide; lia).
  destruct (fromCodePoint_astral low') as (lowA & lowB & -> & HlA & HlB & Hlc).
  { unfold MAX_CODE, ASTRAL in *. lia. }
  destruct (fromCodePoint_astral (hi - 1)) as (hiA & hiB & -> & HhA & HhB & Hhc).
  { unfold MAX_CODE, ASTRAL in *. lia. }
  simpl. rewrite <- Hlow'.
  set (edges := if decide (low < ASTRAL) then _ else _).
  assert (Hedges : ∀ a b, hop_accepts edges a b ↔ False).
  { intros a b. unfold edges. repeat case_decide; accepts_simpl; tauto. }
  clearbody edges. unfold pair_code, ASTRAL, GAP_START, LOW_SURR_B, HIGH_SURR_B in *.
  case_decide as HA.
  - eexists. split; [reflexivity |]. intros a b. accepts_simpl. rewrite Hedges. split.
    + intros [[] | (x & y & [= <-] & [= <-] & Ha & Hb)]. lia.
    + intros (Ha & Hb & Hc). right. exists lowB, (hiB + 1). repeat split; try done; lia.
  - eexists. split; [reflexivity |]. intros a b. unfold num_gt, num_lt.
    repeat case_bool_decide; repeat case_decide; accepts_simpl; rewrite Hedges; split.
    all: try (intros Hx; decompose [or and ex] Hx; simplify_eq; lia).
    all: intros (Ha & Hb & Hc).
    all: destruct (decide (a = lowA)) as [-> | HaL]; [solve_or |].
    all: destruct (decide (a = hiA)) as [-> | HaH]; solve_or.
Qed.



(** X7.  For a range that ends with U+FFFF ([hi] is 0x10000) the test
    [hi < ASTRAL] lets the call go on: next to the direct edges it adds a
    two-unit path that is taken by every unit from D800 to FFFF followed by
    a low surrogate, so by the surrogate pair of every code point above
    U+FFFF, none of which is in the range. *)
Theorem rangeEdges_plane_end low :
  0 ≤ low < ASTRAL →
  ∃ edges, rangeEdges MAX_CHAR low ASTRAL = Ok edges ∧
    ∀ a b, hop_accepts edges a b ↔ GAP_START ≤ a < ASTRAL ∧ LOW_SURR_B ≤ b ≤ HIGH_SURR_B.
Proof.
  intros Hlow. unfold rangeEdges.
  rewrite decide_False by (unfold ASTRAL, MAX_CODE; lia).
  destruct (decide (low < ASTRAL)) as [_ |]; [| lia].
  rewrite (decide_False (P := ASTRAL < ASTRAL)) by lia.
  set (edges := _ ++ _).
  assert (Hedges : ∀ a b, hop_accepts edges a b ↔ False).
  { intros a b. unfold edges. repeat case_decide; accepts_simpl; tauto. }
  clearbody edges.
  replace (fromCodePoint ASTRAL) with (Ok (GAP_START, Some LOW_SURR_B)) by reflexivity.
  replace (fromCodePoint (ASTRAL - 1)) with (Ok (ASTRAL - 1, @None Z)) by reflexivity.
  eexists. split; [reflexivity |]. intros a b. simpl.
  unfold ASTRAL, GAP_START, LOW_SURR_B, HIGH_SURR_B in *.

accepts_simpl. rewrite Hedges. split.
  - intros Hx; decompose [or and ex] Hx; simplify_eq; lia.
  - intros (Ha & Hb). solve_or.
Qed.

End Ranges.


Lemma rangeEdges_pairs_witness :
  ∃ edges, rangeEdges 0xffff 0x1f600 0x1f650 = Ok edges ∧
    ∀ a b, hop_accepts edges a b ↔
      GAP_START ≤ a < LOW_SURR_B ∧ LOW_SURR_B ≤ b ≤ HIGH_SURR_B ∧
      Z.max 0x1f600 ASTRAL ≤ pair_code a b < 0x1f650.
Proof.
  apply (rangeEdges_pairs 0xffff 0x1f600 0x1f650); [lia | by vm_compute | by vm_compute |].
  intros [Hlow _]. by vm_compute in Hlow.
Defined.

Lemma rangeEdges_plane_end_witness :
  ∃ edges, rangeEdges 0xffff 0xfff0 ASTRAL = Ok edges ∧
    ∀ a b, hop_accepts edges a b ↔ GAP_START ≤ a < ASTRAL ∧ LOW_SURR_B ≤ b ≤ HIGH_SURR_B.
Proof. apply (rangeEdges_plane_end 0xffff 0xfff0). by vm_compute. Defined.


End RangeFacts.

(** * Token precedences *)

Section Precedences.
Import Build.

Lemma elem_of_fold_add (l after : list Term.t) x :
  x ∈ fold_left (fun after t => add t after) l after ↔ x ∈ after ∨ x ∈ l.
Proof.
  revert after. induction l as [|t l IH]; intros after; simpl.
  - rewrite elem_of_nil. tauto.
  - rewrite IH, elem_of_add, elem_of_cons. tauto.
Qed.

Lemma relate_term_terms terms rel i t x :
  x ∈ rel_terms (relate_term terms rel i t) ↔ x ∈ rel_terms rel ∨ x = t.
Proof.
  unfold relate_term, rel_terms. destruct (list_find _ rel) as [[k found]|] eqn:Hfind.
  - apply list_find_Some in Hfind as (Hk & Ht & _). rewrite list_fmap_insert. simpl.
    rewrite list_insert_id by (by rewrite list_lookup_fmap, Hk).
    split; [tauto |]. intros [H | ->]; [done |]. apply list_elem_of_fmap. exists found.
    split; [done |]. by eapply list_elem_of_lookup_2.
  - rewrite fmap_app, elem_of_app. simpl. by rewrite list_elem_of_singleton.
Qed.

Lemma relate_term_NoDup terms rel i t :
  NoDup (rel_terms rel) → NoDup (rel_terms (relate_term terms rel i t)).
Proof.
  unfold relate_term, rel_terms. intros Hnd.
  destruct (list_find _ rel) as [[k found]|] eqn:Hfind.
  - apply list_find_Some in Hfind as (Hk & Ht & _). rewrite list_fmap_insert. simpl.
    by rewrite list_insert_id by (by rewrite list_lookup_fmap, Hk).
  - apply list_find_None in Hfind. rewrite fmap_app. simpl. apply NoDup_app.
    split; [done |]. split; [| apply NoDup_singleton].
    intros x Hx Hx'. apply list_elem_of_singleton in Hx' as ->.
    apply list_elem_of_fmap in Hx as (r & Hr & Hin).
    by apply (proj1 (Forall_forall _ _) Hfind r Hin).
Qed.

Lemma relate_term_mono terms rel i t a b :
  relates rel a b → relates (relate_term terms rel i t) a b.
Proof.
  intros (r & Hr & Hb & Ha). unfold relate_term.
  destruct (list_find _ rel) as [[k found]|] eqn:Hfind.
  - apply list_find_Some in Hfind as (Hk & Ht & _).
    apply list_elem_of_lookup in Hr as (n & Hn). destruct (decide (n = k)) as [-> | Hne].
    + assert (r = found) as -> by congruence. eexists. split.
      * eapply list_elem_of_lookup_2. apply list_lookup_insert_eq. by eapply lookup_lt_Some.
      * simpl. split; [done |]. apply elem_of_fold_add. by left.
    + exists r. split; [| done]. eapply list_elem_of_lookup_2.
      by rewrite list_lookup_insert_ne.
  - exists r. split; [| done]. apply elem_of_app. by left.
Qed.

Lemma relate_term_new terms rel i t a :
  a ∈ take i terms → relates (relate_term terms rel i t) a t.
Proof.
  intros Ha. unfold relate_term. destruct (list_find _ rel) as [[k found]|] eqn:Hfind.
  - apply list_find_Some in Hfind as (Hk & Ht & _). eexists. split.
    + eapply list_elem_of_lookup_2. apply list_lookup_insert_eq. by eapply lookup_lt_Some.
    + simpl. split; [done |]. apply elem_of_fold_add. by right.
  - eexists. split; [apply elem_of_app; right; by apply list_elem_of_singleton |]. done.
Qed.

Lemma relate_term_after terms rel i t r a :
  r ∈ relate_term terms rel i t → a ∈ rel_after r →
  (∃ r', r' ∈ rel ∧ a ∈ rel_after r') ∨ a ∈ take i terms.
Proof.
  unfold relate_term. destruct (list_find _ rel) as [[k found]|] eqn:Hfind.
  - apply list_find_Some in Hfind as (Hk & Ht & _). intros Hr Ha.
    apply list_elem_of_lookup in Hr as (n & Hn). destruct (decide (n = k)) as [-> | Hne].
    + rewrite list_lookup_insert_eq in Hn by (by eapply lookup_lt_Some).
      injection Hn as <-. simpl in Ha. apply elem_of_fold_add in Ha as [Ha | Ha]; [| by right].
      left. exists found. split; [by eapply list_elem_of_lookup_2 | done].
    + rewrite list_lookup_insert_ne in Hn by done. left. exists r.
      split; [by eapply list_elem_of_lookup_2 | done].
  - intros Hr Ha. apply elem_of_app in Hr as [Hr | Hr]; [left; by exists r |].
    apply list_elem_of_singleton in Hr as ->. by right.
Qed.

Lemma relate_from terms : ∀ todo seen rel,
  terms = seen ++ todo → rel_ok rel → (∀ x, x ∈ seen → x ∈ rel_terms rel) →
  let rel' := fold_left (fun rel '(i, term) => relate_term terms rel i term)
                (imap (fun i term => ((length seen + i)%nat, term)) todo) rel in
  rel_ok rel' ∧
  (∀ x, x ∈ rel_terms rel' ↔ x ∈ rel_terms rel ∨ x ∈ todo) ∧
  (∀ a b, relates rel a b → relates rel' a b) ∧
  (∀ i j a b, (i < j)%nat → (length seen ≤ j)%nat →
     terms !! i = Some a → terms !! j = Some b → relates rel' a b).
Proof.
  induction todo as [|t todo IH]; intros seen rel Hterms Hok Hseen; simpl.
  { split; [done |]. split; [intros x; rewrite elem_of_nil; tauto |]. split; [done |].
    intros i j a b Hij Hj _ Hb. apply lookup_lt_Some in Hb. subst terms.
    rewrite length_app in Hb. simpl in Hb. lia. }
  rewrite Nat.add_0_r.
  set (rel1 := relate_term terms rel (length seen) t).
  assert (Htake : take (length seen) terms = seen) by (subst terms; by rewrite take_app_length).
  assert (Hok1 : rel_ok rel1).
  { destruct Hok as (Hnd & Hafter). split; [by apply relate_term_NoDup |].
    intros r a Hr Ha. apply (proj2 (relate_term_terms terms rel (length seen) t a)). left.
    destruct (relate_term_after _ _ _ _ _ _ Hr Ha) as [(r' & Hr' & Ha') | Hin].
    - by apply (Hafter r').
    - rewrite Htake in Hin. by apply Hseen. }
  destruct (IH (seen ++ [t]) rel1) as (Hok' & Hterms' & Hmono & Hnew).
  { subst terms. by rewrite <- app_assoc. }
  { done. }
  { intros x Hx. apply (proj2 (relate_term_terms terms rel (length seen) t x)).
    apply elem_of_app in Hx as [Hx | Hx].
    - left. by apply Hseen.
    - right. by apply list_elem_of_singleton in Hx. }
  rewrite length_app in Hnew, Hterms', Hok', Hmono. simpl in Hnew, Hterms', Hok', Hmono.
  erewrite (imap_ext _ (fun i term => ((length seen + 1 + i)%nat, term))); last first.
  { intros i x _. simpl. f_equal. lia. }
  split; [done |]. split; [| split].
  - intros x. rewrite Hterms'. unfold rel1. rewrite relate_term_terms, elem_of_cons. tauto.
  - intros a b Hab. by apply Hmono, relate_term_mono.
  - intros i j a b Hij Hj Ha Hb. destruct (decide (j = length seen)) as [-> | Hne].
    + apply Hmono. assert (b = t) as ->.
      { subst terms. rewrite lookup_app_r, Nat.sub_diag in Hb by lia. simpl in Hb. congruence. }
      apply relate_term_new. rewrite Htake. subst terms.
      rewrite lookup_app_l in Ha by lia. by eapply list_elem_of_lookup_2.
    + apply (Hnew i j); [done | lia | done | done].
Qed.

Lemma relate_spec rel terms :
  rel_ok rel →
  rel_ok (relate rel terms) ∧
  (∀ x, x ∈ rel_terms (relate rel terms) ↔ x ∈ rel_terms rel ∨ x ∈ terms) ∧
  (∀ a b, relates rel a b → relates (relate rel terms) a b) ∧
  (∀ i j a b, (i < j)%nat → terms !! i = Some a → terms !! j = Some b →
     relates (relate rel terms) a b).
Proof.
  intros Hok. destruct (relate_from terms terms [] rel) as (H1 & H2 & H3 & H4);
    [done | done | by intros x Hx%elem_of_nil |].
  simpl in *. unfold relate. split; [done |]. split; [done |]. split; [done |].
  intros i j a b Hij Ha Hb. apply (H4 i j); [done | lia | done | done].
Qed.

Lemma relate_groups groups : ∀ rel,
  rel_ok rel →
  let rel' := fold_left relate groups rel in
  rel_ok rel' ∧
  (∀ x, x ∈ rel_terms rel' ↔ x ∈ rel_terms rel ∨ ∃ terms, terms ∈ groups ∧ x ∈ terms) ∧
  (∀ a b, relates rel a b → relates rel' a b) ∧
  (∀ terms i j a b, terms ∈ groups → (i < j)%nat → terms !! i = Some a →
     terms !! j = Some b → relates rel' a b).
Proof.
  induction groups as [|terms groups IH]; intros rel Hok; simpl.
  { split; [done |]. split; [| split; [done |]].
    - intros x. split; [tauto |]. intros [? | (? & []%elem_of_nil & _)]. done.
    - by intros terms i j a b Hin%elem_of_nil. }
  destruct (relate_spec rel terms Hok) as (Hok1 & Ht1 & Hm1 & Hn1).
  destruct (IH _ Hok1) as (Hok' & Ht' & Hm' & Hn').
  split; [done |]. split; [| split].
  - intros x. rewrite Ht', Ht1. split.
    + intros [[H | H] | (ts & Hts & Hx)]; [by left | right | right].
      * exists terms. split; [apply elem_of_cons; by left | done].
      * exists ts. split; [apply elem_of_cons; by right | done].
    + intros [H | (ts & Hts & Hx)]; [by left; left |].
      apply elem_of_cons in Hts as [-> | Hts]; [by left; right |]. right. by exists ts.
  - intros a b Hab. by apply Hm', Hm1.
  - intros ts i j a b Hts Hij Ha Hb. apply elem_of_cons in Hts as [-> | Hts].
    + apply Hm'. by apply (Hn1 i j).
    + by apply (Hn' ts i j).
Qed.

Lemma relate_term_sound (Q : Term.t → Term.t → Prop) terms rel i t :
  (∀ a b, relates rel a b → Q a b) → (∀ a, a ∈ take i terms → Q a t) →
  ∀ a b, relates (relate_term terms rel i t) a b → Q a b.
Proof.
  intros Hold Hnew a b (r & Hr & Hb & Ha). revert Hr. unfold relate_term.
  destruct (list_find _ rel) as [[k found]|] eqn:Hfind.
  - apply list_find_Some in Hfind as (Hk & Ht & _). intros Hr.
    apply list_elem_of_lookup in Hr as (n & Hn). destruct (decide (n = k)) as [-> | Hne].
    + rewrite list_lookup_insert_eq in Hn by (by eapply lookup_lt_Some).
      injection Hn as <-. simpl in *. apply elem_of_fold_add in Ha as [Ha | Ha].
      * apply Hold. exists found. split; [by eapply list_elem_of_lookup_2 | done].
      * subst b. rewrite Ht. by apply Hnew.
    + rewrite list_lookup_insert_ne in Hn by done. apply Hold. exists r.
      split; [by eapply list_elem_of_lookup_2 | done].
  - intros Hr. apply elem_of_app in Hr as [Hr | Hr]; [apply Hold; by exists r |].
    apply list_elem_of_singleton in Hr as ->. simpl in *. subst b. by apply Hnew.
Qed.

Lemma relate_sound (Q : Term.t → Term.t → Prop) terms rel :
  (∀ a b, relates rel a b → Q a b) →
  (∀ i j a b, (i < j)%nat → terms !! i = Some a → terms !! j = Some b → Q a b) →
  ∀ a b, relates (relate rel terms) a b → Q a b.
Proof.
  intros Hold Hnew. unfold relate.
  assert (Hps : Forall (fun '(i, t) => terms !! i = Some t)
                  (imap (fun i term => (i, term)) terms)).
  { apply Forall_forall. intros [i t] Hin.
    apply elem_of_lookup_imap in Hin as (i' & t' & [= -> ->] & Hl). done. }
  revert rel Hold Hps. generalize (imap (fun i term => (i, term)) terms).
  intros ps. induction ps as [|[i t] ps IH]; intros rel Hold Hps; simpl; [done |].
  apply Forall_cons in Hps as (Hit & Hps). apply IH; [| done].
  apply relate_term_sound; [done |]. intros a Ha.
  apply list_elem_of_lookup in Ha as (i' & Hi').
  apply lookup_take_Some in Hi' as (Hi' & Hlt). by apply (Hnew i' i).
Qed.

Lemma relate_groups_sound groups : ∀ done_ rel,
  (∀ a b, relates rel a b → precedes (done_ ++ groups) a b) →
  ∀ a b, relates (fold_left relate groups rel) a b → precedes (done_ ++ groups) a b.
Proof.
  induction groups as [|terms groups IH]; intros done_ rel Hold; simpl; [done |].
  replace (done_ ++ terms :: groups) with ((done_ ++ [terms]) ++ groups) in *
    by (by rewrite <- app_assoc).
  apply IH. apply relate_sound; [done |]. intros i j a b Hij Ha Hb.
  exists terms, i, j. split; [| done]. rewrite elem_of_app. left.
  rewrite elem_of_app. right. by apply list_elem_of_singleton.
Qed.

Lemma dropAt_perm rel i record :
  rel !! i = Some record → record :: dropAt rel i ≡ₚ rel.
Proof.
  induction rel as [|l init _] using rev_ind; [done |]. intros Hi.
  unfold dropAt. rewrite last_snoc, removelast_last. case_decide as Hlt.
  - rewrite lookup_app_l in Hi by done.
    rewrite insert_take_drop by done.
    pose proof (take_drop_middle init i record Hi) as Hsplit.
    remember (take i init) as front eqn:Hfront. remember (drop (S i) init) as back eqn:Hback.
    clear Hfront Hback Hi Hlt. subst init. rewrite <- app_assoc. simpl.
    rewrite <- !Permutation_middle. constructor. by rewrite app_assoc, app_nil_r.
  - assert (i = length init) as ->.
    { apply lookup_lt_Some in Hi. rewrite length_app in Hi. simpl in Hi. lia. }
    rewrite lookup_app_r, Nat.sub_diag in Hi by lia. injection Hi as ->.
    by rewrite Permutation_app_comm.
Qed.

Lemma ready_spec ordered record :
  ready ordered record = true ↔ ∀ a, a ∈ rel_after record → a ∈ ordered.
Proof.
  unfold ready. rewrite forallb_forall. split.
  - intros H a Ha. eapply bool_decide_eq_true_1, H. by apply list_elem_of_In.
  - intros H a Ha. apply bool_decide_eq_true_2, H. by apply list_elem_of_In.
Qed.

Section Order.
Variable posInfo : Z → string.
Variable termToString : Term.t → string.

Lemma order_loop_spec rel0 : rel_ok rel0 → ∀ fuel rel ordered,
  (length rel < fuel)%nat →
  ordered ++ rel_terms rel ≡ₚ rel_terms rel0 →
  (∀ r, r ∈ rel0 → r ∈ rel ∨ placed ordered r) →
  (∀ r, r ∈ rel → r ∈ rel0) →
  match order_loop posInfo termToString fuel rel ordered with
  | Ok ordered' => ordered' ≡ₚ rel_terms rel0 ∧ ∀ r, r ∈ rel0 → placed ordered' r
  | Err e => ∃ rel', e = Thrown (message posInfo (cyclicMessage termToString rel') 1) ∧
      stuck rel' ∧ ∀ r, r ∈ rel' → r ∈ rel0
  end.
Proof.
  intros (Hnd0 & Hafter0). induction fuel as [|fuel IH]; intros rel ordered Hfuel Hperm Hdone Hsub;
    [lia |]. simpl.
  destruct (list_find _ rel) as [[i record]|] eqn:Hfind.
  - apply list_find_Some in Hfind as (Hi & Hready & _).
    pose proof (dropAt_perm _ _ _ Hi) as Hdrop. apply IH.
    + apply Permutation_length in Hdrop. simpl in Hdrop. lia.
    + rewrite <- Hperm, <- app_assoc. apply Permutation_app_head. unfold rel_terms.
      change ([rel_term record] ++ (rel_term <$> dropAt rel i))
        with (rel_term <$> record :: dropAt rel i). by rewrite Hdrop.
    + intros r Hr. destruct (Hdone r Hr) as [Hin | (l1 & l2 & -> & Hl1)].
      * rewrite <- Hdrop in Hin. apply elem_of_cons in Hin as [-> | Hin]; [| by left].
        right. exists ordered, []. split; [done |]. by apply ready_spec.
      * right. exists l1, (l2 ++ [rel_term record]). split; [| done].
        by rewrite <- app_assoc.
    + intros r Hr. apply Hsub. rewrite <- Hdrop. apply elem_of_cons. by right.
  - apply list_find_None in Hfind. destruct rel as [|r0 rel'] eqn:Hrel.
    + split; [by rewrite <- Hperm, app_nil_r |]. intros r Hr.
      destruct (Hdone r Hr) as [Hin | Hp]; [by apply elem_of_nil in Hin | done].
    + rewrite <- Hrel in *. exists rel. split; [done |]. split; [| done]. split.
      { by rewrite Hrel. }
      intros r Hr. pose proof (proj1 (Forall_forall _ _) Hfind r Hr) as Hnot.
      simpl in Hnot. rewrite ready_spec in Hnot.
      assert (∃ a, a ∈ rel_after r ∧ a ∉ ordered) as (a & Ha & Hna).
      { destruct (decide (Forall (fun a => a ∈ ordered) (rel_after r))) as [Hall | Hnall].
        - exfalso. apply Hnot. by apply Forall_forall.
        - apply not_Forall_Exists in Hnall; [| apply _].
          apply Exists_exists in Hnall as (a & Ha & Hna). by exists a. }
      assert (Hin : a ∈ rel_terms rel0) by (by apply (Hafter0 r); [apply Hsub |]).
      rewrite <- Hperm in Hin. apply elem_of_app in Hin as [Hin | Hin]; [done |].
      apply list_elem_of_fmap in Hin as (r' & -> & Hr'). by exists r'.
Qed.

Lemma takePrecedences_spec groups :
  match takePrecedences posInfo termToString groups with
  | Ok (rel, ordered) =>
      NoDup ordered ∧
      (∀ t, t ∈ ordered ↔ ∃ terms, terms ∈ groups ∧ t ∈ terms) ∧
      ∀ a b, precedes groups a b → before ordered a b
  | Err e =>
      ∃ rel, e = Thrown (message posInfo (cyclicMessage termToString rel) 1) ∧
        cyclic groups (rel_term <$> rel)
  end.
Proof.
  unfold takePrecedences.
  assert (Hok0 : rel_ok []).
  { split; [constructor |]. by intros r a Hr%elem_of_nil. }
  destruct (relate_groups groups [] Hok0) as (Hok & Hterms & _ & Hnew).
  pose proof (relate_groups_sound groups [] []) as Hsound. simpl in Hsound, Hterms, Hnew, Hok.
  set (rel := fold_left relate groups []) in *.
  pose proof (order_loop_spec rel Hok (S (length rel)) rel []) as Hloop.
  destruct (order_loop posInfo termToString (S (length rel)) rel []) as [ordered | e]; simpl.
  - destruct Hloop as (Hperm & Hplaced); [lia | done | by left | done |].
    split; [| split].
    + rewrite Hperm. apply Hok.
    + intros t. rewrite Hperm, Hterms. split; [| tauto].
      intros [Hin | H]; [| done]. by apply elem_of_nil in Hin.
    + intros a b (terms & i & j & Hin & Hij & Ha & Hb).
      destruct (Hnew terms i j a b Hin Hij Ha Hb) as (r & Hr & <- & Har).
      destruct (Hplaced r Hr) as (l1 & l2 & -> & Hl1). exists l1, l2. split; [done |].
      by apply Hl1.
  - destruct Hloop as (rel' & -> & (Hne & Hstuck) & Hsub); [lia | done | by left | done |].
    exists rel'. split; [done |]. split; [by destruct rel' |].
    intros b Hb. apply list_elem_of_fmap in Hb as (r & -> & Hr).
    destruct (Hstuck r Hr) as (r' & Hr' & Hafter). exists (rel_term r').
    split; [apply list_elem_of_fmap; by exists r' |].
    apply Hsound; [by intros a b (? & []%elem_of_nil & _) |].
    exists r. split; [by apply Hsub |]. done.
Qed.

(** X8.  [takePrecedences] either returns an order of the tokens of the
    precedence groups, each once, in which a token that stands before
    another one in a group comes first, or raises [Cyclic token precedence
    relation] for a non-empty list of tokens each of which has to come after
    another token of the list.  The loop always ends. *)
Theorem takePrecedences_ordered groups :
  match takePrecedences posInfo termToString groups with
  | Ok (rel, ordered) =>
      NoDup ordered ∧
      (∀ t, t ∈ ordered ↔ ∃ terms, terms ∈ groups ∧ t ∈ terms) ∧
      ∀ a b, precedes groups a b → before ordered a b
  | Err e =>
      ∃ rel, e = Thrown (message posInfo (cyclicMessage termToString rel) 1) ∧
        cyclic groups (rel_term <$> rel)
  end.
Proof. apply takePrecedences_spec. Qed.

Lemma min_rank (rank : Term.t → nat) (terms : list Term.t) :
  terms ≠ [] → ∃ b, b ∈ terms ∧ ∀ a, a ∈ terms → (rank b ≤ rank a)%nat.
Proof.
  induction terms as [|t terms IH]; [done |]. intros _.
  destruct terms as [|t' terms].
  { exists t. split; [apply elem_of_cons; by left |].
    intros a Ha. apply list_elem_of_singleton in Ha as ->. lia. }
  destruct (IH ltac:(done)) as (b & Hb & Hmin).
  destruct (decide (rank t ≤ rank b)%nat).
  - exists t. split; [apply elem_of_cons; by left |]. intros a Ha.
    apply elem_of_cons in Ha as [-> | Ha]; [lia |]. specialize (Hmin a Ha). lia.
  - exists b. split; [apply elem_of_cons; by right |]. intros a Ha.
    apply elem_of_cons in Ha as [-> | Ha]; [lia | by apply Hmin].
Qed.

(** X9.  When the groups agree with one ranking of the tokens (a token
    that stands before another one in a group has the smaller rank),
    [takePrecedences] does not raise: it returns an order that respects
    every group. *)
Theorem takePrecedences_succeeds groups (rank : Term.t → nat) :
  (∀ a b, precedes groups a b → (rank a < rank b)%nat) →
  ∃ rel ordered, takePrecedences posInfo termToString groups = Ok (rel, ordered) ∧
    ∀ a b, precedes groups a b → before ordered a b.
Proof.
  intros Hrank. pose proof (takePrecedences_spec groups) as Hspec.
  destruct (takePrecedences posInfo termToString groups) as [[rel ordered] | e].
  - exists rel, ordered. split; [done |]. apply Hspec.
  - exfalso. destruct Hspec as (rel & _ & Hne & Hcyc).
    destruct (min_rank rank _ Hne) as (b & Hb & Hmin).
    destruct (Hcyc b Hb) as (a & Ha & Hab). specialize (Hmin a Ha).
    specialize (Hrank a b Hab). lia.
Qed.

End Order.

Lemma takePrecedences_succeeds_witness :
  ∃ rel ordered,
    takePrecedences (fun _ => "") Term.name
      [[Term.mk "a" 1 None false true; Term.mk "b" 2 None false true]] = Ok (rel, ordered) ∧
    ∀ a b, precedes [[Term.mk "a" 1 None false true; Term.mk "b" 2 None false true]] a b →
      before ordered a b.
Proof.
  apply (takePrecedences_succeeds (fun _ => "") Term.name
           [[Term.mk "a" 1 None false true; Term.mk "b" 2 None false true]]
           (fun t => Z.to_nat (Term.id t))).
  intros a b (terms & i & j & Hin & Hij & Ha & Hb).
  apply list_elem_of_singleton in Hin as ->.
  destruct j as [|[|j]]; [lia | | done]. destruct i as [|i]; [| lia].
  injection Ha as <-. injection Hb as <-. simpl. lia.
Defined.

End Precedences.

(** * Names *)

Section Names.
Import Build.

Lemma string_app_length (s1 s2 : string) :
  String.length (s1 +:+ s2) = (String.length s1 + String.length s2)%nat.
Proof. induction s1 as [|c s1 IH]; simpl; [done | by rewrite IH]. Qed.

Lemma candidate_inj base : Inj (=) (=) (candidate base).
Proof.
  intros i j. unfold candidate. repeat case_decide; intros Heq; subst; try done.
  - apply (f_equal String.length) in Heq. rewrite string_app_length in Heq. simpl in Heq. lia.
  - apply (f_equal String.length) in Heq. rewrite string_app_length in Heq. simpl in Heq. lia.
  - apply (inj (String.app base)) in Heq. apply (inj (String.app "-")) in Heq.
    by apply (inj pretty) in Heq.
Qed.

Lemma freshName_loop taken base : ∀ fuel i k,
  (k < fuel)%nat → candidate base (i + k) ∉ taken →
  ∃ k', (k' ≤ k)%nat ∧ freshName fuel taken base i = Ok (candidate base (i + k')) ∧
    (candidate base (i + k') ∉ taken) ∧
    ∀ m, (m < k')%nat → candidate base (i + m) ∈ taken.
Proof.
  induction fuel as [|fuel IH]; intros i k Hk Hfree; [lia |]. simpl.
  destruct (existsb _ taken) eqn:Hex.
  - apply existsb_exists in Hex as (t & Hin & Ht). apply bool_decide_eq_true_1 in Ht. subst t.
    apply list_elem_of_In in Hin.
    destruct k as [|k]; [by rewrite Nat.add_0_r in Hfree |].
    destruct (IH (i + 1)%nat k) as (k' & Hle & -> & Hfresh & Hmin); [lia | |].
    { by replace (i + 1 + k)%nat with (i + S k)%nat by lia. }
    exists (S k'). replace (i + S k')%nat with (i + 1 + k')%nat by lia.
    split; [lia |]. split; [done |]. split; [done |]. intros m Hm.
    destruct m as [|m]; [by rewrite Nat.add_0_r |].
    replace (i + S m)%nat with (i + 1 + m)%nat by lia. apply Hmin. lia.
  - exists 0%nat. rewrite Nat.add_0_r. split; [lia |]. split; [done |]. split; [| lia].
    intros Hin.
    assert (Htrue : existsb (fun t => bool_decide (t = candidate base i)) taken = true);
      [| congruence].
    apply existsb_exists.
    exists (candidate base i). split; [by apply list_elem_of_In | by apply bool_decide_eq_true_2].
Qed.

Lemma candidate_free (taken : list string) base i :
  ∃ k, (k ≤ length taken)%nat ∧ candidate base (i + k) ∉ taken.
Proof.
  set (cs := candidate base <$> seq i (S (length taken))).
  destruct (decide (Forall (fun c => c ∈ taken) cs)) as [Hall | Hnot].
  - exfalso. assert (Hsub : cs ⊆+ taken).
    { apply NoDup_submseteq; [| by apply Forall_forall].
      apply (NoDup_fmap_2 _ (Inj0 := candidate_inj base)), NoDup_seq. }
    apply submseteq_length in Hsub. unfold cs in Hsub.
    rewrite length_fmap, length_seq in Hsub. lia.
  - apply not_Forall_Exists in Hnot; [| apply _].
    apply Exists_exists in Hnot as (c & Hc & Hfree).
    apply list_elem_of_fmap in Hc as (n & -> & Hn). apply elem_of_seq in Hn.
    exists (n - i)%nat. split; [lia |]. by replace (i + (n - i))%nat with n by lia.
Qed.

Lemma freshName_fresh (taken : list string) base i :
  ∃ k, (k ≤ length taken)%nat ∧
    freshName (S (length taken)) taken base i = Ok (candidate base (i + k)) ∧
    (candidate base (i + k) ∉ taken) ∧
    ∀ m, (m < k)%nat → candidate base (i + m) ∈ taken.
Proof.
  destruct (candidate_free taken base i) as (k & Hk & Hfree).
  destruct (freshName_loop taken base (S (length taken)) i k) as (k' & Hle & H); [lia | done |].
  exists k'. split; [lia | done].
Qed.

(** X10.  [Builder.newName(base, tag)] ends and picks a name that no
    non-terminal has yet.  With a tag it is [base] itself when that is free;
    without a tag it is never [base] but [base-i] for a number [i]. *)
Theorem newName_fresh nonTerminals base tag :
  ∃ name, newName nonTerminals base tag
            = Ok (name, match tag with TagString s => Some s | _ => None end) ∧
    (∀ t, t ∈ nonTerminals → Term.name t ≠ name) ∧
    (truthy tag = true → (∀ t, t ∈ nonTerminals → Term.name t ≠ base) → name = base) ∧
    (truthy tag = false → name ≠ base).
Proof.
  unfold newName.
  destruct (freshName_fresh (Term.name <$> nonTerminals) base (if truthy tag then 0 else 1)%nat)
    as (k & Hk & Hres & Hfresh & Hmin).
  rewrite length_fmap in Hres. rewrite Hres. simpl. eexists. split; [reflexivity |].
  split; [| split].
  - intros t Ht Heq. apply Hfresh. rewrite <- Heq. apply list_elem_of_fmap. by exists t.
  - intros Htag Hfree. rewrite Htag in *. simpl in *. destruct k as [|k]; [done |].
    exfalso. specialize (Hmin 0%nat ltac:(lia)). simpl in Hmin.
    apply list_elem_of_fmap in Hmin as (t & Heq & Ht). by apply (Hfree t Ht).
  - intros Htag Heq. rewrite Htag in *. unfold candidate in Heq.
    rewrite decide_False in Heq by lia.
    apply (f_equal String.length) in Heq. rewrite string_app_length in Heq. simpl in Heq. lia.
Qed.

(** X11.  [Builder.makeTerminal(name, tag)] ends and picks a name that no
    terminal has yet: [name] itself when it is free, and otherwise
    [name-i] for the least [i] from 1 on that is free. *)
Theorem makeTerminal_fresh terminals name tag :
  ∃ k, makeTerminal terminals name tag = Ok (candidate name k, tag) ∧
    (∀ t, t ∈ terminals → Term.name t ≠ candidate name k) ∧
    ∀ m, (m < k)%nat → ∃ t, t ∈ terminals ∧ Term.name t = candidate name m.
Proof.
  unfold makeTerminal.
  destruct (freshName_fresh (Term.name <$> terminals) name 0) as (k & Hk & Hres & Hfresh & Hmin).
  rewrite length_fmap in Hres. rewrite Hres. simpl in *. exists k. split; [done |]. split.
  - intros t Ht Heq. apply Hfresh. rewrite <- Heq. apply list_elem_of_fmap. by exists t.
  - intros m Hm. specialize (Hmin m Hm). simpl in Hmin.
    apply list_elem_of_fmap in Hmin as (t & Heq & Ht). by exists t.
Qed.

Section Unique.
Variable posInfo : Z → string.

(** X12.  Declaring the identifiers of a list with [Builder.unique], one
    after the other, succeeds exactly when their names are pairwise
    distinct and none is in the dictionary yet; the dictionary then maps
    each name to its identifier.  Otherwise the call for the first
    identifier whose name is taken raises [Duplicate definition of rule]
    with that name, at the position of the identifier. *)
Theorem unique_all ids : ∀ ruleNames,
  match Automaton.foldlM (unique posInfo) ids ruleNames with
  | Ok m =>
      NoDup (id_name <$> ids) ∧
      (∀ id, id ∈ ids → ruleNames !! id_name id = None ∧ m !! id_name id = Some (Some id)) ∧
      (∀ name, name ∉ id_name <$> ids → m !! name = ruleNames !! name)
  | Err e =>
      ∃ pre id post, ids = pre ++ id :: post ∧
        (is_Some (ruleNames !! id_name id) ∨ id_name id ∈ id_name <$> pre) ∧
        NoDup (id_name <$> pre) ∧
        (∀ id', id' ∈ pre → ruleNames !! id_name id' = None) ∧
        e = Thrown (message posInfo (duplicateMessage (id_name id)) (id_start id))
  end.
Proof.
  induction ids as [|id ids IH]; intros ruleNames; simpl.
  { split; [constructor |]. split; [by intros id Hin%elem_of_nil | done]. }
  unfold unique at 1. case_decide as Hdup; simpl.
  { exists [], id, ids. split; [done |]. split; [by left |]. split; [constructor |].
    split; [by intros id' Hin%elem_of_nil | done]. }
  apply eq_None_not_Some in Hdup.
  specialize (IH (<[id_name id := Some id]> ruleNames)).
  destruct (Automaton.foldlM _ ids _) as [m | e].
  - destruct IH as (Hnd & Hin & Hout).
    assert (Hfresh : id_name id ∉ id_name <$> ids).
    { intros Hx. apply list_elem_of_fmap in Hx as (id' & Heq & Hid').
      destruct (Hin id' Hid') as (Hnone & _). by rewrite <- Heq, lookup_insert_eq in Hnone. }
    split; [by constructor |]. split.
    + intros id' Hid'. apply elem_of_cons in Hid' as [-> | Hid'].
      * split; [done |]. by rewrite Hout, lookup_insert_eq.
      * destruct (Hin id' Hid') as (Hnone & Hsome). split; [| done].
        destruct (decide (id_name id = id_name id')) as [Heq | Hne].
        -- by rewrite Heq, lookup_insert_eq in Hnone.
        -- by rewrite lookup_insert_ne in Hnone.
    + intros name Hname. rewrite not_elem_of_cons in Hname. destruct Hname as (Hne & Hname).
      by rewrite Hout, lookup_insert_ne.
  - destruct IH as (pre & id' & post & -> & Hcause & Hnd & Hpre & ->).
    exists (id :: pre), id', post. split; [done |]. split; [| split; [| split; [| done]]].
    + destruct (decide (id_name id = id_name id')) as [Heq | Hne].
      * right. rewrite <- Heq. simpl. apply elem_of_cons. by left.
      * rewrite lookup_insert_ne in Hcause by done. destruct Hcause as [? | ?]; [by left |].
        right. simpl. apply elem_of_cons. by right.
    + simpl. constructor; [| done]. intros Hx.
      apply list_elem_of_fmap in Hx as (id'' & Heq & Hid'').
      specialize (Hpre id'' Hid''). by rewrite <- Heq, lookup_insert_eq in Hpre.
    + intros id'' Hid''. apply elem_of_cons in Hid'' as [-> | Hid'']; [done |].
      specialize (Hpre id'' Hid''). destruct (decide (id_name id = id_name id'')) as [Heq | Hne].
      * by rewrite Heq, lookup_insert_eq in Hpre.
      * by rewrite lookup_insert_ne in Hpre.
Qed.
End Unique.

End Names.

(** * Positions in the grammar text *)

Section Lines.
Import Build Parse.

Lemma newlines_none (l : list Z) : Forall (fun c => c ≠ 10) l → newlines l = 0%nat.
Proof.
  unfold newlines. induction 1 as [|c l Hc _ IH]; [done |].
  by rewrite filter_cons, decide_False.
Qed.

Lemma newlines_app (l k : list Z) : newlines (l ++ k) = (newlines l + newlines k)%nat.
Proof. unfold newlines. by rewrite filter_app, length_app. Qed.

Lemma newlines_take text cur p :
  (cur ≤ p)%nat → (∀ k, (cur ≤ k < p)%nat → text !! k ≠ Some 10) →
  newlines (take p text) = newlines (take cur text).
Proof.
  intros Hle Hno. replace p with (cur + (p - cur))%nat by lia.
  rewrite <- take_take_drop, newlines_app.
  rewrite (newlines_none (take (p - cur) (drop cur text))); [lia |].
  apply Forall_lookup. intros k c Hk ->. apply lookup_take_Some in Hk as (Hk & Hlt).
  rewrite lookup_drop in Hk. apply (Hno (cur + k)%nat); [lia | done].
Qed.

Lemma newlines_take_S text next :
  text !! next = Some 10 → newlines (take (S next) text) = S (newlines (take next text)).
Proof.
  intros Hnext. rewrite (take_S_r _ _ _ Hnext), newlines_app. unfold newlines at 2.
  rewrite filter_cons, decide_True by done. simpl. lia.
Qed.

Lemma lineInfo_loop_spec text pos : ∀ fuel line cur,
  (length text < fuel + cur)%nat → (cur ≤ length text)%nat →
  line = S (newlines (take cur text)) →
  Z.of_nat cur ≤ Z.max pos 0 →
  (cur = 0%nat ∨ text !! (cur - 1)%nat = Some 10) →
  ∃ line' cur',
    lineInfo_loop fuel text pos line cur = Ok (line', pos - Z.of_nat cur') ∧
    line' = S (newlines (take (Z.to_nat pos) text)) ∧
    Z.of_nat cur' ≤ Z.max pos 0 ∧
    (cur' = 0%nat ∨ text !! (cur' - 1)%nat = Some 10) ∧
    ∀ k, (cur' ≤ k)%nat → Z.of_nat k < pos → text !! k ≠ Some 10.
Proof.
  induction fuel as [|fuel IH]; intros line cur Hfuel Hcur Hline Hpos Hstart; [lia |].
  cbn [lineInfo_loop].
  destruct (indexOf text (Some 10) cur) as [next|] eqn:Hidx.
  - apply indexOf_Some in Hidx as (Hle & Hnext & Hmin).
    assert (next < length text)%nat by (by eapply lookup_lt_Some).
    case_decide as Hlt.
    + apply IH; [lia | lia | | lia |].
      * replace (next + 1)%nat with (S next) by lia. rewrite newlines_take_S by done.
        rewrite (newlines_take text cur next) by done. lia.
      * right. by replace (next + 1 - 1)%nat with next by lia.
    + exists line, cur. split; [done |]. split; [| split; [done | split; [done |]]].
      * destruct (decide (pos < 0)).
        -- assert (cur = 0%nat) as -> by lia. by replace (Z.to_nat pos) with 0%nat by lia.
        -- rewrite (newlines_take text cur (Z.to_nat pos)); [done | lia |].
           intros k Hk. apply Hmin. lia.
      * intros k Hk Hkp. apply Hmin. lia.
  - pose proof (proj1 (indexOf_None _ _ _) Hidx) as Hno.
    exists line, cur. split; [done |]. split; [| split; [done | split; [done |]]].
    + destruct (decide (pos < 0)).
      * assert (cur = 0%nat) as -> by lia. by replace (Z.to_nat pos) with 0%nat by lia.
      * rewrite (newlines_take text cur (Z.to_nat pos)); [done | lia |].
        intros k Hk. apply Hno. lia.
    + intros k Hk _. by apply Hno.
Qed.

(** X13.  [Input.lineInfo(pos)] ends; its [line] is one more than the
    number of line feeds before [pos], and its [ch] is the distance of
    [pos] from the start of that line: the offset after the last line feed
    before [pos], or 0. *)
Theorem lineInfo_spec text pos :
  ∃ line cur,
    lineInfo text pos = Ok (line, pos - Z.of_nat cur) ∧
    line = S (newlines (take (Z.to_nat pos) text)) ∧
    Z.of_nat cur ≤ Z.max pos 0 ∧
    (cur = 0%nat ∨ text !! (cur - 1)%nat = Some 10) ∧
    ∀ k, (cur ≤ k)%nat → Z.of_nat k < pos → text !! k ≠ Some 10.
Proof.
  apply lineInfo_loop_spec; [lia | lia | done | lia | by left].
Qed.

End Lines.

(** * Comparisons and precedences of the grammar *)

Section GrammarFacts.
Import Grammar Automaton.

Lemma js_or_zero a b : a ||| b = 0 ↔ a = 0 ∧ b = 0.
Proof. unfold js_or. case_decide; lia. Qed.

Lemma cmpStr_zero a b : cmpStr a b = 0 ↔ a = b.
Proof. unfold cmpStr. case_decide; [done |]. destruct (str_lt a b); split; (done || lia). Qed.

Lemma assoc_str_inj a b : assoc_str a = assoc_str b → a = b.
Proof. by destruct a as [[]|], b as [[]|]. Qed.

Lemma Precedence_eq_spec p q : Precedence.eq p q = true ↔ p = q.
Proof.
  unfold Precedence.eq. rewrite !andb_true_iff, !bool_decide_eq_true.
  destruct p, q; simpl. split; [by intros [[-> ->] ->] | by intros [= -> -> ->]].
Qed.

(** X14.  [Precedence.cmp] and [Precedence.eq] agree: the comparison is 0
    exactly when [eq] holds, which is exactly when the two precedences have
    the same associativity, group and level. *)
Theorem Precedence_cmp_eq p q :
  (Precedence.cmp p q = 0 ↔ Precedence.eq p q = true) ∧
  (Precedence.eq p q = true ↔ p = q).
Proof.
  split; [| apply Precedence_eq_spec]. rewrite Precedence_eq_spec.
  unfold Precedence.cmp. rewrite !js_or_zero, !cmpStr_zero. destruct p, q; simpl. split.
  - intros [[Ha ->] Hp]. apply assoc_str_inj in Ha as ->. f_equal. lia.
  - intros [= -> -> ->]. split; [done | lia].
Qed.

(** X15.  For two different terms with the same name [Term.cmp] answers 1
    in both directions: the name test yields 1, so the difference of the
    flags after [||] is never used and the comparison is not
    antisymmetric. *)
Theorem Term_cmp_same_name a b :
  a ≠ b → Term.name a = Term.name b → Term.cmp a b = 1 ∧ Term.cmp b a = 1.
Proof.
  intros Hne Hname. unfold Term.cmp. rewrite !decide_False by done. rewrite Hname.
  assert (str_lt (Term.name b) (Term.name b) = false) as ->.
  { destruct (str_lt_spec (Term.name b) (Term.name b)) as [(_ & H & _) | [(H & _) | (H & _)]]; done. }
  done.
Qed.

Lemma Term_cmp_same_name_witness :
  Term.cmp (Term.mk "x" 0 None) (Term.mk "x" 1 None) = 1 ∧
  Term.cmp (Term.mk "x" 1 None) (Term.mk "x" 0 None) = 1.
Proof. by apply (Term_cmp_same_name (Term.mk "x" 0 None) (Term.mk "x" 1 None)). Defined.

Lemma lexlist_zero ts (a b : list Term.t) :
  names_unique ts → Forall (fun t => t ∈ ts) a → Forall (fun t => t ∈ ts) b →
  length a = length b → (lexlist Term.cmp a b = 0 ↔ a = b).
Proof.
  intros Hu. revert b. induction a as [|x a IH]; intros [|y b] Ha Hb Hlen; try done.
  apply Forall_cons in Ha as [Hx Ha]. apply Forall_cons in Hb as [Hy Hb]. simpl.
  rewrite js_or_zero, (Term_cmp_cmpStr ts) by done. rewrite cmpStr_zero.
  rewrite IH by (simpl in Hlen; done || lia). split.
  - intros [Hn ->]. f_equal. by apply Hu.
  - by intros [= -> ->].
Qed.

(** X16.  On the rules of a grammar whose terms have unique names,
    [Rule.cmp] is 0 exactly when the two rules have the same name, the same
    parts and the same number of precedence entries: rules that differ
    only in the contents of their precedences compare as equal. *)
Theorem Rule_cmp_zero ts a b :
  names_unique ts → rule_in ts a → rule_in ts b →
  (Rule.cmp a b = 0 ↔
   Rule.name a = Rule.name b ∧ Rule.parts a = Rule.parts b ∧
   length (Rule.precedence a) = length (Rule.precedence b)).
Proof.
  intros Hu [Ha Hpa] [Hb Hpb]. rewrite Rule_cmp_lexlist, !js_or_zero.
  rewrite (Term_cmp_cmpStr ts) by done. rewrite cmpStr_zero. split.
  - intros [[[Hn Hl] Hp] Hprec]. assert (Hlen : length (Rule.parts a) = length (Rule.parts b)) by lia.
    apply (lexlist_zero ts) in Hp; [| done..]. split; [by apply Hu |]. split; [done | lia].
  - intros (Hn & Hp & Hprec). rewrite Hn, Hp, Hprec. repeat split; try lia.
    apply (lexlist_zero ts); done.
Qed.

Lemma Rule_cmp_zero_witness :
  Rule.cmp Samples.rule_plus
    (Rule.mk Samples.Expr [Samples.Expr; Samples.plus; Samples.Expr]
       [None; Some [Samples.ambig_plus]]) = 0 ↔
  Rule.name Samples.rule_plus = Samples.Expr ∧
  Rule.parts Samples.rule_plus = [Samples.Expr; Samples.plus; Samples.Expr] ∧
  length (Rule.precedence Samples.rule_plus)
  = length [None; Some [Samples.ambig_plus]].
Proof.
  apply (Rule_cmp_zero [Samples.Expr; Samples.plus; Samples.num]).
  - apply names_unique_NoDup. by_decision.
  - apply rule_in_Forall. by_decision.
  - apply rule_in_Forall. by_decision.
Defined.

(** X17.  On the items of a grammar whose terms have unique names,
    [Pos.cmp] is a consistent comparator: the results for (a, b) and (b, a)
    have opposite signs, and the order is transitive.  This is the condition
    under which sorting an item set with it is well defined. *)
Theorem Pos_cmp_comparator ts : names_unique ts → consistent (item_in ts) Pos.cmp.
Proof. apply Pos_cmp_consistent. Qed.

Lemma Pos_cmp_comparator_witness : consistent (item_in SmallGrammar.terms) Pos.cmp.
Proof. apply (Pos_cmp_comparator SmallGrammar.terms), names_unique_NoDup. by_decision. Defined.

(** Pushing the precedences that are not there yet. *)
Lemma existsb_eq_l (prec : Precedence.t) result :
  existsb (fun p => Precedence.eq prec p) result = bool_decide (prec ∈ result).
Proof.
  destruct (existsb _ result) eqn:Hex; symmetry.
  - apply bool_decide_eq_true_2. apply existsb_exists in Hex as (p & Hin & Heq).
    apply Precedence_eq_spec in Heq as ->. by apply list_elem_of_In.
  - apply bool_decide_eq_false_2. intros Hin. apply not_true_iff_false in Hex. apply Hex.
    apply existsb_exists. exists prec. split; [by apply list_elem_of_In |].
    by apply Precedence_eq_spec.
Qed.

Lemma existsb_eq_r (prec : Precedence.t) result :
  existsb (fun x => Precedence.eq x prec) result = bool_decide (prec ∈ result).
Proof.
  destruct (existsb _ result) eqn:Hex; symmetry.
  - apply bool_decide_eq_true_2. apply existsb_exists in Hex as (p & Hin & Heq).
    apply Precedence_eq_spec in Heq as ->. by apply list_elem_of_In.
  - apply bool_decide_eq_false_2. intros Hin. apply not_true_iff_false in Hex. apply Hex.
    apply existsb_exists. exists prec. split; [by apply list_elem_of_In |].
    by apply Precedence_eq_spec.
Qed.

Lemma push_new_l (value result : list Precedence.t) :
  NoDup result →
  let result' := fold_left (fun result prec =>
      if existsb (fun p => Precedence.eq prec p) result then result else result ++ [prec])
      value result in
  NoDup result' ∧ ∀ p, p ∈ result' ↔ p ∈ result ∨ p ∈ value.
Proof.
  revert result. induction value as [|prec value IH]; intros result Hnd; simpl.
  { split; [done |]. intros p. rewrite elem_of_nil. tauto. }
  rewrite existsb_eq_l. case_bool_decide as Hin.
  - destruct (IH result Hnd) as (Hnd' & Hmem). split; [done |]. intros p.
    rewrite Hmem, elem_of_cons. split; [tauto |]. intros [? | [-> | ?]]; tauto.
  - destruct (IH (result ++ [prec])) as (Hnd' & Hmem).
    { apply NoDup_app. split; [done |]. split; [| apply NoDup_singleton].
      intros x Hx Hx'. apply list_elem_of_singleton in Hx'. by subst. }
    split; [done |]. intros p.
    rewrite Hmem, elem_of_app, list_elem_of_singleton, elem_of_cons. tauto.
Qed.

Lemma push_new_r (value result : list Precedence.t) :
  NoDup result →
  let result' := fold_left (fun prec p =>
      if existsb (fun x => Precedence.eq x p) prec then prec else prec ++ [p])
      value result in
  NoDup result' ∧ ∀ p, p ∈ result' ↔ p ∈ result ∨ p ∈ value.
Proof.
  revert result. induction value as [|prec value IH]; intros result Hnd; simpl.
  { split; [done |]. intros p. rewrite elem_of_nil. tauto. }
  rewrite existsb_eq_r. case_bool_decide as Hin.
  - destruct (IH result Hnd) as (Hnd' & Hmem). split; [done |]. intros p.
    rewrite Hmem, elem_of_cons. split; [tauto |]. intros [? | [-> | ?]]; tauto.
  - destruct (IH (result ++ [prec])) as (Hnd' & Hmem).
    { apply NoDup_app. split; [done |]. split; [| apply NoDup_singleton].
      intros x Hx Hx'. apply list_elem_of_singleton in Hx'. by subst. }
    split; [done |]. intros p.
    rewrite Hmem, elem_of_app, list_elem_of_singleton, elem_of_cons. tauto.
Qed.

Lemma rulePrec_fold (precedence : list (option (list Precedence.t))) : ∀ result,
  NoDup result →
  let result' := fold_left (fun result value =>
    match value with
    | Some value =>
        fold_left (fun result prec =>
          if existsb (fun p => Precedence.eq prec p) result then result
          else result ++ [prec]) value result
    | None => result
    end) precedence result in
  NoDup result' ∧ ∀ p, p ∈ result' ↔ p ∈ result ∨ ∃ l, Some l ∈ precedence ∧ p ∈ l.
Proof.
  induction precedence as [|[value|] precedence IH]; intros result Hnd; simpl.
  - split; [done |]. intros p. split; [tauto |]. intros [? | (l & []%elem_of_nil & _)]. done.
  - destruct (push_new_l value result Hnd) as (Hnd1 & Hmem1).
    destruct (IH _ Hnd1) as (Hnd' & Hmem). split; [done |]. intros p. rewrite Hmem, Hmem1.
    split.
    + intros [[? | Hv] | (l & Hl & Hp)]; [by left | right | right].
      * exists value. split; [apply elem_of_cons; by left | done].
      * exists l. split; [apply elem_of_cons; by right | done].
    + intros [? | (l & Hl & Hp)]; [by left; left |].
      apply elem_of_cons in Hl as [[= ->] | Hl]; [by left; right |]. right. by exists l.
  - destruct (IH _ Hnd) as (Hnd' & Hmem). split; [done |]. intros p. rewrite Hmem. split.
    + intros [? | (l & Hl & Hp)]; [by left |]. right. exists l.
      split; [apply elem_of_cons; by right | done].
    + intros [? | (l & Hl & Hp)]; [by left |].
      apply elem_of_cons in Hl as [[=] | Hl]. right. by exists l.
Qed.

(** X18.  [Rule.rulePrec] is the union of the precedence entries of the
    rule: it holds each precedence that occurs at some position, once. *)
Theorem rulePrec_union (rule : Rule.t) :
  NoDup (Rule.rulePrec rule) ∧
  ∀ p, p ∈ Rule.rulePrec rule ↔ ∃ l, Some l ∈ Rule.precedence rule ∧ p ∈ l.
Proof.
  destruct (rulePrec_fold (Rule.precedence rule) [] (NoDup_nil_2)) as (Hnd & Hmem).
  split; [done |]. intros p. unfold Rule.rulePrec. rewrite Hmem. rewrite elem_of_nil. tauto.
Qed.

Lemma advanceWithPrec_snoc set pos expr :
  advanceWithPrec (set ++ [pos]) expr =
  if decide (Pos.next pos = Some expr) then
    ((advanceWithPrec set expr).1 ++ [Pos.advance pos],
     fold_left (fun prec p =>
        if existsb (fun x => Precedence.eq x p) prec then prec else prec ++ [p])
        (Rule.precAt (Pos.rule pos) (Pos.pos pos)) (advanceWithPrec set expr).2)
  else advanceWithPrec set expr.
Proof.
  unfold advanceWithPrec. rewrite fold_left_app. simpl.
  by destruct (fold_left _ set ([], [])) as [result prec].
Qed.

Lemma advanceWithPrec_spec (set : list Pos.t) (expr : Term.t) :
  (advanceWithPrec set expr).1 = advance set expr ∧
  NoDup (advanceWithPrec set expr).2 ∧
  ∀ p, p ∈ (advanceWithPrec set expr).2 ↔
    ∃ pos, pos ∈ set ∧ Pos.next pos = Some expr ∧
           p ∈ Rule.precAt (Pos.rule pos) (Pos.pos pos).
Proof.
  induction set as [|pos set (Hres & Hnd & Hmem)] using rev_ind.
  { split; [done |]. split; [constructor |]. intros p. split; [by intros []%elem_of_nil |].
    by intros (pos & []%elem_of_nil & _). }
  rewrite advanceWithPrec_snoc. unfold advance in *. rewrite filter_app, fmap_app, filter_cons.
  case_decide as Hnext; simpl.
  - destruct (push_new_r (Rule.precAt (Pos.rule pos) (Pos.pos pos)) _ Hnd) as (Hnd1 & Hmem1).
    split; [by rewrite Hres |]. split; [done |]. intros p. rewrite Hmem1, Hmem. split.
    + intros [(pos' & Hin & Hn & Hp) | Hp].
      * exists pos'. split; [apply elem_of_app; by left | done].
      * exists pos. split; [apply elem_of_app; right; by apply list_elem_of_singleton | done].
    + intros (pos' & Hin & Hn & Hp). apply elem_of_app in Hin as [Hin | Hin].
      * left. by exists pos'.
      * apply list_elem_of_singleton in Hin as ->. by right.
  - rewrite app_nil_r. split; [done |]. split; [done |]. intros p. rewrite Hmem. split.
    + intros (pos' & Hin & Hn & Hp). exists pos'. split; [apply elem_of_app; by left | done].
    + intros (pos' & Hin & Hn & Hp). apply elem_of_app in Hin as [Hin | Hin].
      * by exists pos'.
      * apply list_elem_of_singleton in Hin as ->. done.
Qed.

(** X19.  [advanceWithPrec] moves the same items as [advance], in the
    same order, and its precedences are those at the dot of the items that
    it moves, each once. *)
Theorem advanceWithPrec_advance (set : list Pos.t) (expr : Term.t) :
  (advanceWithPrec set expr).1 = advance set expr ∧
  NoDup (advanceWithPrec set expr).2 ∧
  ∀ p, p ∈ (advanceWithPrec set expr).2 ↔
    ∃ pos, pos ∈ set ∧ Pos.next pos = Some expr ∧
           p ∈ Rule.precAt (Pos.rule pos) (Pos.pos pos).
Proof. apply advanceWithPrec_spec. Qed.

End GrammarFacts.

(** * Invariants of [State.addAction] *)

Section AddActionFacts.
Import Grammar Automaton.

Lemma Action_eq_term a value :
  Action.term a = Action.term value → Action.eq a value = true → a = value.
Proof.
  destruct a, value; simpl; intros -> Heq; try done; apply bool_decide_eq_true_1 in Heq;
    by subst.
Qed.

Lemma addAction_check_post this value prec pos : ∀ restT doneT doneP restP amb,
  length doneT = length doneP → length restT = length restP →
  let out := State.addAction_check this doneT doneP restT restP amb value prec pos in
  State.id out.1 = State.id this ∧ State.set out.1 = State.set this ∧
  State.goto out.1 = State.goto this ∧
  (amb = true → State.ambiguous out.1 = true) ∧
  (∀ a, a ∈ State.terminals out.1 → a = value ∨ a ∈ doneT ++ restT) ∧
  (∀ a, a ∈ doneT ++ restT → Action.term a ≠ Action.term value →
        a ∈ State.terminals out.1) ∧
  length (State.terminals out.1) = length (State.terminalPrec out.1) ∧
  match out.2 with
  | Ok true => ∃ a, a ∈ State.terminals out.1 ∧ Action.term a = Action.term value
  | Ok false => pos = None
  | Err (Thrown msg) =>
      ∃ p a, pos = Some p ∧ a ∈ restT ∧
        Action.term a = Action.term value ∧ msg = State.conflictMessage a p
  | Err _ => False
  end.
Proof.
  induction restT as [|action restT IH]; intros doneT doneP restP amb Hdone Hrest; simpl.
  { destruct restP; [| done]. simpl. rewrite !length_app. simpl.
    repeat split; try done; try lia.
    - intros a Ha. rewrite app_nil_r. apply elem_of_app in Ha as [Ha | Ha]; [by right |].
      apply list_elem_of_singleton in Ha. by left.
    - intros a Ha _. rewrite app_nil_r in Ha. apply elem_of_app. by left.
    - exists value. split; [| done]. apply elem_of_app. right. by apply list_elem_of_singleton. }
  destruct restP as [|prev restP]; [done |]. simpl in Hrest.
  assert (Hfinish : ∀ amb' (r : res bool),
    (amb = true → amb' = true) →
    match r with
    | Ok true => True
    | Ok false => pos = None
    | Err (Thrown msg) => ∃ p, pos = Some p ∧ msg = State.conflictMessage action p
    | Err _ => False
    end →
    Action.term action = Action.term value →
    let out := (State.mk (State.id this) (State.set this) (doneT ++ action :: restT)
                  (doneP ++ prev :: restP) (State.goto this) amb', r) in
    State.id out.1 = State.id this ∧ State.set out.1 = State.set this ∧
    State.goto out.1 = State.goto this ∧
    (amb = true → State.ambiguous out.1 = true) ∧
    (∀ a, a ∈ State.terminals out.1 → a = value ∨ a ∈ doneT ++ action :: restT) ∧
    (∀ a, a ∈ doneT ++ action :: restT → Action.term a ≠ Action.term value →
          a ∈ State.terminals out.1) ∧
    length (State.terminals out.1) = length (State.terminalPrec out.1) ∧
    match out.2 with
    | Ok true => ∃ a, a ∈ State.terminals out.1 ∧ Action.term a = Action.term value
    | Ok false => pos = None
    | Err (Thrown msg) =>
        ∃ p a, pos = Some p ∧ a ∈ action :: restT ∧
          Action.term a = Action.term value ∧ msg = State.conflictMessage a p
    | Err _ => False
    end).
  { intros amb' r Hamb Hr Hterm. simpl. rewrite !length_app. simpl.
    repeat split; try done; try lia; [by right |].
    destruct r as [[|]|[|msg|]]; try done.
    - exists action. split; [| done]. apply elem_of_app. right. apply elem_of_cons. by left.
    - destruct Hr as (p & -> & ->). exists p, action. repeat split; try done.
      apply elem_of_cons. by left. }
  assert (Hnext : ∀ doneT' doneP' amb',
    length doneT' = length doneP' → (amb = true → amb' = true) →
    (∀ a, a ∈ doneT' ++ restT → a ∈ doneT ++ action :: restT) →
    (∀ a, a ∈ doneT ++ action :: restT → Action.term a ≠ Action.term value →
          a ∈ doneT' ++ restT) →
    let out := State.addAction_check this doneT' doneP' restT restP amb' value prec pos in
    State.id out.1 = State.id this ∧ State.set out.1 = State.set this ∧
    State.goto out.1 = State.goto this ∧
    (amb = true → State.ambiguous out.1 = true) ∧
    (∀ a, a ∈ State.terminals out.1 → a = value ∨ a ∈ doneT ++ action :: restT) ∧
    (∀ a, a ∈ doneT ++ action :: restT → Action.term a ≠ Action.term value →
          a ∈ State.terminals out.1) ∧
    length (State.terminals out.1) = length (State.terminalPrec out.1) ∧
    match out.2 with
    | Ok true => ∃ a, a ∈ State.terminals out.1 ∧ Action.term a = Action.term value
    | Ok false => pos = None
    | Err (Thrown msg) =>
        ∃ p a, pos = Some p ∧ a ∈ action :: restT ∧
          Action.term a = Action.term value ∧ msg = State.conflictMessage a p
    | Err _ => False
    end).
  { intros doneT' doneP' amb' Hlen Hamb Hsub Hkeep.
    destruct (IH doneT' doneP' restP amb' Hlen ltac:(lia))
      as (H1 & H2 & H3 & H4 & H5 & H5' & H6 & H7).
    simpl. repeat split; try done.
    - intros Ha. apply H4. by apply Hamb.
    - intros a Ha. destruct (H5 a Ha) as [? | ?]; [by left | right; by apply Hsub].
    - intros a Ha Hne. apply H5'; [by apply Hkeep | done].
    - destruct (State.addAction_check _ _ _ _ _ _ _ _ _).2 as [[|]|[|msg|]]; try done.
      destruct H7 as (p & a & Hp & Ha & Hr). exists p, a. split; [done |].
      split; [apply elem_of_cons; by right | done]. }
  case_decide as Hterm.
  - destruct (Action.eq action value) eqn:Heq; [by apply Hfinish |].
    assert (Hres : ∀ v,
      let out := match v with
        | Intentional =>
            State.addAction_check this (doneT ++ [action]) (doneP ++ [prev])
              restT restP true value prec pos
        | Override => State.addAction_check this doneT doneP restT restP true value prec pos
        | Keep =>
            (State.mk (State.id this) (State.set this) (doneT ++ action :: restT)
               (doneP ++ prev :: restP) (State.goto this) true, Ok true)
        | Unresolved =>
            match pos with
            | None =>
                (State.mk (State.id this) (State.set this) (doneT ++ action :: restT)
                   (doneP ++ prev :: restP) (State.goto this) true, Ok false)
            | Some pos =>
                (State.mk (State.id this) (State.set this) (doneT ++ action :: restT)
                   (doneP ++ prev :: restP) (State.goto this) true,
                 Err (Thrown (State.conflictMessage action pos)))
            end
        end in
      State.id out.1 = State.id this ∧ State.set out.1 = State.set this ∧
      State.goto out.1 = State.goto this ∧
      (amb = true → State.ambiguous out.1 = true) ∧
      (∀ a, a ∈ State.terminals out.1 → a = value ∨ a ∈ doneT ++ action :: restT) ∧
      (∀ a, a ∈ doneT ++ action :: restT → Action.term a ≠ Action.term value →
            a ∈ State.terminals out.1) ∧
      length (State.terminals out.1) = length (State.terminalPrec out.1) ∧
      match out.2 with
      | Ok true => ∃ a, a ∈ State.terminals out.1 ∧ Action.term a = Action.term value
      | Ok false => pos = None
      | Err (Thrown msg) =>
          ∃ p a, pos = Some p ∧ a ∈ action :: restT ∧
            Action.term a = Action.term value ∧ msg = State.conflictMessage a p
      | Err _ => False
      end).
    { intros v. destruct v.
      - apply Hnext; [rewrite !length_app; simpl; lia | done | |];
          intros a; rewrite <- app_assoc; done.
      - apply Hnext; [done | done | |].
        + intros a. rewrite !elem_of_app, elem_of_cons. tauto.
        + intros a Ha Hne. rewrite !elem_of_app, elem_of_cons in *.
          destruct Ha as [? | [-> | ?]]; [by left | done | by right].
      - by apply Hfinish.
      - destruct pos as [p|]; apply Hfinish; try done. by exists p. }
    destruct prec as [|p0 prec'];
      [apply (Hres Unresolved) | apply (Hres (resolve action prev (p0 :: prec')))].
  - apply Hnext; [rewrite !length_app; simpl; lia | done | |];
      intros a; rewrite <- app_assoc; done.
Qed.

(** X20.  On a state whose [terminals] and [terminalPrec] have the same
    length, [addAction] keeps them of the same length, leaves [id], [set]
    and [goto] alone, never clears [ambiguous], puts no action into the
    table but the new one, and removes no action on another terminal. *)
Theorem addAction_keeps this value prec pos :
  parallel this →
  addAction_frame this value (State.addAction this value prec pos).1 ∧
  parallel (State.addAction this value prec pos).1.
Proof.
  intros Hpar. unfold State.addAction.
  destruct (addAction_check_post this value prec pos (State.terminals this) [] []
              (State.terminalPrec this) (State.ambiguous this) eq_refl Hpar)
    as (H1 & H2 & H3 & H4 & H5 & H5' & H6 & _).
  done.
Qed.

Lemma addAction_keeps_witness :
  addAction_frame Samples.shifting (Reduce Samples.plus Samples.rule_plus)
    (State.addAction Samples.shifting (Reduce Samples.plus Samples.rule_plus)
       [Samples.prec_plus] None).1 ∧
  parallel (State.addAction Samples.shifting (Reduce Samples.plus Samples.rule_plus)
              [Samples.prec_plus] None).1.
Proof. by apply (addAction_keeps Samples.shifting). Defined.

(** X21.  On such a state [addAction] returns [true] only with an action
    on the terminal in the table, returns [false] only when no [pos] was
    passed, and throws only when [pos] was passed, with the conflict
    message for an action of the table on the same terminal; it fails in
    no other way. *)
Theorem addAction_outcomes this value prec pos :
  parallel this →
  addAction_outcome this value pos (State.addAction this value prec pos).1
    (State.addAction this value prec pos).2.
Proof.
  intros Hpar. unfold State.addAction, addAction_outcome.
  destruct (addAction_check_post this value prec pos (State.terminals this) [] []
              (State.terminalPrec this) (State.ambiguous this) eq_refl Hpar)
    as (_ & _ & _ & _ & _ & _ & _ & H7).
  done.
Qed.

Lemma addAction_outcomes_witness :
  addAction_outcome Samples.shifting (Reduce Samples.plus Samples.rule_plus) None
    (State.addAction Samples.shifting (Reduce Samples.plus Samples.rule_plus)
       [Samples.prec_plus] None).1
    (State.addAction Samples.shifting (Reduce Samples.plus Samples.rule_plus)
       [Samples.prec_plus] None).2.
Proof. by apply (addAction_outcomes Samples.shifting). Defined.

Lemma Action_eq_refl value : Action.eq value value = true.
Proof. destruct value; simpl; by apply bool_decide_eq_true_2. Qed.

(** X22.  An action on a terminal without action in the table is pushed,
    with its precedences, and [addAction] returns [true]; adding the same
    action again, with whatever precedences, returns [true] and changes
    nothing. *)
Theorem addAction_fresh_again this value prec pos prec' pos' :
  parallel this →
  Forall (fun a => Action.term a ≠ Action.term value) (State.terminals this) →
  State.addAction this value prec pos = (pushed this value prec, Ok true) ∧
  State.addAction (pushed this value prec) value prec' pos' = (pushed this value prec, Ok true).
Proof.
  intros Hpar Hfresh. split.
  - unfold State.addAction. by rewrite addAction_check_push.
  - unfold State.addAction. simpl.
    rewrite (addAction_check_skip (pushed this value prec) value prec' pos'
               (State.terminals this) (State.terminalPrec this) [] [] [value] [prec]) by done.
    simpl. rewrite decide_True by done. by rewrite Action_eq_refl.
Qed.

Lemma addAction_fresh_again_witness :
  State.addAction (State.new 0 []) (Reduce Samples.plus Samples.rule_plus)
    [Samples.prec_plus] None
  = (pushed (State.new 0 []) (Reduce Samples.plus Samples.rule_plus) [Samples.prec_plus],
     Ok true) ∧
  State.addAction
    (pushed (State.new 0 []) (Reduce Samples.plus Samples.rule_plus) [Samples.prec_plus])
    (Reduce Samples.plus Samples.rule_plus) [] None
  = (pushed (State.new 0 []) (Reduce Samples.plus Samples.rule_plus) [Samples.prec_plus],
     Ok true).
Proof. by apply (addAction_fresh_again (State.new 0 [])). Defined.

End AddActionFacts.

(** * The partition of the states in [collapseAutomaton] *)

Section CollapseFacts.
Import Grammar Automaton.

Lemma Term_cmp_refl t : Term.cmp t t = 0.
Proof. unfold Term.cmp. by rewrite decide_True. Qed.

Lemma lexlist_refl (l : list Term.t) : lexlist Term.cmp l l = 0.
Proof. induction l as [|t l IH]; [done |]. simpl. by rewrite Term_cmp_refl, IH. Qed.

Lemma Rule_cmp_refl r : Rule.cmp r r = 0.
Proof.
  rewrite Rule_cmp_lexlist, Term_cmp_refl, lexlist_refl, !Z.sub_diag. done.
Qed.

Lemma Pos_cmpSimple_refl p : Pos.cmpSimple p p = 0.
Proof. unfold Pos.cmpSimple. by rewrite Rule_cmp_refl, Z.sub_diag. Qed.

Lemma core_snoc set pos :
  core (set ++ [pos]) =
  if existsb (fun p => bool_decide (Pos.cmpSimple p pos = 0)) (core set) then core set
  else core set ++ [pos].
Proof. unfold core. by rewrite fold_left_app. Qed.

Lemma core_spec (set : list Pos.t) :
  (∀ p, p ∈ core set → p ∈ set) ∧
  (∀ p, p ∈ set → ∃ q, q ∈ core set ∧ Pos.cmpSimple q p = 0) ∧
  (∀ i j q p, (i < j)%nat → core set !! i = Some q → core set !! j = Some p →
     Pos.cmpSimple q p ≠ 0).
Proof.
  induction set as [|pos set (Hsub & Hrep & Hdiff)] using rev_ind.
  { split; [done |]. split; [by intros p Hp%elem_of_nil |]. by intros i j q p _ Hq. }
  rewrite core_snoc. destruct (existsb _ (core set)) eqn:Hex.
  - apply existsb_exists in Hex as (q & Hq & Heq). apply bool_decide_eq_true_1 in Heq.
    apply list_elem_of_In in Hq. split; [| split; [| done]].
    + intros p Hp. apply elem_of_app. left. by apply Hsub.
    + intros p Hp. apply elem_of_app in Hp as [Hp | Hp]; [by apply Hrep |].
      apply list_elem_of_singleton in Hp as ->. by exists q.
  - assert (Hnew : ∀ q, q ∈ core set → Pos.cmpSimple q pos ≠ 0).
    { intros q Hq Heq. apply not_true_iff_false in Hex. apply Hex. apply existsb_exists.
      exists q. split; [by apply list_elem_of_In | by apply bool_decide_eq_true_2]. }
    split; [| split].
    + intros p Hp. apply elem_of_app in Hp as [Hp | Hp]; apply elem_of_app;
        [left; by apply Hsub | by right].
    + intros p Hp. apply elem_of_app in Hp as [Hp | Hp].
      * destruct (Hrep p Hp) as (q & Hq & Heq). exists q. split; [| done].
        apply elem_of_app. by left.
      * apply list_elem_of_singleton in Hp as ->. exists pos.
        split; [apply elem_of_app; right; by apply list_elem_of_singleton |].
        apply Pos_cmpSimple_refl.
    + intros i j q p Hij Hq Hp. destruct (decide (j < length (core set))%nat) as [Hj | Hj].
      * rewrite lookup_app_l in Hq, Hp by lia. by apply (Hdiff i j).
      * assert (i < length (core set))%nat.
        { apply lookup_lt_Some in Hp. rewrite length_app in Hp. simpl in Hp. lia. }
        rewrite lookup_app_l in Hq by lia. rewrite lookup_app_r in Hp by lia.
        apply list_lookup_singleton_Some in Hp as [_ <-]. apply Hnew.
        by eapply list_elem_of_lookup_2.
Qed.

Lemma hasConflict_spec id newID mapping conflicts :
  hasConflict id newID mapping conflicts = true ↔
  ∃ other, (conflict_pair conflicts id other ∨ conflict_pair conflicts other id) ∧
           mapping !! other = Some newID.
Proof.
  unfold hasConflict. rewrite existsb_exists. split.
  - intros (i & Hi & Hc). apply in_seq in Hi. apply andb_true_iff in Hc as (Hid & Hother).
    apply bool_decide_eq_true_1 in Hid, Hother.
    destruct (conflicts !! (if Nat.odd i then (i - 1)%nat else (i + 1)%nat)) as [other|] eqn:Ho;
      [| done]. simpl in Hother. exists other. split; [| done].
    destruct (Nat.odd i) eqn:Hodd.
    + right. apply Nat.odd_spec in Hodd as [n ->]. exists n.
      replace (2 * n + 1 - 1)%nat with (2 * n)%nat in Ho by lia. done.
    + left. assert (Heven : Nat.even i = true) by (by rewrite <- Nat.negb_odd, Hodd).
      apply Nat.even_spec in Heven as [n ->]. by exists n.
  - intros (other & [(n & Ha & Hb) | (n & Ha & Hb)] & Hmap).
    + exists (2 * n)%nat. split; [apply in_seq; apply lookup_lt_Some in Ha; lia |].
      apply andb_true_iff. split; [by apply bool_decide_eq_true_2 |].
      replace (Nat.odd (2 * n)) with false.
      2: { symmetry. rewrite <- Nat.negb_even. apply negb_false_iff, Nat.even_spec. by exists n. }
      rewrite Hb. simpl. by apply bool_decide_eq_true_2.
    + exists (2 * n + 1)%nat. split; [apply in_seq; apply lookup_lt_Some in Hb; lia |].
      apply andb_true_iff. split; [by apply bool_decide_eq_true_2 |].
      replace (Nat.odd (2 * n + 1)) with true.
      2: { symmetry. apply Nat.odd_spec. by exists n. }
      replace (2 * n + 1 - 1)%nat with (2 * n)%nat by lia.
      rewrite Ha. simpl. by apply bool_decide_eq_true_2.
Qed.

Lemma findIndex_from_spec {A} (f : A → nat → bool) (l : list A) : ∀ index,
  match findIndex_from f l index with
  | Some k => (index ≤ k)%nat ∧ (∃ x, l !! (k - index)%nat = Some x ∧ f x k = true)
  | None => ∀ n x, l !! n = Some x → f x (index + n)%nat = false
  end.
Proof.
  induction l as [|x l IH]; intros index; simpl; [done |].
  destruct (f x index) eqn:Hf.
  - split; [lia |]. exists x. by rewrite Nat.sub_diag.
  - specialize (IH (S index)). destruct (findIndex_from f l (S index)) as [k|].
    + destruct IH as (Hle & y & Hy & Hfy). split; [lia |]. exists y. split; [| done].
      replace (k - index)%nat with (S (k - S index)) by lia. done.
    + intros [|n] y Hy; simpl in Hy.
      * injection Hy as <-. by rewrite Nat.add_0_r.
      * replace (index + S n)%nat with (S index + n)%nat by lia. by apply IH.
Qed.

Lemma findIndex_spec {A} (f : A → nat → bool) (l : list A) :
  match findIndex f l with
  | Some k => ∃ x, l !! k = Some x ∧ f x k = true
  | None => ∀ n x, l !! n = Some x → f x n = false
  end.
Proof.
  unfold findIndex. pose proof (findIndex_from_spec f l 0) as H.
  destruct (findIndex_from f l 0) as [k|]; [| done].
  destruct H as (_ & x & Hx & Hf). exists x. by rewrite Nat.sub_0_r in Hx.
Qed.

Lemma collapse_partition_snoc states state conflicts :
  collapse_partition (states ++ [state]) conflicts =
  let '(newStates, mapping) := collapse_partition states conflicts in
  let set := core (State.set state) in
  match findIndex (fun s index =>
          bool_decide (cmpSet (State.set s) set Pos.cmpSimple = 0) &&
          negb (hasConflict (length states) index mapping conflicts)) newStates with
  | Some newID => (newStates, mapping ++ [newID])
  | None =>
      let newID := length newStates in
      (newStates ++ [State.new newID set], mapping ++ [newID])
  end.
Proof.
  unfold collapse_partition. rewrite imap_app, fold_left_app. simpl.
  rewrite Nat.add_0_r. by destruct (fold_left _ _ ([], [])) as [newStates mapping].
Qed.

Lemma cmpSet_refl_core (set : list Pos.t) : cmpSet set set Pos.cmpSimple = 0.
Proof.
  unfold cmpSet. rewrite decide_True by done.
  induction set as [|p set IH]; [done |]. simpl. by rewrite Pos_cmpSimple_refl, decide_True.
Qed.

Lemma collapse_partition_ok states conflicts :
  partition_ok states conflicts (collapse_partition states conflicts).1
    (collapse_partition states conflicts).2.
Proof.
  induction states as [|state states IH] using rev_ind.
  { split; [done |]. split; [by intros k s Hk |]. split; [by intros i st Hi |].
    intros i j _ _ Hi. simpl in Hi. lia. }
  rewrite collapse_partition_snoc.
  destruct (collapse_partition states conflicts) as [newStates mapping]. simpl in IH.
  destruct IH as (Hlen & Hnew & Hmap & Hsep).
  assert (Hbound : ∀ i k, mapping !! i = Some k → (k < length newStates)%nat).
  { intros i k Hi. assert (Hlt : (i < length states)%nat) by (rewrite <- Hlen; by eapply lookup_lt_Some).
    apply lookup_lt_is_Some in Hlt as [st Hst].
    destruct (Hmap i st Hst) as (k' & s & Hk' & Hs & _).
    assert (k' = k) as -> by congruence. by eapply lookup_lt_Some. }
  cbv beta iota zeta.
  match goal with |- context [findIndex ?g newStates] => set (f := g) end.
  pose proof (findIndex_spec f newStates) as Hfind.
  destruct (findIndex f newStates) as [newID|]; simpl.
  - destruct Hfind as (s & Hs & Hf). unfold f in Hf. apply andb_true_iff in Hf as (Hcore & Hno).
    apply bool_decide_eq_true_1 in Hcore. apply negb_true_iff in Hno.
    split; [rewrite !length_app; simpl; lia |]. split; [| split].
    + intros k s' Hk. destruct (Hnew k s' Hk) as (Heq & i & st & Hi & Hmi & Hset).
      split; [done |]. exists i, st. rewrite lookup_app_l by (by eapply lookup_lt_Some).
      by rewrite lookup_app_l by (by eapply lookup_lt_Some).
    + intros i st Hi. destruct (decide (i < length states)%nat) as [Hlt | Hge].
      * rewrite lookup_app_l in Hi by done. destruct (Hmap i st Hi) as (k & s' & Hk & Hs' & Hc).
        exists k, s'. by rewrite lookup_app_l by (by eapply lookup_lt_Some).
      * rewrite lookup_app_r in Hi by lia. apply list_lookup_singleton_Some in Hi as [Hi <-].
        exists newID, s. split; [| done].
        rewrite lookup_app_r by lia. replace (i - length mapping)%nat with 0%nat by lia. done.
    + intros i j Hpair Hne Hi Hj. rewrite length_app in Hi, Hj. simpl in Hi, Hj.
      destruct (decide (i = length states)) as [-> | Hi'];
        destruct (decide (j = length states)) as [-> | Hj']; [done | | |].
      * rewrite lookup_app_r, <- Hlen, Nat.sub_diag by lia. simpl.
        rewrite lookup_app_l by lia. intros Heq.
        assert (hasConflict (length states) newID mapping conflicts = true); [| congruence].
        apply hasConflict_spec. exists j. split; [by left | done].
      * rewrite (lookup_app_r mapping _ (length states)), <- Hlen, Nat.sub_diag by lia. simpl.
        rewrite lookup_app_l by lia. intros Heq.
        assert (hasConflict (length states) newID mapping conflicts = true); [| congruence].
        apply hasConflict_spec. exists i. split; [by right | done].
      * rewrite !lookup_app_l by lia. apply Hsep; [done | done | lia | lia].
  - split; [rewrite !length_app; simpl; lia |]. split; [| split].
    + intros k s' Hk. destruct (decide (k < length newStates)%nat) as [Hlt | Hge].
      * rewrite lookup_app_l in Hk by done.
        destruct (Hnew k s' Hk) as (Heq & i & st & Hi & Hmi & Hset).
        split; [done |]. exists i, st. rewrite lookup_app_l by (by eapply lookup_lt_Some).
        by rewrite lookup_app_l by (by eapply lookup_lt_Some).
      * rewrite lookup_app_r in Hk by lia. apply list_lookup_singleton_Some in Hk as [Hk <-].
        assert (k = length newStates) as -> by lia. split; [done |].
        exists (length states), state. rewrite lookup_app_r, Nat.sub_diag by lia.
        rewrite lookup_app_r, <- Hlen, Nat.sub_diag by lia. done.
    + intros i st Hi. destruct (decide (i < length states)%nat) as [Hlt | Hge].
      * rewrite lookup_app_l in Hi by done. destruct (Hmap i st Hi) as (k & s' & Hk & Hs' & Hc).
        exists k, s'. rewrite lookup_app_l by (by eapply lookup_lt_Some).
        by rewrite lookup_app_l by (by eapply lookup_lt_Some).
      * rewrite lookup_app_r in Hi by lia. apply list_lookup_singleton_Some in Hi as [Hi <-].
        exists (length newStates), (State.new (length newStates) (core (State.set state))).
        rewrite lookup_app_r by lia. replace (i - length mapping)%nat with 0%nat by lia.
        rewrite lookup_app_r, Nat.sub_diag by lia. split; [done |]. split; [done |].
        apply cmpSet_refl_core.
    + intros i j Hpair Hne Hi Hj. rewrite length_app in Hi, Hj. simpl in Hi, Hj.
      destruct (decide (i = length states)) as [-> | Hi'];
        destruct (decide (j = length states)) as [-> | Hj']; [done | | |].
      * rewrite lookup_app_r, <- Hlen, Nat.sub_diag by lia. simpl.
        rewrite lookup_app_l by lia. intros Heq. symmetry in Heq. apply Hbound in Heq. lia.
      * rewrite (lookup_app_r mapping _ (length states)), <- Hlen, Nat.sub_diag by lia. simpl.
        rewrite lookup_app_l by lia. intros Heq. apply Hbound in Heq. lia.
      * rewrite !lookup_app_l by lia. apply Hsep; [done | done | lia | lia].
Qed.

(** X23.  The core of an item set keeps, in order, the first item for
    each pair of rule and dot: its items belong to the set, every item of
    the set has an item of the core with the same rule and dot (for
    [cmpSimple]), and no two items of the core compare as equal. *)
Theorem core_representatives (set : list Pos.t) :
  (∀ p, p ∈ core set → p ∈ set) ∧
  (∀ p, p ∈ set → ∃ q, q ∈ core set ∧ Pos.cmpSimple q p = 0) ∧
  (∀ i j q p, (i < j)%nat → core set !! i = Some q → core set !! j = Some p →
     Pos.cmpSimple q p ≠ 0).
Proof. apply core_spec. Qed.

(** X24.  The first loop of a round of [collapseAutomaton] maps every
    state to a new state whose items are, for [cmpSimple], the core of the
    state; the new states are numbered by their index, have empty tables
    and are each the image of a state; and the two states of a recorded
    conflict pair are never mapped to the same new state. *)
Theorem collapse_partition_separates states conflicts :
  partition_ok states conflicts (collapse_partition states conflicts).1
    (collapse_partition states conflicts).2.
Proof. apply collapse_partition_ok. Qed.

End CollapseFacts.

(** * The closure is closed *)

Section ClosureFacts.
Import Grammar Automaton.

Section ClosureClosed.
Variables (rules : list Rule.t) (first : FirstTable).

Lemma closure_push_grows result rule a nextPrec :
  ∃ more, closure_push result rule a nextPrec = result ++ more ∧
    has_item (result ++ more) rule a ∧
    ∀ p, p ∈ more → p = Pos.mk rule 0 a nextPrec.
Proof.
  unfold closure_push. destruct (existsb _ result) eqn:Hex.
  - exists []. rewrite app_nil_r. split; [done |]. split; [| by intros p Hp%elem_of_nil].
    apply existsb_exists in Hex as (p & Hin & Hp). apply list_elem_of_In in Hin.
    rewrite !andb_true_iff, !bool_decide_eq_true in Hp. destruct Hp as [[? ?] ?]. by exists p.
  - exists [Pos.mk rule 0 a nextPrec]. split; [done |]. split.
    + eexists. split; [apply elem_of_app; right; by apply list_elem_of_singleton | done].
    + by intros p Hp%list_elem_of_singleton.
Qed.

Lemma has_item_app result more rule a : has_item result rule a → has_item (result ++ more) rule a.
Proof. intros (p & Hp & H). exists p. split; [apply elem_of_app; by left | done]. Qed.

Lemma closure_push_ahead rule nextPrec (ahead : list Term.t) : ∀ result,
  ∃ more,
    fold_left (fun result a => closure_push result rule a nextPrec) ahead result = result ++ more ∧
    (∀ a, a ∈ ahead → has_item (result ++ more) rule a) ∧
    ∀ p, p ∈ more → ∃ a, a ∈ ahead ∧ p = Pos.mk rule 0 a nextPrec.
Proof.
  induction ahead as [|a ahead IH]; intros result; simpl.
  { exists []. rewrite app_nil_r. split; [done |]. split; [by intros a Ha%elem_of_nil |].
    by intros p Hp%elem_of_nil. }
  destruct (closure_push_grows result rule a nextPrec) as (m1 & -> & Hhas & Hm1).
  destruct (IH (result ++ m1)) as (m2 & -> & Hall & Hm2).
  exists (m1 ++ m2). rewrite app_assoc. split; [done |]. split.
  - intros a' Ha'. apply elem_of_cons in Ha' as [-> | Ha']; [by apply has_item_app | by apply Hall].
  - intros p Hp. apply elem_of_app in Hp as [Hp | Hp].
    + exists a. split; [apply elem_of_cons; by left | by apply Hm1].
    + destruct (Hm2 p Hp) as (a' & Ha' & ->). exists a'. split; [apply elem_of_cons; by right | done].
Qed.

Lemma closure_expand_grows next nextPrec ahead (rs : list Rule.t) : ∀ result,
  ∃ more,
    closure_expand rs next nextPrec ahead result = result ++ more ∧
    (∀ rule a, rule ∈ rs → Rule.name rule = next → a ∈ ahead →
       has_item (result ++ more) rule a) ∧
    ∀ p, p ∈ more → ∃ rule a, rule ∈ rs ∧ Rule.name rule = next ∧ a ∈ ahead ∧
                     p = Pos.mk rule 0 a nextPrec.
Proof.
  unfold closure_expand. induction rs as [|r rs IH]; intros result; simpl.
  { exists []. rewrite app_nil_r. split; [done |]. split; [by intros rule a Hr%elem_of_nil |].
    by intros p Hp%elem_of_nil. }
  case_decide as Hname.
  - destruct (closure_push_ahead r nextPrec ahead result) as (m1 & -> & Hall & Hm1).
    destruct (IH (result ++ m1)) as (m2 & -> & Hrest & Hm2).
    exists (m1 ++ m2). rewrite app_assoc. split; [done |]. split.
    + intros rule a Hr Hn Ha. apply elem_of_cons in Hr as [-> | Hr].
      * apply has_item_app. by apply Hall.
      * by apply Hrest.
    + intros p Hp. apply elem_of_app in Hp as [Hp | Hp].
      * destruct (Hm1 p Hp) as (a & Ha & ->). exists r, a.
        split; [apply elem_of_cons; by left | done].
      * destruct (Hm2 p Hp) as (rule & a & Hr & Hn & Ha & ->). exists rule, a.
        split; [apply elem_of_cons; by right | done].
  - destruct (IH result) as (m2 & -> & Hrest & Hm2). exists m2. split; [done |]. split.
    + intros rule a Hr Hn Ha. apply elem_of_cons in Hr as [-> | Hr]; [done | by apply Hrest].
    + intros p Hp. destruct (Hm2 p Hp) as (rule & a & Hr & Hn & Ha & ->). exists rule, a.
      split; [apply elem_of_cons; by right | done].
Qed.

Lemma expanded_app result more pos :
  expanded rules first result pos → expanded rules first (result ++ more) pos.
Proof.
  intros Hexp next Hnext Hterm. destruct (Hexp next Hnext Hterm) as (ahead & Hahead & Hall).
  exists ahead. split; [done |]. intros rule a Hr Hn Ha. apply has_item_app. by apply Hall.
Qed.

Lemma justified_app set result more pos :
  justified rules first set result → pos ∈ result →
  (∀ p, p ∈ more → derived_from rules first pos p) →
  justified rules first set (result ++ more).
Proof.
  intros Hj Hpos Hmore p Hp. apply elem_of_app in Hp as [Hp | Hp].
  - destruct (Hj p Hp) as [? | (parent & Hparent & Hd)]; [by left |].
    right. exists parent. split; [apply elem_of_app; by left | done].
  - right. exists pos. split; [apply elem_of_app; by left | by apply Hmore].
Qed.

Lemma closure_step_grows set pos result result' :
  closure_step rules first pos result = Ok result' → pos ∈ result → justified rules first set result →
  ∃ more, result' = result ++ more ∧ expanded rules first result' pos ∧ justified rules first set result'.
Proof.
  unfold closure_step. intros Hstep Hpos Hj.
  destruct (Pos.next pos) as [next|] eqn:Hnext.
  2: { injection Hstep as <-. exists []. rewrite app_nil_r. split; [done |]. split; [| done].
       intros next Hn. congruence. }
  destruct (Term.terminal next) eqn:Hterm.
  { injection Hstep as <-. exists []. rewrite app_nil_r. split; [done |]. split; [| done].
    intros next' Hn Ht. congruence. }
  destruct (Pos.termsAhead pos first) as [ahead|e] eqn:Hahead; simpl in Hstep; [| done].
  injection Hstep as <-.
  destruct (closure_expand_grows next (Rule.precAt (Pos.rule pos) (Pos.pos pos)) ahead rules
              result) as (more & -> & Hall & Hmore).
  exists more. split; [done |]. split.
  - intros next' Hn Ht. assert (next' = next) as -> by congruence.
    exists ahead. split; [done |]. intros rule a Hr Hname Ha. by apply Hall.
  - apply (justified_app set result more pos); [done | done |].
    intros p Hp. destruct (Hmore p Hp) as (rule & a & Hr & Hn & Ha & ->).
    exists ahead. simpl. rewrite Hn. done.
Qed.

Lemma closure_loop_closed set : ∀ fuel i result result',
  closure_loop fuel rules first i result = Ok result' →
  (∀ j pos, (j < i)%nat → result !! j = Some pos → expanded rules first result pos) →
  justified rules first set result →
  (∃ more, result' = result ++ more) ∧
  (∀ pos, pos ∈ result' → expanded rules first result' pos) ∧ justified rules first set result'.
Proof.
  induction fuel as [|fuel IH]; intros i result result' Hloop Hdone Hj; simpl in Hloop.
  - destruct (result !! i) eqn:Hi; [done |]. injection Hloop as <-.
    split; [exists []; by rewrite app_nil_r |]. split; [| done].
    intros pos Hpos. apply list_elem_of_lookup in Hpos as (j & Hjp).
    apply (Hdone j); [| done]. apply lookup_ge_None in Hi. apply lookup_lt_Some in Hjp. lia.
  - destruct (result !! i) as [pos|] eqn:Hi.
    2: { injection Hloop as <-. split; [exists []; by rewrite app_nil_r |]. split; [| done].
         intros pos Hpos. apply list_elem_of_lookup in Hpos as (j & Hjp).
         apply (Hdone j); [| done]. apply lookup_ge_None in Hi. apply lookup_lt_Some in Hjp. lia. }
    destruct (closure_step rules first pos result) as [result1|e] eqn:Hstep; simpl in Hloop;
      [| done].
    destruct (closure_step_grows set pos result result1 Hstep) as (more & -> & Hexp & Hj1);
      [by eapply list_elem_of_lookup_2 | done |].
    destruct (IH (i + 1)%nat (result ++ more) result' Hloop) as ((more' & ->) & Hclosed & Hj');
      [| done |].
    + intros j pos' Hlt Hjp. destruct (decide (j = i)) as [-> | Hne].
      * rewrite lookup_app_l in Hjp by (by eapply lookup_lt_Some).
        assert (pos' = pos) as -> by congruence. done.
      * assert (Hji : (j < i)%nat) by lia. apply lookup_lt_Some in Hi.
        rewrite lookup_app_l in Hjp by lia. apply expanded_app. by apply (Hdone j).
    + split; [exists (more ++ more'); by rewrite app_assoc | done].
Qed.

End ClosureClosed.

(** X25.  For a grammar with a FIRST table that has an entry for each
    non-terminal, [closure] returns, within the bound of one round per
    possible item, a set that holds the kernel, that holds for each of its
    items with a non-terminal [B] after the dot, each rule of [B] and each
    terminal of [termsAhead] an item of that rule with the dot at 0 and that
    lookahead, and in which every other item is one that the loop derives
    from an item of the set. *)
Theorem closure_closed ts rules first set fuel :
  first_in ts first →
  (∀ r, r ∈ rules → rule_in ts r ∧ first_covers first r) →
  (∀ q, q ∈ set → item_in ts q ∧ first_covers first (Pos.rule q)) →
  (length set + length rules * length ts ≤ fuel)%nat →
  ∃ result, closure fuel set rules first = Ok result ∧ closure_of rules first set result.
Proof.
  intros Hfirst Hrules Hset Hfuel.
  destruct (closure_loop_ok ts rules first Hfirst Hrules set Hset fuel 0 set)
    as (result & Hloop & _).
  { exists []. rewrite app_nil_r. split; [done |]. split; [by intros i x ? |].
    split; [constructor | constructor]. }
  { lia. }
  destruct (closure_loop_closed rules first set fuel 0 set result Hloop)
    as ((more & ->) & Hclosed & Hj).
  { intros j pos Hlt. lia. }
  { intros p Hp. by left. }
  unfold closure. rewrite Hloop. simpl. eexists. split; [done |].
  assert (Hmem : ∀ p, p ∈ sort Pos.cmp (set ++ more) ↔ p ∈ set ++ more).
  { intros p. by rewrite sort_perm. }
  split; [| split].
  - intros q Hq. apply Hmem. apply elem_of_app. by left.
  - intros pos Hpos next Hnext Hterm. apply Hmem in Hpos.
    destruct (Hclosed pos Hpos next Hnext Hterm) as (ahead & Hahead & Hall).
    exists ahead. split; [done |]. intros rule a Hr Hn Ha.
    destruct (Hall rule a Hr Hn Ha) as (p & Hp & H). exists p. split; [by apply Hmem | done].
  - intros p Hp. apply Hmem in Hp. destruct (Hj p Hp) as [? | (parent & Hparent & Hd)]; [by left |].
    right. exists parent. split; [by apply Hmem | done].
Qed.

Lemma closure_closed_witness :
  ∃ result,
    closure 19 SmallGrammar.kernel SmallGrammar.rules SmallGrammar.first = Ok result ∧
    closure_of SmallGrammar.rules SmallGrammar.first SmallGrammar.kernel result.
Proof.
  apply (closure_closed SmallGrammar.terms SmallGrammar.rules SmallGrammar.first).
  - apply first_in_Forall. by_decision.
  - apply Forall_forall. repeat constructor;
      first [ apply rule_in_Forall; by_decision
            | apply first_covers_Forall; by_decision ].
  - apply Forall_forall. repeat constructor;
      first [ apply rule_in_Forall; by_decision
            | apply first_covers_Forall; by_decision
            | by_decision ].
  - simpl. lia.
Defined.

End ClosureFacts.

(** * Merging states *)

Section MergeFacts.
Import Grammar Automaton.

Lemma Action_map_term a mapping n : Action.term (Action.map a mapping n) = Action.term a.
Proof. by destruct a. Qed.

Lemma addAction_quiet this value prec :
  parallel this →
  ∃ b, (State.addAction this value prec None).2 = Ok b ∧
    (b = true → acts_on (State.addAction this value prec None).1 (Action.term value) ∧
       ∀ t, acts_on this t → acts_on (State.addAction this value prec None).1 t).
Proof.
  intros Hpar. unfold State.addAction.
  destruct (addAction_check_post this value prec None (State.terminals this) [] []
              (State.terminalPrec this) (State.ambiguous this) eq_refl Hpar)
    as (_ & _ & _ & _ & _ & Hkeep & _ & Hout).
  destruct (State.addAction_check this [] [] _ _ _ value prec None) as [s' r]. simpl in *.
  destruct r as [[|]|[|msg|]]; try done.
  - exists true. split; [done |]. intros _. split; [done |]. intros t (b & Hb & Ht).
    destruct (decide (t = Action.term value)) as [-> | Hne]; [done |].
    exists b. split; [| done]. apply Hkeep; [done | congruence].
  - by exists false.
  - by destruct Hout as (p & a & [=] & _).
Qed.

Lemma mergeState_terminals_spec mapping n : ∀ terminals terminalPrec target,
  length terminals = length terminalPrec → parallel target →
  ∃ t' ok, mergeState_terminals mapping n terminals terminalPrec target = Ok (t', ok) ∧
    State.id t' = State.id target ∧ State.set t' = State.set target ∧
    State.goto t' = State.goto target ∧ parallel t' ∧
    (ok = true →
       (∀ a, a ∈ terminals → acts_on t' (Action.term a)) ∧
       ∀ t, acts_on target t → acts_on t' t).
Proof.
  induction terminals as [|action terminals IH]; intros terminalPrec target Hlen Hpar; simpl.
  { exists target, true. repeat split; try done. by intros a Ha%elem_of_nil. }
  destruct terminalPrec as [|prec terminalPrec]; [done |]. simpl in *.
  destruct (addAction_quiet target (Action.map action mapping n) prec Hpar) as (b & Hb & Hacts).
  destruct (addAction_keeps target (Action.map action mapping n) prec None Hpar)
    as ((Hid & Hset & Hgoto & _) & Hpar1).
  destruct (State.addAction target _ prec None) as [t1 r]. simpl in *. subst r. simpl.
  destruct b.
  - destruct (IH terminalPrec t1 ltac:(lia) Hpar1) as (t' & ok & -> & Hid' & Hset' & Hgoto' & Hpar' & Hok).
    exists t', ok. split; [done |]. split; [congruence |]. split; [congruence |].
    split; [congruence |]. split; [done |]. intros Htrue.
    destruct (Hok Htrue) as [Hall Hmono]. destruct (Hacts eq_refl) as [Hnew Hold]. split.
    + intros a Ha. apply elem_of_cons in Ha as [-> | Ha]; [| by apply Hall].
      apply Hmono. by rewrite <- (Action_map_term action mapping n).
    + intros t Ht. by apply Hmono, Hold.
  - exists t1, false. by repeat split.
Qed.

Lemma getGoto_Some (s : State.t) term :
  is_Some (State.getGoto s term) ↔ ∃ g, g ∈ State.goto s ∧ Action.term g = term.
Proof.
  unfold State.getGoto. split.
  - intros [g Hg]. apply find_some in Hg as [Hin Ht]. exists g.
    split; [by apply list_elem_of_In | by apply bool_decide_eq_true_1 in Ht].
  - intros (g & Hin & Ht). destruct (List.find _ (State.goto s)) as [g'|] eqn:Hfind; [by eexists |].
    exfalso. pose proof (find_none _ _ Hfind g ltac:(by apply list_elem_of_In)) as Hf.
    simpl in Hf. by rewrite bool_decide_eq_true_2 in Hf.
Qed.

Lemma find_app_Some {A} (f : A → bool) (l k : list A) x :
  List.find f l = Some x → List.find f (l ++ k) = Some x.
Proof. induction l as [|y l IH]; simpl; [done |]. by destruct (f y). Qed.

Lemma mergeState_goto_spec mapping n (gotos : list Action) : ∀ target,
  let t' := mergeState_goto mapping n gotos target in
  State.id t' = State.id target ∧ State.set t' = State.set target ∧
  State.terminals t' = State.terminals target ∧
  State.terminalPrec t' = State.terminalPrec target ∧
  State.ambiguous t' = State.ambiguous target ∧
  State.goto target `prefix_of` State.goto t' ∧
  (∀ g, g ∈ gotos → is_Some (State.getGoto t' (Action.term g))) ∧
  (∀ term g, State.getGoto target term = Some g → State.getGoto t' term = Some g) ∧
  (∀ g', g' ∈ State.goto t' →
     g' ∈ State.goto target ∨ ∃ g, g ∈ gotos ∧ g' = Action.map g mapping n).
Proof.
  unfold mergeState_goto. induction gotos as [|goto gotos IH]; intros target; simpl.
  { repeat split; try done. - by intros g Hg%elem_of_nil. - intros g' Hg'. by left. }
  destruct (State.getGoto target (Action.term goto)) as [found|] eqn:Hfound.
  - destruct (IH target) as (H1 & H2 & H3 & H4 & H5 & H6 & H7 & H8 & H9).
    split; [done |]. split; [done |]. split; [done |]. split; [done |]. split; [done |].
    split; [done |]. split; [| split; [done |]].
    + intros g Hg. apply elem_of_cons in Hg as [-> | Hg]; [| by apply H7].
      rewrite (H8 _ _ Hfound). by eexists.
    + intros g' Hg'. destruct (H9 g' Hg') as [? | (g & Hg & ->)]; [by left |].
      right. exists g. split; [apply elem_of_cons; by right | done].
  - set (t1 := State.mk _ _ _ _ _ _).
    destruct (IH t1) as (H1 & H2 & H3 & H4 & H5 & H6 & H7 & H8 & H9).
    split; [done |]. split; [done |]. split; [done |]. split; [done |]. split; [done |].
    split; [| split; [| split]].
    + etrans; [| exact H6]. simpl. by apply prefix_app_r.
    + intros g Hg. apply elem_of_cons in Hg as [-> | Hg]; [| by apply H7].
      assert (is_Some (State.getGoto t1 (Action.term goto))) as [x Hx].
      { apply getGoto_Some. exists (Action.map goto mapping n).
        split; [simpl; apply elem_of_app; right; by apply list_elem_of_singleton |].
        apply Action_map_term. }
      rewrite (H8 _ _ Hx). by eexists.
    + intros term g Hg. apply H8. unfold State.getGoto in *. simpl. by apply find_app_Some.
    + intros g' Hg'. destruct (H9 g' Hg') as [Hin | (g & Hg & ->)].
      * simpl in Hin. apply elem_of_app in Hin as [? | Hin]; [by left |].
        apply list_elem_of_singleton in Hin as ->. right. exists goto.
        split; [apply elem_of_cons; by left | done].
      * right. exists g. split; [apply elem_of_cons; by right | done].
Qed.

(** X26.  On states with parallel arrays of actions [mergeState] does not
    fail: it returns the target with its id and item set, its arrays still
    parallel and its old gotos in place.  When it returns [true] the target
    has an action on every terminal on which the merged state or the target
    had one, and a goto on every term on which the merged state has one;
    a goto that the target had is the one that is found. *)
Theorem mergeState_merges mapping n state target :
  parallel state → parallel target →
  ∃ t' ok, mergeState mapping n state target = Ok (t', ok) ∧
    State.id t' = State.id target ∧ State.set t' = State.set target ∧ parallel t' ∧
    State.goto target `prefix_of` State.goto t' ∧
    (ok = true →
       (∀ a, a ∈ State.terminals state → acts_on t' (Action.term a)) ∧
       (∀ t, acts_on target t → acts_on t' t) ∧
       (∀ g, g ∈ State.goto state → is_Some (State.getGoto t' (Action.term g))) ∧
       (∀ term g, State.getGoto target term = Some g → State.getGoto t' term = Some g)).
Proof.
  intros Hstate Htarget. unfold mergeState.
  destruct (mergeState_terminals_spec mapping n (State.terminals state)
              (State.terminalPrec state) target Hstate Htarget)
    as (t1 & ok & -> & Hid & Hset & Hgoto & Hpar & Hok).
  simpl. destruct ok.
  - destruct (mergeState_goto_spec mapping n (State.goto state) t1)
      as (H1 & H2 & H3 & H4 & H5 & H6 & H7 & H8 & H9).
    eexists _, true. split; [done |]. split; [congruence |]. split; [congruence |].
    split; [unfold parallel in *; congruence |]. split; [by rewrite <- Hgoto |].
    intros _. destruct (Hok eq_refl) as [Hall Hmono]. unfold acts_on in *.
    rewrite H3. split; [done |]. split; [done |]. split; [done |].
    intros term g Hg. apply H8. unfold State.getGoto in *. by rewrite Hgoto.
  - exists t1, false. split; [done |]. split; [done |]. split; [done |]. split; [done |].
    split; [by rewrite Hgoto | done].
Qed.

Section MarkConflicts.
Variables (mapping : list nat) (newID : nat) (oldStates : list State.t) (n : nat).
Hypothesis Hpar : ∀ s, s ∈ oldStates → parallel s.
Hypothesis Hlen : (length mapping ≤ length oldStates)%nat.





End MarkConflicts.


Lemma mergeState_merges_witness :
  ∃ t' ok, mergeState [0]%nat 1 Samples.shifting Samples.reducing = Ok (t', ok) ∧
    State.id t' = State.id Samples.reducing ∧ State.set t' = State.set Samples.reducing ∧
    parallel t' ∧ State.goto Samples.reducing `prefix_of` State.goto t' ∧
    (ok = true →
       (∀ a, a ∈ State.terminals Samples.shifting → acts_on t' (Action.term a)) ∧
       (∀ t, acts_on Samples.reducing t → acts_on t' t) ∧
       (∀ g, g ∈ State.goto Samples.shifting → is_Some (State.getGoto t' (Action.term g))) ∧
       (∀ term g, State.getGoto Samples.reducing term = Some g →
                  State.getGoto t' term = Some g)).
Proof. by apply (mergeState_merges [0]%nat 1 Samples.shifting Samples.reducing). Defined.

End MergeFacts.

(** * The states of the full automaton *)

Section ExploreFacts.
Import Grammar Automaton.

Lemma target_below_mono n m a : (n ≤ m)%nat → target_below n a → target_below m a.
Proof. intros Hle. destruct a; [| done]. intros (t & -> & Ht). exists t. split; [done | lia]. Qed.

Lemma automaton_ok_insert states id s' :
  automaton_ok states → (id < length states)%nat →
  State.id s' = id → parallel s' →
  Forall (target_below (length states)) (State.terminals s' ++ State.goto s') →
  automaton_ok (<[id := s']> states).
Proof.
  intros Hok Hid Hs' Hpar Htargets k s Hk. rewrite length_insert.
  destruct (decide (k = id)) as [-> | Hne].
  - rewrite list_lookup_insert_eq in Hk by done. by injection Hk as <-.
  - rewrite list_lookup_insert_ne in Hk by done. by apply Hok.
Qed.

Lemma addAction_at_ok states id value prec pos states' :
  addAction_at states id value prec pos = Ok states' →
  automaton_ok states → target_below (length states) value →
  automaton_ok states' ∧ length states' = length states.
Proof.
  unfold addAction_at. intros Hrun Hok Hvalue.
  destruct (states !! id) as [state|] eqn:Hstate; simpl in Hrun; [| done].
  destruct (Hok id state Hstate) as (Hid & Hpar & Htargets).
  destruct (addAction_keeps state value prec pos Hpar) as ((Hid' & _ & Hgoto & _ & Hsub & _) & Hpar').
  destruct (State.addAction state value prec pos) as [state' r]. simpl in *.
  destruct r as [b|e]; simpl in Hrun; [| done]. injection Hrun as <-.
  split; [| by rewrite length_insert].
  apply automaton_ok_insert; [done | by eapply lookup_lt_Some | congruence | done |].
  rewrite Forall_app in *. rewrite Hgoto. split; [| tauto].
  apply Forall_forall. intros a Ha. destruct (Hsub a Ha) as [-> | Hin]; [done |].
  destruct Htargets as [Ht _]. rewrite Forall_forall in Ht. by apply Ht.
Qed.

Lemma pushGoto_at_ok states id value states' :
  pushGoto_at states id value = Ok states' →
  automaton_ok states → target_below (length states) value →
  automaton_ok states' ∧ length states' = length states.
Proof.
  unfold pushGoto_at. intros Hrun Hok Hvalue.
  destruct (states !! id) as [state|] eqn:Hstate; simpl in Hrun; [| done].
  destruct (Hok id state Hstate) as (Hid & Hpar & Htargets). injection Hrun as <-.
  split; [| by rewrite length_insert].
  apply automaton_ok_insert; [done | by eapply lookup_lt_Some | done | done |]. simpl.
  rewrite app_assoc. apply Forall_app. split; [done |]. by apply Forall_singleton.
Qed.

Lemma automaton_ok_push states set :
  automaton_ok states → automaton_ok (states ++ [State.new (length states) set]).
Proof.
  intros Hok k s Hk. rewrite length_app. simpl.
  destruct (decide (k < length states)%nat) as [Hlt | Hge].
  - rewrite lookup_app_l in Hk by done. destruct (Hok k s Hk) as (Hid & Hpar & Ht).
    split; [done |]. split; [done |]. eapply Forall_impl; [exact Ht |].
    intros a. apply target_below_mono. lia.
  - rewrite lookup_app_r in Hk by lia. apply list_lookup_singleton_Some in Hk as [Hk <-].
    simpl. split; [lia |]. split; [done | constructor].
Qed.

Lemma foldlM_inv {A B} (f : B → A → res B) (P : B → Prop) (l : list A) : ∀ b b',
  (∀ b x b', P b → f b x = Ok b' → P b') → P b → foldlM f l b = Ok b' → P b'.
Proof.
  induction l as [|x l IH]; intros b b' Hstep Hb; simpl.
  - by intros [= <-].
  - destruct (f b x) as [b1|e] eqn:Hf; simpl; [| done]. apply IH; [done |]. by eapply Hstep.
Qed.

Lemma explore_ok rules terms first : ∀ fuel states set states' r,
  explore fuel rules terms first states set = Ok (states', r) →
  automaton_ok states →
  automaton_ok states' ∧ (length states ≤ length states')%nat ∧
  ∀ id, r = Some id → (id < length states')%nat.
Proof.
  induction fuel as [|fuel IH]; intros states set states' r Hrun Hok; simpl in Hrun; [done |].
  case_decide as Hempty.
  { assert (states' = states ∧ r = None) as [-> ->] by (by injection Hrun).
    split; [done |]. split; [lia | done]. }
  destruct (closure (S fuel) set rules first) as [set'|e]; simpl in Hrun; [| done].
  destruct (List.find _ states) as [state|] eqn:Hfind.
  { assert (states' = states ∧ r = Some (State.id state)) as [-> ->] by (by injection Hrun).
    split; [done |]. split; [lia |]. intros id [= <-].
    apply find_some in Hfind as [Hin _]. apply list_elem_of_In, list_elem_of_lookup in Hin as (k & Hk).
    destruct (Hok k state Hk) as (-> & _). by eapply lookup_lt_Some. }
  clear Hfind.
  set (P := fun sts : list State.t =>
    automaton_ok sts ∧ (length states < length sts)%nat).
  assert (HP0 : P (states ++ [State.new (length states) set'])).
  { split; [by apply automaton_ok_push |]. rewrite length_app. simpl. lia. }
  match type of Hrun with
  | bind (foldlM ?f1 ?l1 ?b1) _ = _ =>
      destruct (foldlM f1 l1 b1) as [s1|e] eqn:Hloop1; simpl in Hrun; [| done];
      assert (HP1 : P s1)
  end.
  { revert Hloop1. apply foldlM_inv; [| done]. intros sts term sts' [Hsts Hlen] Hstep.
    case_decide; [injection Hstep as <-; by split |].
    destruct (advanceWithPrec set' term) as [newSet prec].
    destruct (explore fuel rules terms first sts newSet) as [[sts1 shift]|e] eqn:Hex;
      simpl in Hstep; [| done].
    destruct (IH _ _ _ _ Hex Hsts) as (Hsts1 & Hlen1 & Hshift).
    destruct shift as [shift|].
    - destruct (addAction_at_ok _ _ _ _ _ _ Hstep Hsts1) as [Hok' Hlen'].
      { exists shift. split; [done | by apply Hshift]. }
      split; [done | lia].
    - injection Hstep as <-. split; [done | lia]. }
  match type of Hrun with
  | bind (foldlM ?f2 ?l2 ?b2) _ = _ =>
      destruct (foldlM f2 l2 b2) as [s2|e] eqn:Hloop2; simpl in Hrun; [| done];
      assert (HP2 : P s2)
  end.
  { revert Hloop2. apply foldlM_inv; [| done]. intros sts nt sts' [Hsts Hlen] Hstep.
    destruct (explore fuel rules terms first sts (advance set' nt)) as [[sts1 goto]|e] eqn:Hex;
      simpl in Hstep; [| done].
    destruct (IH _ _ _ _ Hex Hsts) as (Hsts1 & Hlen1 & Hgoto).
    destruct goto as [goto|].
    - destruct (pushGoto_at_ok _ _ _ _ Hstep Hsts1) as [Hok' Hlen'].
      { exists goto. split; [done | by apply Hgoto]. }
      split; [done | lia].
    - injection Hstep as <-. split; [done | lia]. }
  match type of Hrun with
  | bind (foldlM ?f3 ?l3 ?b3) _ = _ =>
      destruct (foldlM f3 l3 b3) as [s3|e] eqn:Hloop3; simpl in Hrun; [| done];
      assert (HP3 : P s3)
  end.
  { revert Hloop3. apply foldlM_inv; [| done]. intros sts pos sts' [Hsts Hlen] Hstep.
    destruct (Pos.next pos).
    - injection Hstep as <-. by split.
    - destruct (addAction_at_ok _ _ _ _ _ _ Hstep Hsts) as [Hok' Hlen']; [done |].
      split; [done | lia]. }
  assert (states' = s3 ∧ r = Some (length states)) as [-> ->] by (by injection Hrun).
  destruct HP3 as [Hok3 Hlen3].
  split; [done |]. split; [lia |]. intros id [= <-]. done.
Qed.

(** X28.  The array of states that [buildFullAutomaton] returns is well
    formed: each state sits at the index that is its id, its arrays
    [terminals] and [terminalPrec] have the same length, and each shift and
    each goto leads to a state of the array. *)
Theorem buildFullAutomaton_ok fuel rules terms states :
  buildFullAutomaton fuel rules terms = Ok states → automaton_ok states.
Proof.
  unfold buildFullAutomaton. intros Hrun.
  destruct (computeFirst fuel rules (TermSet.nonTerminals terms)) as [first|e];
    simpl in Hrun; [| done].
  destruct (explore fuel rules terms first [] _) as [[states' r]|e] eqn:Hex;
    simpl in Hrun; [| done].
  injection Hrun as <-. apply (explore_ok _ _ _ _ _ _ _ _ Hex). by intros k s Hk.
Qed.

Lemma buildFullAutomaton_ok_witness : automaton_ok Diverging.states.
Proof.
  apply (buildFullAutomaton_ok 16 Diverging.rules Diverging.terms). by vm_compute.
Defined.

End ExploreFacts.

(** * The ranges of a set expression *)

Section SetFacts.
Import Build.

Lemma addRange_apart ranges from to :
  match addRange ranges from to with
  | Ok result => result = ranges ++ [(from, to)] ∧ Forall (fun r => apart r (from, to)) ranges
  | Err _ => ¬ Forall (fun r => apart r (from, to)) ranges
  end.
Proof.
  unfold addRange. destruct (forallb _ ranges) eqn:Hall.
  - split; [done |]. apply Forall_forall. intros [a b] Hin.
    rewrite forallb_forall in Hall. specialize (Hall (a, b)). simpl in Hall.
    apply list_elem_of_In in Hin. specialize (Hall Hin). apply orb_true_iff in Hall.
    unfold apart. simpl. rewrite !bool_decide_eq_true in Hall. done.
  - intros HF. apply not_true_iff_false in Hall. apply Hall. apply forallb_forall.
    intros [a b] Hin. rewrite Forall_forall in HF. apply list_elem_of_In in Hin.
    specialize (HF (a, b) Hin). unfold apart in HF. simpl in HF.
    apply orb_true_iff. rewrite !bool_decide_eq_true. done.
Qed.

Lemma all_apart_snoc ranges r :
  all_apart (ranges ++ [r]) ↔ all_apart ranges ∧ Forall (fun r' => apart r' r) ranges.
Proof.
  induction ranges as [|x ranges IH]; simpl.
  - split; [by intros _ | by intros _; split; [constructor |]].
  - rewrite IH, Forall_app, Forall_singleton, Forall_cons. tauto.
Qed.

Lemma all_apart_app_l l k : all_apart (l ++ k) → all_apart l.
Proof.
  induction l as [|x l IH]; simpl; [done |]. rewrite Forall_app. intros [[Hx _] Hl].
  split; [done | by apply IH].
Qed.

Lemma addRanges_apart items : ∀ ranges,
  all_apart ranges →
  match addRanges items ranges with
  | Ok result => result = ranges ++ items ∧ all_apart (ranges ++ items)
  | Err _ => ¬ all_apart (ranges ++ items)
  end.
Proof.
  induction items as [|[from to] items IH]; intros ranges Hranges; simpl.
  { by rewrite app_nil_r. }
  pose proof (addRange_apart ranges from to) as Hadd.
  destruct (addRange ranges from to) as [result|e]; simpl.
  - destruct Hadd as [-> Hnew]. specialize (IH (ranges ++ [(from, to)])).
    rewrite <- app_assoc in IH. simpl in IH. apply IH. apply all_apart_snoc. by split.
  - intros Hall. apply Hadd.
    replace (ranges ++ (from, to) :: items) with ((ranges ++ [(from, to)]) ++ items) in Hall
      by (by rewrite <- app_assoc).
    apply all_apart_app_l in Hall. by apply all_apart_snoc in Hall as [_ ?].
Qed.

(** X29.  The ranges of a set expression: when no two of the characters
    and ranges of the set overlap, the parser keeps them all and returns them
    sorted by their start; when two of them overlap, [addRange] raises. *)
Theorem setRanges_disjoint items :
  match setRanges items with
  | Ok ranges => ranges ≡ₚ items ∧ sorted_by_start ranges ∧ pairwise_disjoint ranges
  | Err _ => ¬ pairwise_disjoint items
  end.
Proof.
  unfold setRanges. pose proof (addRanges_apart items [] I) as Hadd. simpl in Hadd.
  destruct (addRanges items []) as [added|e]; simpl.
  - destruct Hadd as [-> Hall]. split; [apply sort_perm |]. split.
    + apply StronglySorted_Sorted.
      apply (StronglySorted_weaken (cmp_le (fun a b : Z * Z => a.1 - b.1)));
        [unfold cmp_le; intros a b; lia |].
      apply (sort_sorted (fun _ => True) (fun a b : Z * Z => a.1 - b.1)).
      * apply (consistent_diff _ (fun r : Z * Z => r.1)).
      * by apply Forall_forall.
    + apply all_apart_disjoint. eapply all_apart_perm; [| exact Hall].
      symmetry. apply sort_perm.
  - by rewrite <- all_apart_disjoint.
Qed.

End SetFacts.

(** * The goto table *)

Section GotoTable.
Import Build.

Lemma toInt32_small z : - 2 ^ 31 ≤ z < 2 ^ 31 → toInt32 z = z.
Proof. intros Hz. unfold toInt32. rewrite Z.mod_small; lia. Qed.

Lemma groupTag_spec (len : nat) (flag : bool) :
  Z.of_nat len < 2 ^ 15 →
  let tag := (if flag then 1 else 0) + toInt32 (shl (Z.of_nat len) 1) in
  0 ≤ tag < 2 ^ 16 ∧ Z.to_nat (Z.shiftr tag 1) = len ∧ Z.odd tag = flag.
Proof.
  intros Hlen. unfold shl. change (Z.land 1 31) with 1. rewrite Z.shiftl_mul_pow2 by lia.
  change (2 ^ 1) with 2. rewrite toInt32_small by lia. simpl.
  rewrite Z.shiftr_div_pow2 by lia. change (2 ^ 1) with 2.
  split; [destruct flag; lia |]. split.
  - destruct flag.
    + replace (1 + Z.of_nat len * 2) with (1 + Z.of_nat len * 2) by lia.
      rewrite Z.div_add by lia. change (1 / 2) with 0. lia.
    + rewrite Z.add_0_l, Z.div_mul by lia. lia.
  - destruct flag.
    + replace (1 + Z.of_nat len * 2) with (1 + 2 * Z.of_nat len) by lia.
      by rewrite Z.odd_add_mul_2.
    + replace (0 + Z.of_nat len * 2) with (0 + 2 * Z.of_nat len) by lia.
      by rewrite Z.odd_add_mul_2.
Qed.

Lemma holds_app table l k pos :
  holds table (l ++ k) pos ↔ holds table l pos ∧ holds table k (pos + length l).
Proof.
  unfold holds. split.
  - intros H. split.
    + intros j x Hj. apply H. by apply lookup_app_l_Some.
    + intros j x Hj. replace (pos + length l + j)%nat with (pos + (length l + j))%nat by lia.
      apply H. rewrite lookup_app_r by lia. by replace (length l + j - length l)%nat with j by lia.
  - intros [Hl Hk] j x Hj. apply lookup_app_Some in Hj as [Hj | [Hge Hj]]; [by apply Hl |].
    specialize (Hk _ _ Hj). by replace (pos + length l + (j - length l))%nat with (pos + j)%nat in Hk by lia.
Qed.

Lemma holds_take table l pos :
  holds table l pos → take (length l) (drop pos table) = l.
Proof.
  intros H. apply list_eq. intros j. destruct (l !! j) as [x|] eqn:Hj.
  - rewrite lookup_take_lt by (by eapply lookup_lt_Some). rewrite lookup_drop. by apply H.
  - apply lookup_ge_None in Hj. by rewrite lookup_take_ge.
Qed.

Lemma gotoRecords_found entries lastKey table (source target0 : nat) : ∀ keys fuel pos,
  NoDup keys → lastKey = last keys → target0 ∈ keys →
  (∀ k, k ∈ keys → Z.of_nat (length (sources entries k)) < 2 ^ 15) →
  source ∈ sources entries target0 →
  (∀ k, k ∈ keys → k ≠ target0 → source ∉ sources entries k) →
  holds table (termRecords entries keys lastKey) pos →
  (length keys ≤ fuel)%nat →
  gotoRecords fuel table pos (Z.of_nat source) = Some (Z.of_nat target0).
Proof.
  induction keys as [|k keys IH]; intros fuel pos Hnd Hlast Hin Hlen Hsrc Hother Hholds Hfuel;
    [by apply elem_of_nil in Hin |].
  destruct fuel as [|fuel]; [simpl in Hfuel; lia |].
  cbn [termRecords] in Hholds. fold (sources entries k) in Hholds.
  set (flag := bool_decide (Some k = lastKey)).
  assert (Hflag : (if decide (Some k = lastKey) then 1 else 0) = if flag then 1 else 0).
  { unfold flag. by case_decide; [rewrite bool_decide_eq_true_2 | rewrite bool_decide_eq_false_2]. }
  rewrite Hflag in Hholds.
  destruct (groupTag_spec (length (sources entries k)) flag) as (Hrange & Hcount & Hodd).
  { apply Hlen. apply elem_of_cons. by left. }
  set (tag := (if flag then 1 else 0) + _) in *.
  pose proof (Hholds 0%nat tag eq_refl) as Htag. rewrite Nat.add_0_r in Htag.
  pose proof (Hholds 1%nat (Z.of_nat k) eq_refl) as Htarget.
  assert (Hlist : holds table (Z.of_nat <$> sources entries k) (pos + 2)).
  { intros j x Hj. replace (pos + 2 + j)%nat with (pos + S (S j))%nat by lia. apply Hholds.
    simpl. by apply lookup_app_l_Some. }
  assert (Hrest : holds table (termRecords entries keys lastKey)
                    (pos + 2 + length (sources entries k))).
  { intros j x Hj.
    replace (pos + 2 + length (sources entries k) + j)%nat
      with (pos + S (S (length (sources entries k) + j)))%nat by lia.
    apply Hholds. simpl. rewrite lookup_app_r by (rewrite length_fmap; lia).
    rewrite length_fmap. by replace (length (sources entries k) + j - length (sources entries k))%nat with j by lia. }
  cbn [gotoRecords]. rewrite Htag. simpl. rewrite Htarget. simpl. rewrite Hcount.
  rewrite <- (length_fmap Z.of_nat (sources entries k)), (holds_take _ _ _ Hlist).
  apply NoDup_cons in Hnd as [Hk Hnd].
  destruct (decide (k = target0)) as [-> | Hne].
  - rewrite decide_True; [done |]. apply list_elem_of_fmap. by exists source.
  - rewrite decide_False.
    2: { intros Hx. apply list_elem_of_fmap in Hx as (y & Hy & Hin').
         apply Nat2Z.inj in Hy as <-. apply (Hother k); [apply elem_of_cons; by left | done | done]. }
    apply elem_of_cons in Hin as [-> | Hin]; [done |].
    assert (flag = false) as Hf.
    { unfold flag. apply bool_decide_eq_false_2. intros Hk'. rewrite Hlast in Hk'.
      destruct keys as [|k' keys']; [by apply elem_of_nil in Hin |].
      rewrite last_cons_cons in Hk'. apply Hk. symmetry in Hk'.
      apply last_Some in Hk' as [l' ->]. apply elem_of_app. right. by apply list_elem_of_singleton. }
    rewrite Hodd, Hf. rewrite length_fmap. apply IH; try done.
    + rewrite Hlast. destruct keys; [by apply elem_of_nil in Hin | by rewrite last_cons_cons].
    + intros k' Hk'. apply Hlen. apply elem_of_cons. by right.
    + intros k' Hk'. apply Hother. apply elem_of_cons. by right.
    + simpl in Hfuel. lia.
Qed.

Lemma addGoto_listed goto t g s t' g' s' :
  listed (addGoto goto t g s) t' g' s' ↔ listed goto t' g' s' ∨ (t' = t ∧ g' = g ∧ s' = s).
Proof.
  unfold listed, addGoto, sources. destruct (decide (t' = t)) as [-> | Ht].
  - rewrite lookup_insert_eq. destruct (decide (g' = g)) as [-> | Hg].
    + split.
      * intros (entries & [= <-] & Hin). rewrite lookup_insert_eq in Hin. simpl in Hin.
        apply elem_of_app in Hin as [Hin | Hin].
        -- left. destruct (goto !! t) as [set|] eqn:Hset; simpl in *;
             [by exists set | by rewrite lookup_empty in Hin; apply elem_of_nil in Hin].
        -- right. by apply list_elem_of_singleton in Hin.
      * intros [(entries & Hset & Hin) | (_ & _ & ->)]; eexists; (split; [done |]);
          rewrite lookup_insert_eq; simpl; apply elem_of_app.
        -- left. by rewrite Hset.
        -- right. by apply list_elem_of_singleton.
    + split.
      * intros (entries & [= <-] & Hin). rewrite lookup_insert_ne in Hin by done. left.
        destruct (goto !! t) as [set|] eqn:Hset; simpl in *;
          [by exists set | by rewrite lookup_empty in Hin; apply elem_of_nil in Hin].
      * intros [(entries & Hset & Hin) | (_ & ? & _)]; [| done]. eexists. split; [done |].
        rewrite lookup_insert_ne by done. by rewrite Hset.
  - rewrite lookup_insert_ne by done. split; [by left |]. intros [? | (? & _)]; done.
Qed.

Lemma addGoto_keys goto t g s t' :
  is_Some (addGoto goto t g s !! t') ↔ is_Some (goto !! t') ∨ t' = t.
Proof.
  unfold addGoto. destruct (decide (t' = t)) as [-> | Ht].
  - rewrite lookup_insert_eq. split; [by right | by eexists].
  - rewrite lookup_insert_ne by done. split; [by left | by intros [? | ?]].
Qed.

Lemma addGoto_length goto t g s t' g' entries (N : nat) :
  (∀ t g entries, goto !! t = Some entries → (length (sources entries g) ≤ N)%nat) →
  addGoto goto t g s !! t' = Some entries → (length (sources entries g') ≤ S N)%nat.
Proof.
  intros Hold. unfold addGoto, sources. destruct (decide (t' = t)) as [-> | Ht].
  - rewrite lookup_insert_eq. intros [= <-]. destruct (decide (g' = g)) as [-> | Hg].
    + rewrite lookup_insert_eq. simpl. rewrite length_app. simpl.
      destruct (goto !! t) as [set|] eqn:Hset; simpl.
      * specialize (Hold t g set Hset). unfold sources in Hold. lia.
      * rewrite lookup_empty. simpl. lia.
    + rewrite lookup_insert_ne by done. destruct (goto !! t) as [set|] eqn:Hset; simpl.
      * specialize (Hold t g' set Hset). unfold sources in Hold. lia.
      * rewrite lookup_empty. simpl. lia.
  - rewrite lookup_insert_ne by done. intros Hset. specialize (Hold t' g' entries Hset).
    unfold sources in Hold. lia.
Qed.

Lemma addGoto_nonempty goto t g s t' g' entries :
  (∀ t g entries, goto !! t = Some entries → is_Some (entries !! g) → sources entries g ≠ []) →
  addGoto goto t g s !! t' = Some entries → is_Some (entries !! g') → sources entries g' ≠ [].
Proof.
  intros Hold. unfold addGoto, sources. destruct (decide (t' = t)) as [-> | Ht].
  - rewrite lookup_insert_eq. intros [= <-]. destruct (decide (g' = g)) as [-> | Hg].
    + rewrite lookup_insert_eq. simpl. intros _ Hnil. by apply app_eq_nil in Hnil as [_ ?].
    + rewrite lookup_insert_ne by done. destruct (goto !! t) as [set|] eqn:Hset; simpl.
      * apply (Hold t g' set Hset).
      * rewrite lookup_empty. by intros [? ?].
  - rewrite lookup_insert_ne by done. apply (Hold t' g' entries).
Qed.

Lemma gathered_step gotos goto maxTerm t g s :
  gathered gotos goto maxTerm →
  gathered (gotos ++ [(s, t, g)]) (addGoto goto t g s) (Nat.max t maxTerm).
Proof.
  intros (Hl & Hk & Hm & Hn & Hne). split; [| split; [| split; [| split]]].
  5: { intros t' g' entries. by apply (addGoto_nonempty goto t g s t' g' entries). }
  - intros t' g' s'. rewrite addGoto_listed, Hl, elem_of_app, list_elem_of_singleton.
    split; [intros [? | (-> & -> & ->)]; tauto | intros [? | [= -> -> ->]]; tauto].
  - intros t'. rewrite addGoto_keys, Hk. split.
    + intros [(s' & g' & Hin) | ->].
      * exists s', g'. apply elem_of_app. by left.
      * exists s, g. apply elem_of_app. right. by apply list_elem_of_singleton.
    + intros (s' & g' & Hin). apply elem_of_app in Hin as [Hin | Hin]; [left; eauto |].
      apply list_elem_of_singleton in Hin as [= -> -> ->]. by right.
  - intros t' Ht'. apply addGoto_keys in Ht' as [Ht' | ->]; [| lia]. specialize (Hm t' Ht'). lia.
  - intros t' g' entries Hset. rewrite length_app. simpl. rewrite Nat.add_1_r.
    by eapply addGoto_length.
Qed.

Lemma gotoEntries_inner (id : nat) (gs : list (nat * nat)) : ∀ gotos goto maxTerm,
  gathered gotos goto maxTerm →
  let out := fold_left (fun '(goto, maxTerm) '(term, target) =>
               (addGoto goto term target id, Nat.max term maxTerm)) gs (goto, maxTerm) in
  gathered (gotos ++ ((fun '(t, g) => (id, t, g)) <$> gs)) out.1 out.2.
Proof.
  induction gs as [|[t g] gs IH]; intros gotos goto maxTerm Hg; simpl.
  { by rewrite app_nil_r. }
  specialize (IH _ _ _ (gathered_step _ _ _ t g id Hg)). simpl in IH.
  by rewrite <- app_assoc in IH.
Qed.

Lemma gotoEntries_outer (states : list GotoState) : ∀ gotos goto maxTerm,
  gathered gotos goto maxTerm →
  let out := fold_left (fun acc state =>
    fold_left (fun '(goto, maxTerm) '(term, target) =>
      (addGoto goto term target (gs_id state), Nat.max term maxTerm))
      (gs_goto state) acc) states (goto, maxTerm) in
  gathered (gotos ++ all_gotos states) out.1 out.2.
Proof.
  induction states as [|state states IH]; intros gotos goto maxTerm Hg; simpl.
  { unfold all_gotos. simpl. by rewrite app_nil_r. }
  pose proof (gotoEntries_inner (gs_id state) (gs_goto state) _ _ _ Hg) as Hin. simpl in Hin.
  destruct (fold_left _ (gs_goto state) (goto, maxTerm)) as [goto1 max1]. simpl in Hin.
  specialize (IH _ _ _ Hin). simpl in IH. unfold all_gotos in *. simpl.
  by rewrite <- app_assoc in IH.
Qed.

Lemma gotoEntries_gathered states :
  gathered (all_gotos states) (gotoEntries states).1 (gotoEntries states).2.
Proof.
  apply (gotoEntries_outer states [] ∅ 0%nat). split; [| split; [| split; [| split]]].
  5: { intros t g entries. by rewrite lookup_empty. }
  - intros t g s. split; [| by intros Hin%elem_of_nil].
    intros (entries & Hset & _). by rewrite lookup_empty in Hset.
  - intros t. rewrite lookup_empty. split; [by intros [? ?] | by intros (? & ? & Hin%elem_of_nil)].
  - intros t. rewrite lookup_empty. by intros [? ?].
  - intros t g entries. by rewrite lookup_empty.
Qed.

Lemma elem_of_all_gotos states s t g :
  (s, t, g) ∈ all_gotos states ↔ ∃ state, state ∈ states ∧ gs_id state = s ∧ (t, g) ∈ gs_goto state.
Proof.
  unfold all_gotos. rewrite list_elem_of_join. split.
  - intros (l & Hin & Hl). apply list_elem_of_fmap in Hl as (state & -> & Hstate).
    apply list_elem_of_fmap in Hin as ([t' g'] & [= -> -> ->] & Hin). by exists state.
  - intros (state & Hstate & Hs & Hin). subst s.
    eexists. split; [| apply list_elem_of_fmap; by exists state].
    apply list_elem_of_fmap. by exists (t, g).
Qed.

Lemma length_all_gotos states : length (all_gotos states) = goto_count states.
Proof.
  induction states as [|state states IH]; [done |].
  change (all_gotos (state :: states))
    with (((fun '(t, g) => (gs_id state, t, g)) <$> gs_goto state) ++ all_gotos states).
  change (goto_count (state :: states))
    with (length (gs_goto state ++ mjoin (gs_goto <$> states))).
  rewrite !length_app, length_fmap, IH. done.
Qed.

Lemma occurs_at_holds data value pos : occurs_at data value pos → holds data value pos.
Proof.
  intros Hocc j x Hj. rewrite <- Hj.
  apply (proj1 (occurs_at_lookup data value pos) Hocc). by eapply lookup_lt_Some.
Qed.

Lemma gotoIndex_loop goto offset (terms : list nat) : ∀ data index,
  ∃ data' index',
    Automaton.foldlM (gotoIndex_step goto offset) terms (data, index) = Ok (data', index') ∧
    length index' = (length index + length terms)%nat ∧
    (∀ j x, index !! j = Some x → index' !! j = Some x) ∧
    (∀ value pos, occurs_at data value pos → occurs_at data' value pos) ∧
    ∀ j term entries, terms !! j = Some term → goto !! term = Some entries →
      ∃ pos, index' !! (length index + j)%nat = Some (Z.of_nat pos + Z.of_nat offset) ∧
             occurs_at data' (termTable entries) pos.
Proof.
  induction terms as [|term terms IH]; intros data index.
  { exists data, index. split; [done |]. split; [simpl; lia |]. split; [done |]. split; [done |].
    by intros j term entries Hj. }
  cbn [Automaton.foldlM]. unfold gotoIndex_step at 1.
  destruct (goto !! term) as [entries|] eqn:Hentries.
  - destruct (storeArray_spec data (termTable entries))
      as (data1 & pos & -> & Hocc & _ & _ & Hkeep).
    cbn [bind]. destruct (IH data1 (index ++ [Z.of_nat pos + Z.of_nat offset]))
      as (data' & index' & -> & Hlen & Hindex & Hdata & Hterms).
    exists data', index'. split; [done |]. rewrite length_app in Hlen. simpl in *.
    split; [lia |]. split; [| split].
    + intros j x Hj. apply Hindex. by apply lookup_app_l_Some.
    + intros value p Hp. by apply Hdata, Hkeep.
    + intros j term' entries' Hj Hg. destruct j as [|j]; simpl in Hj.
      * injection Hj as <-. assert (entries' = entries) as -> by congruence.
        exists pos. split; [| by apply Hdata]. apply Hindex.
        rewrite Nat.add_0_r, lookup_app_r, Nat.sub_diag by lia. done.
      * destruct (Hterms j term' entries' Hj Hg) as (p & Hp & Hocc'). exists p.
        split; [| done]. rewrite length_app in Hp. simpl in Hp.
        by replace (length index + S j)%nat with (length index + 1 + j)%nat by lia.
  - cbn [bind]. destruct (IH data (index ++ [1]))
      as (data' & index' & -> & Hlen & Hindex & Hdata & Hterms).
    exists data', index'. split; [done |]. rewrite length_app in Hlen. simpl in *.
    split; [lia |]. split; [| split; [done |]].
    + intros j x Hj. apply Hindex. by apply lookup_app_l_Some.
    + intros j term' entries' Hj Hg. destruct j as [|j]; simpl in Hj.
      * injection Hj as <-. congruence.
      * destruct (Hterms j term' entries' Hj Hg) as (p & Hp & Hocc'). exists p.
        split; [| done]. rewrite length_app in Hp. simpl in Hp.
        by replace (length index + S j)%nat with (length index + 1 + j)%nat by lia.
Qed.

Lemma objectKeys_elem {A} (entries : gmap nat A) k :
  k ∈ objectKeys entries ↔ is_Some (entries !! k).
Proof.
  unfold objectKeys. rewrite merge_sort_Permutation, list_elem_of_fmap. split.
  - intros ([k' x] & -> & Hin). apply elem_of_map_to_list in Hin. by exists x.
  - intros [x Hx]. exists (k, x). split; [done |]. by apply elem_of_map_to_list.
Qed.

Lemma objectKeys_NoDup {A} (entries : gmap nat A) : NoDup (objectKeys entries).
Proof. unfold objectKeys. rewrite merge_sort_Permutation. apply NoDup_fst_map_to_list. Qed.

Lemma termRecords_length entries lastKey keys :
  (2 * length keys ≤ length (termRecords entries keys lastKey))%nat.
Proof.
  induction keys as [|k keys IH]; simpl; [lia |]. rewrite length_app. lia.
Qed.

Lemma termRecords_range entries lastKey keys x :
  (∀ k, k ∈ keys → Z.of_nat k < 2 ^ 16 ∧ Z.of_nat (length (sources entries k)) < 2 ^ 15 ∧
                   ∀ s, s ∈ sources entries k → Z.of_nat s < 2 ^ 16) →
  x ∈ termRecords entries keys lastKey → 0 ≤ x < 2 ^ 16.
Proof.
  induction keys as [|k keys IH]; intros Hk Hx; [by apply elem_of_nil in Hx |].
  cbn [termRecords] in Hx. fold (sources entries k) in Hx.
  destruct (Hk k) as (Hkey & Hlen & Hsrc); [apply elem_of_cons; by left |].
  apply elem_of_cons in Hx as [-> | Hx].
  { pose proof (groupTag_spec (length (sources entries k)) (bool_decide (Some k = lastKey)) Hlen)
      as (Hr & _). simpl in Hr. by case_decide;
      [rewrite bool_decide_eq_true_2 in Hr | rewrite bool_decide_eq_false_2 in Hr]. }
  apply elem_of_cons in Hx as [-> | Hx]; [lia |].
  apply elem_of_app in Hx as [Hx | Hx].
  - apply list_elem_of_fmap in Hx as (s & -> & Hs). specialize (Hsrc s Hs). lia.
  - apply IH; [| done]. intros k' Hk'. apply Hk. apply elem_of_cons. by right.
Qed.

(** X30. When no state has two gotos on one term, the ids of states are
    below 2^16 and there are fewer than 2^15 gotos, [computeGotoTable]
    either throws "Goto table too large" or returns a table in which, read
    by the layout described before the function, every goto of every state
    is found: the record of the goto's term that lists the start state
    gives the goto's target. *)
Theorem computeGotoTable_lookup states :
  goto_function states → goto_small states → Z.of_nat (goto_count states) < 2 ^ 15 →
  match computeGotoTable states with
  | Ok table => ∀ s term target, s ∈ states → (term, target) ∈ gs_goto s →
      gotoLookup table (gs_id s) term = Some (Z.of_nat target)
  | Err e => e = Thrown "Goto table too large"
  end.
Proof.
  intros Hfun Hsmall Hcount. unfold computeGotoTable.
  pose proof (gotoEntries_gathered states) as (Hl & Hk & Hm & Hn & Hne).
  destruct (gotoEntries states) as [goto maxTerm]. simpl in Hl, Hk, Hm, Hn, Hne.
  destruct (gotoIndex_loop goto (maxTerm + 2) (seq 0 (S maxTerm)) [] [])
    as (data & index & -> & Hlen & _ & _ & Hterms).
  cbn [bind]. destruct (existsb _ index) eqn:Hbig; [done |].
  intros s term target Hs Hg.
  assert (Hin : (gs_id s, term, target) ∈ all_gotos states).
  { apply elem_of_all_gotos. by exists s. }
  apply Hl in Hin as (entries & Hentries & Hsrc).
  assert (Hterm : (term ≤ maxTerm)%nat) by (apply Hm; by rewrite Hentries).
  destruct (Hterms term term entries) as (pos & Hpos & Hocc); [| done |].
  { apply lookup_seq. lia. }
  simpl in Hpos, Hlen. rewrite length_seq in Hlen.
  assert (Hfit : Z.of_nat pos + Z.of_nat (maxTerm + 2) ≤ 0xffff).
  { destruct (decide (Z.of_nat pos + Z.of_nat (maxTerm + 2) ≤ 0xffff)) as [? | Hgt]; [done |].
    assert (existsb (fun n => bool_decide (n > 0xffff)) index = true) as Hex; [| congruence].
    apply existsb_exists. eexists. split; [apply list_elem_of_In; by eapply list_elem_of_lookup_2 |].
    apply bool_decide_eq_true_2. lia. }
  set (offset := (maxTerm + 2)%nat) in *.
  set (table := DataBuilder.finish _).
  assert (Htable : ∀ j x, (Z.of_nat (maxTerm + 1) :: index ++ data) !! j = Some x →
            0 ≤ x < 2 ^ 16 → table !! j = Some x).
  { intros j x Hj Hx. unfold table, DataBuilder.finish. rewrite list_lookup_fmap, Hj. simpl.
    by rewrite Z.mod_small. }
  unfold gotoLookup. rewrite (Htable 0%nat (Z.of_nat (maxTerm + 1))) by (done || lia).
  cbn [mbind option_bind]. rewrite decide_True by lia.
  rewrite (Htable (1 + term)%nat (Z.of_nat pos + Z.of_nat offset)).
  2: { simpl. by apply lookup_app_l_Some. }
  2: lia.
  cbn [mbind option_bind].
  replace (Z.to_nat (Z.of_nat pos + Z.of_nat offset)) with (pos + offset)%nat by lia.
  assert (Hkeys : ∀ k, k ∈ objectKeys entries →
            Z.of_nat k < 2 ^ 16 ∧ Z.of_nat (length (sources entries k)) < 2 ^ 15 ∧
            ∀ s', s' ∈ sources entries k → Z.of_nat s' < 2 ^ 16).
  { intros k Hkin. apply objectKeys_elem in Hkin.
    pose proof (Hn term k entries Hentries) as Hlenk. rewrite length_all_gotos in Hlenk.
    assert (Hs' : ∀ s', s' ∈ sources entries k →
              Z.of_nat s' < 2 ^ 16 ∧ Z.of_nat k < 2 ^ 16).
    { intros s' Hs'. assert (listed goto term k s') as Hlisted by (by exists entries).
      apply Hl, elem_of_all_gotos in Hlisted as (state & Hstate & <- & Hgoto).
      destruct (Hsmall state Hstate) as [Hid Htargets]. split; [done | by eapply Htargets]. }
    split; [| split; [lia | intros s' Hin'; by apply Hs']].
    pose proof (Hne term k entries Hentries Hkin) as Hsome.
    destruct (sources entries k) as [|s' l] eqn:Hlist; [done |].
    apply (Hs' s'). apply elem_of_cons. by left. }
  assert (Htarget : target ∈ objectKeys entries).
  { apply objectKeys_elem. unfold sources in Hsrc. destruct (entries !! target); [done |].
    by apply elem_of_nil in Hsrc. }
  pose proof (termRecords_length entries (last (objectKeys entries)) (objectKeys entries))
    as Hrecords.
  assert (Hbound : (pos + length (termTable entries) ≤ length data)%nat).
  { apply occurs_at_bound; [| done]. unfold termTable. intros Hnil. rewrite Hnil in Hrecords.
    destruct (objectKeys entries); [by apply elem_of_nil in Htarget | simpl in Hrecords; lia]. }
  apply (gotoRecords_found entries (last (objectKeys entries)) table (gs_id s) target
          (objectKeys entries)).
  - apply objectKeys_NoDup.
  - done.
  - done.
  - intros k Hkin. by apply Hkeys.
  - done.
  - intros k Hkin Hne' Hsrc'. apply Hne'.
    assert (listed goto term k (gs_id s)) as Hlisted by (by exists entries).
    apply Hl, elem_of_all_gotos in Hlisted as (state & Hstate & Hid & Hgoto).
    by apply (Hfun state s term k target).
  - intros j x Hj. apply Htable.
    + change (Z.of_nat (maxTerm + 1) :: index ++ data)
        with ([Z.of_nat (maxTerm + 1)] ++ index ++ data).
      rewrite lookup_app_r by (simpl; lia). rewrite lookup_app_r by (simpl; lia).
      simpl. replace (pos + offset + j - 1 - length index)%nat with (pos + j)%nat by lia.
      by apply (occurs_at_holds data (termTable entries) pos).
    + apply (termRecords_range entries (last (objectKeys entries)) (objectKeys entries));
        [done | by eapply list_elem_of_lookup_2].
  - unfold table, DataBuilder.finish. rewrite length_fmap. simpl. rewrite length_app.
    unfold termTable in Hbound. lia.
Qed.

Lemma computeGotoTable_lookup_witness :
  match computeGotoTable [mkGotoState 0 [(1, 1); (3, 2)]%nat; mkGotoState 1 [(3, 2)]%nat;
                          mkGotoState 2 [(1, 4)]%nat] with
  | Ok table => ∀ s term target,
      s ∈ [mkGotoState 0 [(1, 1); (3, 2)]%nat; mkGotoState 1 [(3, 2)]%nat;
           mkGotoState 2 [(1, 4)]%nat] →
      (term, target) ∈ gs_goto s →
      gotoLookup table (gs_id s) term = Some (Z.of_nat target)
  | Err e => e = Thrown "Goto table too large"
  end.
Proof.
  apply (computeGotoTable_lookup
           [mkGotoState 0 [(1, 1); (3, 2)]%nat; mkGotoState 1 [(3, 2)]%nat;
            mkGotoState 2 [(1, 4)]%nat]).
  - intros s1 s2 term g1 g2 H1 H2 Hid Hg1 Hg2.
    repeat (apply elem_of_cons in H1 as [-> | H1]); [| | | by apply elem_of_nil in H1];
      (repeat (apply elem_of_cons in H2 as [-> | H2]); [| | | by apply elem_of_nil in H2]);
      try discriminate Hid; simpl in Hg1, Hg2;
      repeat (apply elem_of_cons in Hg1 as [Hg1 | Hg1]); try (by apply elem_of_nil in Hg1);
      repeat (apply elem_of_cons in Hg2 as [Hg2 | Hg2]); try (by apply elem_of_nil in Hg2);
      congruence.
  - intros s Hs.
    repeat (apply elem_of_cons in Hs as [-> | Hs]); [| | | by apply elem_of_nil in Hs];
      (split; [simpl; lia |]); intros term target Hin; simpl in Hin;
      repeat (apply elem_of_cons in Hin as [Hin | Hin]); try (by apply elem_of_nil in Hin);
      injection Hin as -> ->; lia.
  - vm_compute. done.
Defined.

End GotoTable.
